(** * smatch: the match accumulator, the matcher and the match-file format

    A shallow embedding of [smatch/smatch.c].  Doubles are Rocq's primitive
    binary64 floats, 64-bit integers are [Z], a [match_vector] is the list of
    its first [size] slots, and the engine object [struct PySMatchCat] is a
    record threaded through the functions that mutate it. *)

From Stdlib Require Import ZArith List Bool Lia Floats Ascii String.
From stdpp Require Import base list.
Import ListNotations.

Local Open Scope Z_scope.

(** ** Data model (cat.h, as used by smatch.c) *)

Record Match := mkMatch {
  cat_ind : Z;
  input_ind : Z;
  cosdist : float
}.

(** [Match match={0};] *)
Definition match0 : Match := mkMatch 0 0 0%float.

Record Point := mkPoint {
  x : float;
  y : float;
  z : float;
  radius : float;
  cos_radius : float
}.

(** A [match_vector] is modelled by the list of its [size] live slots;
    [vector_size] is the length, [vector_get] reads a slot, [vector_push]
    appends one, [vector_clear] and [vector_resize(v,0)] leave size 0. *)
Abbreviation match_vector := (list Match).

Definition vector_get (data : match_vector) (i : nat) : Match := nth i data match0.
Definition vector_push (data : match_vector) (m : Match) : match_vector := data ++ [m].

Record CatalogEntry := mkEntry {
  point : Point;
  disc_pixels : list Z;
  matches : match_vector
}.

Abbreviation Catalog := (list CatalogEntry).

(** ** The heap inside a match vector *)

(** C's [a > b] and [a <= b] on doubles. *)
Definition dgt (a b : float) : bool := PrimFloat.ltb b a.
Definition dle (a b : float) : bool := PrimFloat.leb a b.
Definition dlt (a b : float) : bool := PrimFloat.ltb a b.

(** The [do { ... } while (c != 0)] loop of [match_build_heap], entered with
    [c = i >= 1]; every turn replaces [c] by [(c-1)/2 < c], so [c] turns are
    enough fuel. *)
Fixpoint build_heap_up (fuel : nat) (data : match_vector) (c : nat) : match_vector :=
  match fuel with
  | O => data
  | S fuel' =>
      let parent := ((c - 1) / 2)%nat in
      let data' :=
        if dlt (cosdist (vector_get data parent)) (cosdist (vector_get data c))
        then
          let tmp := vector_get data parent in
          <[c := tmp]> (<[parent := vector_get data c]> data)
        else data in
      if Nat.eqb parent 0 then data' else build_heap_up fuel' data' parent
  end.

(** [for (i=1; i<vector_size(self)-1; i++)]: the indices 1 .. size-2. *)
Definition match_build_heap (self : match_vector) : match_vector :=
  if (length self <=? 1)%nat then self
  else fold_left (fun data i => build_heap_up i data i)
                 (seq 1 (length self - 2)) self.

(** The [while (jlo <= n)] loop of [match_heap_fix].  [v] is the pointer
    [&self->data[0]], so [v->cosdist] is read from the current slot 0 at every
    use.  [jlo] at least doubles per turn, so [size] turns are enough fuel. *)
Fixpoint heap_fix_loop (fuel : nat) (data : match_vector) (n jhi jlo : nat)
  : match_vector * nat :=
  match fuel with
  | O => (data, jhi)
  | S fuel' =>
      if (jlo <=? n)%nat then
        let jlo1 :=
          if (jlo <? n)%nat
             && dgt (cosdist (vector_get data jlo)) (cosdist (vector_get data (jlo + 1)))
          then (jlo + 1)%nat else jlo in
        if dle (cosdist (vector_get data 0)) (cosdist (vector_get data jlo1))
        then (data, jhi)
        else heap_fix_loop fuel' (<[jhi := vector_get data jlo1]> data) n jlo1 (2 * jlo1 + 1)%nat
      else (data, jhi)
  end.

Definition match_heap_fix (self : match_vector) : match_vector :=
  let n := (length self - 1)%nat in
  let '(data, jhi) := heap_fix_loop (length self) self n 0 1 in
  <[jhi := vector_get data 0]> data.

Definition match_heap_insert (self : match_vector) (m : Match) : match_vector :=
  if dgt (cosdist m) (cosdist (vector_get self 0)) then
    let data := <[0%nat := m]> self in
    if (1 <? length data)%nat then match_heap_fix data else data
  else self.

(** ** The pixel tree (tree.h) *)

(** Modelled from the spec: tree.h is not among the sources.  The pixel tree
    is an insert-ordered binary search tree with one node per distinct key;
    a node holds the indices inserted under its key, in insertion order;
    [tree_find] is a pure lookup that yields the node or NULL. *)
Inductive tree_node :=
| NULL
| Node (key : Z) (indices : list Z) (left right : tree_node).

Fixpoint tree_insert (self : tree_node) (key : Z) (i : Z) : tree_node :=
  match self with
  | NULL => Node key [i] NULL NULL
  | Node k ix l r =>
      if key <? k then Node k ix (tree_insert l key i) r
      else if k <? key then Node k ix l (tree_insert r key i)
      else Node k (ix ++ [i]) l r
  end.

Fixpoint tree_find (self : tree_node) (key : Z) : option (list Z) :=
  match self with
  | NULL => None
  | Node k ix l r =>
      if key <? k then tree_find l key
      else if k <? key then tree_find r key
      else Some ix
  end.

(** ** The engine object *)

Record healpix := mkHealpix {
  nside : Z;
  npix : Z
}.

Record PySMatchCat := mkCat {
  maxmatch : Z;
  matching_self : Z;
  cat : Catalog;
  hpix : healpix;
  tree : tree_node;
  nmatches : Z
}.

(** [int64_t] arithmetic wraps. *)
Definition wrap64 (n : Z) : Z := (n + 2 ^ 63) mod 2 ^ 64 - 2 ^ 63.

Definition entry0 : CatalogEntry :=
  mkEntry (mkPoint 0 0 0 0 0) [] [].

(** [&self->cat->data[cat_ind]] *)
Definition entry_at (self : PySMatchCat) (cat_ind : nat) : CatalogEntry :=
  nth cat_ind (cat self) entry0.

Definition set_matches (self : PySMatchCat) (cat_ind : nat) (v : match_vector)
  : PySMatchCat :=
  let e := entry_at self cat_ind in
  mkCat (maxmatch self) (matching_self self)
        (<[cat_ind := mkEntry (point e) (disc_pixels e) v]> (cat self))
        (hpix self) (tree self) (nmatches self).

Definition set_nmatches (self : PySMatchCat) (n : Z) : PySMatchCat :=
  mkCat (maxmatch self) (matching_self self) (cat self) (hpix self) (tree self) n.

Definition set_args (self : PySMatchCat) (mm ms : Z) : PySMatchCat :=
  mkCat mm ms (cat self) (hpix self) (tree self) (nmatches self).

(** A C loop whose body may [goto bail] with status 0: the state is kept as
    the failing turn left it. *)
Fixpoint for_each {A S : Type} (body : S -> A -> bool * S) (l : list A) (s : S)
  : bool * S :=
  match l with
  | [] => (true, s)
  | a :: l' =>
      let '(status, s') := body s a in
      if status then for_each body l' s' else (false, s')
  end.

(** The same loop entered with [status] and not followed by [status = 1]:
    what it was entered with comes out when the body never runs. *)
Definition for_each_from {A S : Type} (status : bool) (body : S -> A -> bool * S)
           (l : list A) (s : S) : bool * S :=
  match l with
  | [] => (status, s)
  | _ :: _ => for_each body l s
  end.

(** [*(double* )PyArray_GETPTR1(obj, i)] *)
Definition PyArray_GETPTR1 (obj : list float) (i : nat) : float := nth i obj 0%float.

(** [pt->x*x + pt->y*y + pt->z*z] *)
Definition dot (pt : Point) (x1 y1 z1 : float) : float :=
  (x pt * x1 + y pt * y1 + z pt * z1)%float.

(** ** Text of a match file: the C library's conversions *)

(** A text file is the list of its bytes. *)
Abbreviation text := (list ascii).

Definition txt (s : string) : text := list_ascii_of_string s.

Definition newline : ascii := "010"%char.

Definition digit_char (d : Z) : ascii := ascii_of_nat (48 + Z.to_nat d).

(** The [width] low decimal digits of [n], most significant first. *)
Fixpoint fixed_digits (width : nat) (n : Z) : text :=
  match width with
  | O => []
  | S w => fixed_digits w (n / 10) ++ [digit_char (n mod 10)]
  end.

(** The decimal digits of [n >= 0] without leading zeros ("0" for 0). *)
Fixpoint decimal_fuel (fuel : nat) (n : Z) : text :=
  match fuel with
  | O => []
  | S f => (if n <? 10 then [] else decimal_fuel f (n / 10)) ++ [digit_char (n mod 10)]
  end.

Definition decimal (n : Z) : text := decimal_fuel (S (Z.to_nat (Z.log2 n))) n.

(** [%ld] *)
Definition format_ld (n : Z) : text :=
  if n <? 0 then "-"%char :: decimal (- n) else decimal n.

(** [num/den * 10^k] as a fraction. *)
Definition scale10 (num den k : Z) : Z * Z :=
  if 0 <=? k then (num * 10 ^ k, den) else (num, den * 10 ^ (- k)).

(** The decimal exponent [X] of [num/den > 0]: [10^X <= num/den < 10^(X+1)]. *)
Definition floor_log10 (num den : Z) : Z :=
  let c := Z.of_nat (length (decimal num)) - Z.of_nat (length (decimal den)) in
  let '(n1, d1) := scale10 num den (- c) in
  if d1 <=? n1 then c else c - 1.

Definition round_half_even (num den : Z) : Z :=
  let q := num / den in
  let r := num mod den in
  match 2 * r ?= den with
  | Lt => q
  | Gt => q + 1
  | Eq => if Z.even q then q else q + 1
  end.

(** [num/den > 0] rounded to [P] significant digits: the integer [D] of
    exactly [P] digits and the exponent [X] of its first digit. *)
Definition round_sig (P : Z) (num den : Z) : Z * Z :=
  let X0 := floor_log10 num den in
  let '(n1, d1) := scale10 num den (P - 1 - X0) in
  let D := round_half_even n1 d1 in
  if D =? 10 ^ P then (10 ^ (P - 1), X0 + 1) else (D, X0).

Definition is_zero_char (c : ascii) : bool := Ascii.eqb c "0"%char.

(** Trailing zeros removed. *)
Fixpoint strip0 (ds : text) : text :=
  match ds with
  | [] => []
  | d :: r =>
      match strip0 r with
      | [] => if is_zero_char d then [] else [d]
      | r' => d :: r'
      end
  end.

(** The fractional part after its zeros were removed, with its point. *)
Definition fraction (ds : text) : text :=
  match strip0 ds with
  | [] => []
  | f => "."%char :: f
  end.

(** The exponent of the [e] style: a sign and at least two digits. *)
Definition exponent (X : Z) : text :=
  (if X <? 0 then "-"%char else "+"%char)
    :: (if Z.abs X <? 10 then "0"%char :: decimal (Z.abs X) else decimal (Z.abs X)).

(** [%.Pg] of the positive value [num/den] (ISO C 7.21.6.1: style [e] when
    the exponent [X] of the rounded value is below -4 or at least [P], style
    [f] with [P-1-X] decimals otherwise; then trailing zeros, and a point
    left bare, are removed). *)
Definition format_g_pos (P : nat) (num den : Z) : text :=
  let '(D, X) := round_sig (Z.of_nat P) num den in
  let ds := fixed_digits P D in
  if (X <? -4) || (Z.of_nat P <=? X) then
    firstn 1 ds ++ fraction (skipn 1 ds) ++ "e"%char :: exponent X
  else if X <? 0 then
    "0"%char :: fraction (repeat "0"%char (Z.to_nat (- X - 1)) ++ ds)
  else
    firstn (Z.to_nat (X + 1)) ds ++ fraction (skipn (Z.to_nat (X + 1)) ds).

Definition sign_text (s : bool) : text := if s then ["-"%char] else [].

(** [%.Pg] of a double.  (A NaN prints as "nan" or "-nan"; the sign of a NaN
    is not part of this model.) *)
Definition format_g (P : nat) (f : float) : text :=
  match Prim2SF f with
  | S754_nan => txt "nan"
  | S754_infinity s => sign_text s ++ txt "inf"
  | S754_zero s => sign_text s ++ txt "0"
  | S754_finite s m e =>
      sign_text s ++
      (if 0 <=? e then format_g_pos P (Zpos m * 2 ^ e) 1
       else format_g_pos P (Zpos m) (2 ^ (- e)))
  end.

(** The line [fprintf(fobj, "%ld %ld %.16g\n", cat_ind, input_ind, cosdist)]
    writes.  [input_ind] is a [size_t] read through [%ld]. *)
Definition match_line (cat_ind input_ind : Z) (cosdist : float) : text :=
  format_ld cat_ind ++ " "%char :: format_ld input_ind ++ " "%char
            :: format_g 16 cosdist ++ [newline].

(** [fprintf] on a stream open for writing: the bytes are appended and their
    number is returned. *)
Definition fprintf_match (fobj : text) (cat_ind input_ind : Z) (cosdist : float)
  : Z * text :=
  let line := match_line cat_ind input_ind cosdist in
  (Z.of_nat (length line), fobj ++ line).

(** *** Reading: [fscanf] and [fgetc] *)

Definition isspace (c : ascii) : bool :=
  let n := nat_of_ascii c in
  (n =? 32)%nat || ((9 <=? n)%nat && (n <=? 13)%nat).

Definition isdigit (c : ascii) : bool :=
  let n := nat_of_ascii c in
  (48 <=? n)%nat && (n <=? 57)%nat.

Fixpoint skip_space (s : text) : text :=
  match s with
  | c :: r => if isspace c then skip_space r else s
  | [] => []
  end.

(** The longest prefix of digits, and the rest. *)
Fixpoint span_digits (s : text) : text * text :=
  match s with
  | c :: r =>
      if isdigit c then let '(ds, rest) := span_digits r in (c :: ds, rest)
      else ([], s)
  | [] => ([], [])
  end.

Definition digits_value (ds : text) : Z :=
  fold_left (fun a c => 10 * a + (Z.of_nat (nat_of_ascii c) - 48)) ds 0.

Definition scan_sign (s : text) : bool * text :=
  match s with
  | c :: r =>
      if Ascii.eqb c "-"%char then (true, r)
      else if Ascii.eqb c "+"%char then (false, r)
      else (false, s)
  | [] => (false, s)
  end.

(** A [long] out of range is stored as the nearest bound, as [strtol] does. *)
Definition clamp64 (n : Z) : Z := Z.max (- 2 ^ 63) (Z.min (2 ^ 63 - 1) n).

(** [%ld]: white space, an optional sign, one digit at least. *)
Definition scan_ld (s : text) : option (Z * text) :=
  let '(neg, s1) := scan_sign (skip_space s) in
  let '(ds, rest) := span_digits s1 in
  match ds with
  | [] => None
  | _ => Some (clamp64 (if neg then - digits_value ds else digits_value ds), rest)
  end.

(** The double nearest to [(-1)^neg * D * 10^E], ties to even. *)
Definition strtod_value (neg : bool) (D E : Z) : float :=
  if D =? 0 then SF2Prim (S754_zero neg)
  else
    let '(num, den) := scale10 D 1 E in
    let '(mz, ez, lz) := SFdiv_core_binary prec emax num 0 den 0 in
    SF2Prim (binary_round_aux prec emax neg mz ez lz).

(** The exponent part, when a complete one follows: [e], an optional sign,
    one digit at least. *)
Definition scan_exponent (s : text) : Z * text :=
  match s with
  | c :: r =>
      if Ascii.eqb c "e"%char || Ascii.eqb c "E"%char then
        let '(neg, r1) := scan_sign r in
        let '(ds, r2) := span_digits r1 in
        match ds with
        | [] => (0, s)
        | _ => (if neg then - digits_value ds else digits_value ds, r2)
        end
      else (0, s)
  | [] => (0, s)
  end.

Fixpoint starts_with (p s : text) : bool :=
  match p, s with
  | [], _ => true
  | a :: p', b :: s' => Ascii.eqb a b && starts_with p' s'
  | _ :: _, [] => false
  end.

(** The digits of the mantissa: an integer part, then a fraction when a
    point follows. *)
Definition scan_mantissa (s : text) : text * text * text :=
  let '(ip, s2) := span_digits s in
  match s2 with
  | c :: r =>
      if Ascii.eqb c "."%char
      then let '(fp, s3) := span_digits r in (ip, fp, s3)
      else (ip, [], s2)
  | [] => (ip, [], s2)
  end.

(** [%lf]: white space, an optional sign, then "inf", "nan", or decimal
    digits with an optional point and exponent, converted as [strtod] does.
    (Hexadecimal and upper-case spellings, which [fprintf] never writes for
    [%g], are not part of this model.) *)
Definition scan_lf (s : text) : option (float * text) :=
  let '(neg, s1) := scan_sign (skip_space s) in
  if starts_with (txt "inf") s1 then Some (SF2Prim (S754_infinity neg), skipn 3 s1)
  else if starts_with (txt "nan") s1 then Some (SF2Prim S754_nan, skipn 3 s1)
  else
    let '(ip, fp, s3) := scan_mantissa s1 in
    match ip ++ fp with
    | [] => None
    | ds =>
        let '(ex, s4) := scan_exponent s3 in
        Some (strtod_value neg (digits_value ds) (ex - Z.of_nat (length fp)), s4)
    end.

(** [fscanf(fobj, "%ld %ld %lf\n", &m->cat_ind, &m->input_ind, &m->cosdist)]:
    the number of fields assigned (EOF = -1 when the stream ends before the
    first), the record as the call leaves it, and the unread rest.  White
    space in the format matches any run of white space. *)
Definition fscanf_match (fobj : text) (m : Match) : Z * Match * text :=
  match scan_ld fobj with
  | None => ((match skip_space fobj with [] => -1 | _ => 0 end), m, fobj)
  | Some (c, s1) =>
      let m1 := mkMatch c (input_ind m) (cosdist m) in
      match scan_ld (skip_space s1) with
      | None => (1, m1, s1)
      | Some (i, s2) =>
          let m2 := mkMatch c i (cosdist m) in
          match scan_lf (skip_space s2) with
          | None => (2, m2, s2)
          | Some (d, s3) => (3, mkMatch c i d, skip_space s3)
          end
      end
  end.

(** The loop of [PySMatchCat_load_matches] over the slots of the output
    array: [None] is the IOError. *)
Fixpoint load_matches_loop (fobj : text) (matchesObj : list Match)
  : option (list Match) :=
  match matchesObj with
  | [] => Some []
  | m :: rest =>
      let '(nread, m', fobj') := fscanf_match fobj m in
      if nread =? 3
      then match load_matches_loop fobj' rest with
           | Some out => Some (m' :: out)
           | None => None
           end
      else None
  end.

(** [file] is the content of the file named; the result is the output array
    after the call. *)
Definition PySMatchCat_load_matches (file : text) (matchesObj : list Match)
  : option (list Match) :=
  if Z.of_nat (length matchesObj) <=? 0 then Some matchesObj
  else load_matches_loop file matchesObj.

(** A stream open for reading. *)
Record FILE := mkFILE {
  bytes : text;
  pos : nat;
  eof : bool
}.

Definition fopen_r (file : text) : FILE := mkFILE file 0 false.

Definition EOF : Z := -1.

(** The next byte as an [unsigned char] widened to [int]; at the end, [EOF]
    and the end-of-file indicator is set. *)
Definition fgetc (fobj : FILE) : Z * FILE :=
  match nth_error (bytes fobj) (pos fobj) with
  | Some c => (Z.of_nat (nat_of_ascii c), mkFILE (bytes fobj) (S (pos fobj)) (eof fobj))
  | None => (EOF, mkFILE (bytes fobj) (pos fobj) true)
  end.

Definition feof (fobj : FILE) : bool := eof fobj.

(** [char ch = (int value)] with a signed 8-bit [char] (an unsigned one
    compares with ['\n'] in the same way). *)
Definition to_char (v : Z) : Z := (v + 128) mod 256 - 128.

(** [while (!feof(fobj)) { ch = fgetc(fobj); if (ch == '\n') nlines++; }];
    [None] when the fuel runs out before the loop ends. *)
Fixpoint count_lines_loop (fuel : nat) (fobj : FILE) (nlines : Z) : option Z :=
  match fuel with
  | O => None
  | S fuel' =>
      if feof fobj then Some nlines
      else
        let '(c, fobj') := fgetc fobj in
        let ch := to_char c in
        count_lines_loop fuel' fobj' (if ch =? 10 then wrap64 (nlines + 1) else nlines)
  end.

Definition count_lines (fobj : FILE) : option Z :=
  count_lines_loop (length (bytes fobj) - pos fobj + 2) fobj 0.

Definition PySMatchCat_count_lines (file : text) : option Z :=
  count_lines (fopen_r file).

(** [size_t] arithmetic wraps. *)
Definition wrapu64 (n : Z) : Z := n mod 2 ^ 64.

Section Matcher.

(** healpix.h is not among the sources; its two conversions are taken as
    they are called: each yields its outputs, or status 0. *)
Variable hpix_eq2xyz : float -> float -> option (float * float * float).
Variable hpix_eq2pix : healpix -> float -> float -> option Z.

(** [create_hpix_tree], called by [domatch] with [*status == 0]:
    [hpix_eq2pix] sets the status at every point, and the tree is deleted
    when the status ends at 0, which it also does when there is no point. *)
Definition create_hpix_tree (hp : healpix) (raObj decObj : list float)
  : option tree_node :=
  let half_npix := npix hp ÷ 2 in
  let '(status, tree) :=
    for_each_from false
      (fun tree i =>
         match hpix_eq2pix hp (PyArray_GETPTR1 raObj i) (PyArray_GETPTR1 decObj i) with
         | None => (false, tree)
         | Some hpixid => (true, tree_insert tree (hpixid - half_npix) (Z.of_nat i))
         end)
      (seq 0 (length raObj)) NULL in
  if status then Some tree else None.

(** The block of [domatch1] guarded by [cos_angle > pt->cos_radius]. *)
Definition domatch1_within (self : PySMatchCat) (cat_ind : nat) (m : Match)
  : PySMatchCat :=
  let matches := matches (entry_at self cat_ind) in
  if (maxmatch self <=? 0) || (Z.of_nat (length matches) <? maxmatch self) then
    let self := set_nmatches self (wrap64 (nmatches self + 1)) in
    let matches := vector_push matches m in
    if (1 <? maxmatch self) && (Z.of_nat (length matches) =? maxmatch self)
    then set_matches self cat_ind (match_build_heap matches)
    else set_matches self cat_ind matches
  else
    set_matches self cat_ind (match_heap_insert matches m).

(** One turn of the loop over [node->indices].  ([cat_ind] is below the
    size of the catalog, which fits an [int64_t].) *)
Definition domatch1_index (cat_ind : nat) (raObj decObj : list float)
           (self : PySMatchCat) (input_ind : Z) : bool * PySMatchCat :=
  let ra := PyArray_GETPTR1 raObj (Z.to_nat input_ind) in
  let dec := PyArray_GETPTR1 decObj (Z.to_nat input_ind) in
  match hpix_eq2xyz ra dec with
  | None => (false, self)
  | Some (x1, y1, z1) =>
      let pt := point (entry_at self cat_ind) in
      let cos_angle := dot pt x1 y1 z1 in
      if dgt cos_angle (cos_radius pt)
      then (true, domatch1_within self cat_ind
                    (mkMatch (Z.of_nat cat_ind) input_ind cos_angle))
      else (true, self)
  end.

(** One turn of the loop over [entry->disc_pixels]. *)
Definition domatch1_pixel (tree : tree_node) (cat_ind : nat)
           (raObj decObj : list float)
           (self : PySMatchCat) (hpixid : Z) : bool * PySMatchCat :=
  let half_npix := npix (hpix self) ÷ 2 in
  match tree_find tree (hpixid - half_npix) with
  | Some indices => for_each (domatch1_index cat_ind raObj decObj) indices self
  | None => (true, self)
  end.

Definition domatch1 (self : PySMatchCat) (tree : tree_node) (cat_ind : nat)
           (raObj decObj : list float) : bool * PySMatchCat :=
  for_each (domatch1_pixel tree cat_ind raObj decObj)
           (disc_pixels (entry_at self cat_ind)) self.

Definition domatch (self : PySMatchCat) (raObj decObj : list float)
  : bool * PySMatchCat :=
  match create_hpix_tree (hpix self) raObj decObj with
  | None => (false, self)
  | Some tree =>
      let self := set_nmatches self 0 in
      for_each (fun s i => domatch1 s tree i raObj decObj)
               (seq 0 (length (cat self))) self
  end.

Definition match_prep (self : PySMatchCat) : PySMatchCat :=
  fold_left
    (fun s i =>
       if maxmatch s <=? 0
       then set_matches s i []   (* vector_clear, or vector_resize(.., 0) *)
       else set_matches s i [])  (* vector_realloc(.., maxmatch); vector_resize(.., 0) *)
    (seq 0 (length (cat self))) self.

Definition PySMatchCat_match (self : PySMatchCat) (mm ms : Z)
           (raObj decObj : list float) : bool * PySMatchCat :=
  let self := set_args self mm ms in
  let self := match_prep self in
  domatch self raObj decObj.


(** One turn of the loop of [domatch1_2file] over [node->indices]; the state
    is the stream and [*match_incr].  [int64_t cat_ind] receives the element
    [ci] of the node, and [input_ind] is cast to [int64_t]. *)
Definition domatch1_2file_index (self : PySMatchCat) (input_ind : nat)
           (x1 y1 z1 : float) (st : text * Z) (ci : Z) : bool * (text * Z) :=
  let '(fobj, match_incr) := st in
  let cat_ind := wrap64 ci in
  if negb (matching_self self =? 0) && (cat_ind =? wrap64 (Z.of_nat input_ind))
  then (true, st)
  else
    let pt := point (entry_at self (Z.to_nat cat_ind)) in
    let cos_angle := dot pt x1 y1 z1 in
    if dgt cos_angle (cos_radius pt) then
      let match_incr := wrapu64 (match_incr + 1) in
      let '(nret, fobj) :=
        fprintf_match fobj cat_ind (wrap64 (Z.of_nat input_ind)) cos_angle in
      if nret =? 0 then (false, (fobj, match_incr)) else (true, (fobj, match_incr))
    else (true, st).

Definition domatch1_2file (self : PySMatchCat) (ra dec : float) (input_ind : nat)
           (fobj : text) : bool * (text * Z) :=
  let half_npix := npix (hpix self) ÷ 2 in
  match hpix_eq2pix (hpix self) ra dec with
  | None => (false, (fobj, 0))
  | Some hpixid =>
      match tree_find (tree self) (hpixid - half_npix) with
      | None => (true, (fobj, 0))
      | Some indices =>
          match hpix_eq2xyz ra dec with
          | None => (false, (fobj, 0))
          | Some (x1, y1, z1) =>
              for_each (domatch1_2file_index self input_ind x1 y1 z1) indices (fobj, 0)
          end
      end
  end.

(** [domatch2file_all] starts with [status = 0] and returns the status of
    the last secondary point. *)
Definition domatch2file_all (self : PySMatchCat) (raObj decObj : list float)
           (fobj : text) : bool * (PySMatchCat * text) :=
  for_each_from false
    (fun (st : PySMatchCat * text) i =>
       let '(self, fobj) := st in
       let '(status, (fobj, match_incr)) :=
         domatch1_2file self (PyArray_GETPTR1 raObj i) (PyArray_GETPTR1 decObj i) i fobj in
       if status
       then (true, (set_nmatches self (wrap64 (nmatches self + match_incr)), fobj))
       else (false, (self, fobj)))
    (seq 0 (length raObj)) (self, fobj).

Definition write_matches (self : PySMatchCat) (fobj : text) : bool * text :=
  for_each
    (fun fobj (e : CatalogEntry) =>
       for_each
         (fun fobj (m : Match) =>
            let '(nret, fobj) := fprintf_match fobj (cat_ind m) (input_ind m) (cosdist m) in
            if nret =? 0 then (false, fobj) else (true, fobj))
         (matches e) fobj)
    (cat self) fobj.

(** [fopen(filename, "w")]: NULL, or an empty stream. *)
Definition fopen_w (opened : bool) : option text :=
  if opened then Some [] else None.

(** [fobj] is what [fopen(filename, "w")] returned.  The result carries the
    content of the file. *)
Definition domatch2file (self : PySMatchCat) (raObj decObj : list float)
           (fobj : option text) : bool * (PySMatchCat * text) :=
  match fobj with
  | None => (false, (self, []))
  | Some fobj =>
      if maxmatch self <=? 0 then domatch2file_all self raObj decObj fobj
      else
        let self := match_prep self in
        let '(status, self) := domatch self raObj decObj in
        if status then
          let '(status, fobj) := write_matches self fobj in
          (status, (self, fobj))
        else (false, (self, fobj))
  end.

Definition PySMatchCat_match2file (self : PySMatchCat) (mm ms : Z)
           (raObj decObj : list float) (fobj : option text)
  : bool * (PySMatchCat * text) :=
  domatch2file (set_args self mm ms) raObj decObj fobj.

End Matcher.

(** [PySMatchCat_init] leaves [self->tree] NULL and clears nothing else that
    the matcher reads; [catalog_init] fills the catalog. *)
Definition PySMatchCat_init (hp : healpix) (c : Catalog) : PySMatchCat :=
  mkCat 0 0 c hp NULL 0.

(** ** Vocabulary of the properties *)

(** A match lies strictly inside the cap of the entry. *)
Definition within_cap (e : CatalogEntry) (m : Match) : Prop :=
  dgt (cosdist m) (cos_radius (point e)) = true.

Definition sizes_at_most (mm : Z) (c : Catalog) : Prop :=
  Forall (fun e => Z.of_nat (length (matches e)) <= mm) c.

(** Every match of buffer [i] names entry [i] and lies in its cap. *)
Definition all_valid (c : Catalog) : Prop :=
  forall i e, c !! i = Some e ->
    Forall (fun m => cat_ind m = Z.of_nat i /\ within_cap e m) (matches e).

(** The double a reader recovers from the text of one. *)
Definition strtod (t : text) : float :=
  match scan_lf t with
  | Some (d, _) => d
  | None => SF2Prim S754_nan
  end.

Definition int64 (n : Z) : Prop := - 2 ^ 63 <= n < 2 ^ 63.

(** What a match owes to be written by the streaming path of [self]. *)
Definition hit (self : PySMatchCat) (m : Match) : Prop :=
  within_cap (entry_at self (Z.to_nat (cat_ind m))) m
  /\ int64 (cat_ind m) /\ int64 (input_ind m).

(** A match as [load_matches] recovers it from its line. *)
Definition reread (m : Match) : Match :=
  mkMatch (cat_ind m) (input_ind m) (strtod (format_g 16 (cosdist m))).

(** The text of a sequence of matches, one line each. *)
Definition lines (ms : list Match) : text :=
  concat (map (fun m => match_line (cat_ind m) (input_ind m) (cosdist m)) ms).

Definition count_byte (b : ascii) (t : text) : nat :=
  length (filter (fun c => Ascii.eqb c b = true) t).

Definition count_newlines (file : text) : nat := count_byte newline file.

(** A text without white space. *)
Definition solid (t : text) : Prop := Forall (fun c => isspace c = false) t.

(** The significant digits of the text of a real: the digits before the
    exponent, leading zeros apart. *)
Fixpoint mantissa (t : text) : text :=
  match t with
  | [] => []
  | c :: r => if Ascii.eqb c "e"%char then [] else c :: mantissa r
  end.

Fixpoint drop_zeros (t : text) : text :=
  match t with
  | c :: r => if is_zero_char c then drop_zeros r else t
  | [] => []
  end.

Definition significant_digits (t : text) : nat :=
  length (drop_zeros (List.filter isdigit (mantissa t))).

(** The shape of the decimal text of a real: digits, then maybe a point and
    digits, then maybe an exponent with its sign. *)
Definition digits (t : text) : Prop := Forall (fun c => isdigit c = true) t.

Definition is_fraction (t : text) : Prop :=
  t = [] \/ exists fp, t = "."%char :: fp /\ fp <> [] /\ digits fp.

Definition is_exponent (t : text) : Prop :=
  t = [] \/
  exists sgn ed, t = "e"%char :: sgn :: ed
                 /\ (sgn = "+"%char \/ sgn = "-"%char) /\ ed <> [] /\ digits ed.

Definition is_decimal_real (P : nat) (t : text) : Prop :=
  exists ip fr ex, t = ip ++ fr ++ ex
                   /\ ip <> [] /\ digits ip /\ is_fraction fr /\ is_exponent ex
                   /\ (length (drop_zeros (ip ++ skipn 1 fr)) <= P)%nat.

(** A rest of the input at which a number ends: nothing, or a byte that
    cannot continue one. *)
Definition stops (rest : text) : Prop :=
  match rest with
  | [] => True
  | c :: _ => isdigit c = false /\ c <> "."%char /\ c <> "e"%char /\ c <> "E"%char
  end.

(** The secondary indices that [domatch1] visits for an entry, in order:
    those of the nodes found for its disc pixels. *)
Definition visited (tree : tree_node) (half_npix : Z) (pixels : list Z) : list Z :=
  concat (map (fun hpixid => default [] (tree_find tree (hpixid - half_npix))) pixels).

(** The sum of the buffer sizes over the catalog. *)
Definition total_size (c : Catalog) : Z :=
  fold_right (fun e n => Z.of_nat (length (matches e)) + n) 0 c.

(** What a match call never touches in an entry, and in the engine. *)
Definition frame (e : CatalogEntry) : Point * list Z := (point e, disc_pixels e).

Definition same_frame (s s' : PySMatchCat) : Prop :=
  maxmatch s' = maxmatch s /\ matching_self s' = matching_self s /\
  hpix s' = hpix s /\ tree s' = tree s /\
  map frame (cat s') = map frame (cat s).

(** An entry with its buffer emptied. *)
Definition clear_entry (e : CatalogEntry) : CatalogEntry :=
  mkEntry (point e) (disc_pixels e) [].

(** ** A one-pixel sky for worked examples

    The theorems hold for whatever healpix.h computes.  The worked examples
    run the code on one choice of it: a grid of a single pixel, in which
    [(ra, dec)] are read as the first two direction cosines of a point of
    the great circle [z = 0]. *)
Definition flat_eq2pix (hp : healpix) (ra dec : float) : option Z := Some 0.

Definition flat_eq2xyz (ra dec : float) : option (float * float * float) :=
  Some (ra, dec, 0%float).

Definition flat_hpix : healpix := mkHealpix 1 12.

(** The second cosine of the point of that circle whose first is [x1]. *)
Definition on_circle (x1 : float) : float := PrimFloat.sqrt (1 - x1 * x1).

(** One primary at direction (1,0,0) with a radius of 90 degrees,
    [cos_radius = 0]: the cosdist of a secondary point is its first cosine.
    The grid shifts its single pixel 0 to the key -6. *)
Definition flat_entry : CatalogEntry :=
  mkEntry (mkPoint 1 0 0 0x1.921fb54442d18p+0 0) [0] [].

Definition flat_cat : PySMatchCat := PySMatchCat_init flat_hpix [flat_entry].

(** Three secondary points at cosdist 0.5, 0.75 and 0.875 from the primary. *)
Definition flat_ra : list float := [0.5; 0.75; 0.875]%float.
Definition flat_dec : list float := map on_circle flat_ra.

(** The tree of these three points. *)
Definition flat_tree : tree_node :=
  tree_insert (tree_insert (tree_insert NULL (-6) 0) (-6) 1) (-6) 2.

(** A double that needs 17 significant digits: 0.30000000000000004. *)
Definition lossy : float := 0x1.3333333333334p-2%float.

(** The engine after [match(maxmatch=2)] on them. *)
Definition flat_matched : PySMatchCat :=
  Eval vm_compute in
    (PySMatchCat_match flat_eq2xyz flat_eq2pix flat_cat 2 0 flat_ra flat_dec).2.

(** ** The rest of the module: construction and delivery *)

(** [memmove(&matches[mindex], tmatches->data, nmatch*sizeof(Match))] on the
    output array.  (A slot past the end of the array is not written in this
    model; in C the write is undefined.) *)
Fixpoint memmove_matches (dst : list Match) (mindex : nat) (src : match_vector)
  : list Match :=
  match src with
  | [] => dst
  | m :: src' => memmove_matches (<[mindex := m]> dst) (S mindex) src'
  end.

(** One turn of the loop of [PySMatchCat_copy_matches]; the state is the
    engine, the output array and [mindex]. *)
Definition copy_matches_entry (st : PySMatchCat * list Match * nat) (i : nat)
  : PySMatchCat * list Match * nat :=
  let '(self, out, mindex) := st in
  let tmatches := matches (entry_at self i) in
  let nmatch := length tmatches in
  let '(out, mindex) :=
    if (0 <? nmatch)%nat
    then (memmove_matches out mindex tmatches, (mindex + nmatch)%nat)
    else (out, mindex) in
  (* vector_clear, or vector_resize(.., 0) *)
  (set_matches self i [], out, mindex).

(** [PySMatchCat_copy_matches]: the engine and the array after the call. *)
Definition PySMatchCat_copy_matches (self : PySMatchCat) (matchesObj : list Match)
  : PySMatchCat * list Match :=
  let '(self, out, _) :=
    fold_left copy_matches_entry (seq 0 (length (cat self))) (self, matchesObj, 0%nat) in
  (self, out).

Section Construction.

(** healpix.h, defs.h, cat.h and the C library are not among the sources:
    the conversion, the constructor of the grid, the constant [D2R] and [cos]
    are taken as they are used, [hpix_disc_intersect] as yielding the list
    that it leaves in [entry->disc_pixels], and [cat_free] as leaving the
    pointer NULL, which the comment at its call says. *)
Variable hpix_eq2xyz : float -> float -> option (float * float * float).
Variable hpix_disc_intersect : healpix -> float -> float -> float -> float -> list Z.
Variable hpix_new : Z -> option healpix.
Variable D2R : float.
Variable cos : float -> float.

(** [cat_new(n)]: [n] entries, each with a new, empty match vector. *)
Definition cat_new (n : nat) : Catalog := repeat entry0 n.

(** One turn of the loop of [catalog_init]. *)
Definition catalog_init_entry (raObj decObj radObj : list float) (hp : healpix)
           (cat : Catalog) (i : nat) : bool * Catalog :=
  match hpix_eq2xyz (PyArray_GETPTR1 raObj i) (PyArray_GETPTR1 decObj i) with
  | None => (false, cat)
  | Some (x1, y1, z1) =>
      let radius := (PyArray_GETPTR1 radObj i * D2R)%float in
      let pt := mkPoint x1 y1 z1 radius (cos radius) in
      (true, <[i := mkEntry pt (hpix_disc_intersect hp x1 y1 z1 radius)
                            (matches (nth i cat entry0))]> cat)
  end.

(** [catalog_init]: [None] is the NULL it returns with an error set, or after
    it freed the catalog. *)
Definition catalog_init (raObj decObj radObj : list float) (hp : healpix)
  : option Catalog :=
  let n := length raObj in
  if Z.of_nat n <=? 0 then None
  else if negb (Z.of_nat (length radObj) =? Z.of_nat n) then None
  else
    let '(status, cat) :=
      for_each (catalog_init_entry raObj decObj radObj hp) (seq 0 n) (cat_new n) in
    if status then Some cat else None.

(** The body of [PySMatchCat_init] from its parsed arguments: [None] is the
    return value -1. *)
Definition PySMatchCat_tp_init (nside : Z) (raObj decObj radObj : list float)
  : option PySMatchCat :=
  match hpix_new nside with
  | None => None
  | Some hp =>
      match catalog_init raObj decObj radObj hp with
      | None => None
      | Some cat => Some (PySMatchCat_init hp cat)
      end
  end.

End Construction.

(** [PySMatchCat_repr]: the bytes that [sprintf] puts in [char repr[256]],
    the closing NUL apart. *)
Definition PySMatchCat_repr (self : PySMatchCat) : text :=
  txt "Catalog" ++ newline :: txt "    hpix nside: " ++ format_ld (nside (hpix self)).

(** ** Vocabulary of the further properties *)

(** What the block of [domatch1] guarded by [cos_angle > pt->cos_radius]
    does to the buffer it is given. *)
Definition accumulate (mm : Z) (v : match_vector) (m : Match) : match_vector :=
  if (mm <=? 0) || (Z.of_nat (length v) <? mm) then
    let v := vector_push v m in
    if (1 <? mm) && (Z.of_nat (length v) =? mm) then match_build_heap v else v
  else match_heap_insert v m.

(** The matches that the secondary indices [js], visited in this order, give
    to the entry [cat_ind] of point [pt]: those that pass the test. *)
Definition offered (hpix_eq2xyz : float -> float -> option (float * float * float))
           (pt : Point) (cat_ind : nat) (raObj decObj : list float) (js : list Z)
  : list Match :=
  flat_map
    (fun j =>
       match hpix_eq2xyz (PyArray_GETPTR1 raObj (Z.to_nat j))
                         (PyArray_GETPTR1 decObj (Z.to_nat j)) with
       | Some (x1, y1, z1) =>
           if dgt (dot pt x1 y1 z1) (cos_radius pt)
           then [mkMatch (Z.of_nat cat_ind) j (dot pt x1 y1 z1)]
           else []
       | None => []
       end)
    js.

(** The entry of index [i] as a successful match call leaves it: its
    candidates, in the order of its disc pixels and of the indices in their
    nodes, offered one by one to an empty buffer. *)
Definition matched (hpix_eq2xyz : float -> float -> option (float * float * float))
           (mm : Z) (tree : tree_node) (half_npix : Z) (raObj decObj : list float)
           (i : nat) (e : CatalogEntry) : CatalogEntry :=
  mkEntry (point e) (disc_pixels e)
    (fold_left (accumulate mm)
       (offered hpix_eq2xyz (point e) i raObj decObj
          (visited tree half_npix (disc_pixels e)))
       []).

(** The secondary indices whose pixel has the key [k], in increasing order. *)
Definition in_pixel (hpix_eq2pix : healpix -> float -> float -> option Z)
           (hp : healpix) (raObj decObj : list float) (k : Z) : list Z :=
  map Z.of_nat
    (List.filter
       (fun n =>
          match hpix_eq2pix hp (PyArray_GETPTR1 raObj n) (PyArray_GETPTR1 decObj n) with
          | Some hpixid => hpixid - npix hp ÷ 2 =? k
          | None => false
          end)
       (seq 0 (length raObj))).

(** Two engines that agree on all that [domatch] reads. *)
Definition alike (s1 s2 : PySMatchCat) : Prop :=
  maxmatch s1 = maxmatch s2 /\ cat s1 = cat s2 /\ hpix s1 = hpix s2
  /\ nmatches s1 = nmatches s2.

(** * Properties *)

(** ** The heap operations keep the size and move slots around *)

Lemma length_build_heap_up fuel (data : match_vector) c :
  length (build_heap_up fuel data c) = length data.
Proof.
  revert data c; induction fuel as [|fuel IH]; intros data c; cbn [build_heap_up]; [done|].
  destruct (dlt _ _); destruct (Nat.eqb _ _);
    rewrite ?IH, ?length_insert; done.
Qed.

Lemma length_match_build_heap (self : match_vector) :
  length (match_build_heap self) = length self.
Proof.
  unfold match_build_heap. destruct (length self <=? 1)%nat; [done|].
  generalize (seq 1 (length self - 2)). intros l.
  revert self; induction l as [|i l IH]; intros self; simpl; [done|].
  rewrite IH. apply length_build_heap_up.
Qed.

Lemma length_heap_fix_loop fuel (data : match_vector) n jhi jlo :
  length (heap_fix_loop fuel data n jhi jlo).1 = length data.
Proof.
  revert data jhi jlo; induction fuel as [|fuel IH]; intros data jhi jlo; cbn [heap_fix_loop]; [done|].
  destruct (jlo <=? n)%nat; [|done].
  destruct (dle _ _); [done|].
  rewrite IH, length_insert. done.
Qed.

Lemma length_match_heap_fix (self : match_vector) :
  length (match_heap_fix self) = length self.
Proof.
  unfold match_heap_fix.
  pose proof (length_heap_fix_loop (length self) self (length self - 1) 0 1) as H.
  destruct (heap_fix_loop _ _ _ _ _) as [data jhi]. simpl in H.
  rewrite length_insert. done.
Qed.

Lemma length_match_heap_insert (self : match_vector) m :
  length (match_heap_insert self m) = length self.
Proof.
  unfold match_heap_insert. destruct (dgt _ _); [|done].
  destruct (1 <? _)%nat; rewrite ?length_match_heap_fix, length_insert; done.
Qed.

Section Slots.

Variable P : Match -> Prop.

Lemma Forall_vector_get (data : match_vector) i :
  Forall P data -> (i < length data)%nat -> P (vector_get data i).
Proof.
  intros H Hi. unfold vector_get.
  rewrite Forall_forall in H. apply H, list_elem_of_In, nth_In, Hi.
Qed.

Lemma Forall_copy_slot (data : match_vector) i j :
  Forall P data -> (j < length data)%nat ->
  Forall P (<[i := vector_get data j]> data).
Proof. intros H Hj. apply Forall_insert; auto using Forall_vector_get. Qed.

Lemma Forall_build_heap_up fuel (data : match_vector) c :
  (c < length data)%nat -> Forall P data -> Forall P (build_heap_up fuel data c).
Proof.
  revert data c; induction fuel as [|fuel IH]; intros data c Hc H; cbn [build_heap_up]; [done|].
  assert (Hp : ((c - 1) / 2 < length data)%nat).
  { eapply Nat.le_lt_trans; [|exact Hc].
    etrans; [apply Nat.Div0.div_le_upper_bound with (q := (c - 1)%nat); lia | lia]. }
  assert (H' : Forall P
            (if dlt (cosdist (vector_get data ((c - 1) / 2)))
                    (cosdist (vector_get data c))
             then <[c := vector_get data ((c - 1) / 2)]>
                    (<[((c - 1) / 2)%nat := vector_get data c]> data)
             else data)).
  { destruct (dlt _ _); [|done].
    apply Forall_insert; [|by apply Forall_vector_get].
    by apply Forall_copy_slot. }
  destruct (Nat.eqb _ _); [done|].
  apply IH; [|done].
  destruct (dlt _ _); rewrite ?length_insert; done.
Qed.

Lemma Forall_match_build_heap (self : match_vector) :
  Forall P self -> Forall P (match_build_heap self).
Proof.
  unfold match_build_heap. destruct (length self <=? 1)%nat; [done|].
  assert (Hl : Forall (fun i => i < length self)%nat (seq 1 (length self - 2))).
  { apply Forall_forall. intros i Hi. apply elem_of_seq in Hi. lia. }
  revert Hl. generalize (seq 1 (length self - 2)). intros l.
  generalize (eq_refl (length self)).
  generalize (length self) at 1 3. intros n.
  revert self; induction l as [|i l IH]; intros self Hn Hl H; simpl; [done|].
  inversion Hl; subst. apply IH; [by rewrite length_build_heap_up | done |].
  by apply Forall_build_heap_up.
Qed.

Lemma Forall_heap_fix_loop fuel (data : match_vector) n jhi jlo :
  (n < length data)%nat -> Forall P data ->
  Forall P (heap_fix_loop fuel data n jhi jlo).1.
Proof.
  revert data jhi jlo; induction fuel as [|fuel IH]; intros data jhi jlo Hn H; cbn [heap_fix_loop]; [done|].
  destruct (jlo <=? n)%nat eqn:Hle; [|done].
  apply Nat.leb_le in Hle.
  destruct (dle _ _); [done|].
  apply IH; [by rewrite length_insert|].
  apply Forall_copy_slot; [done|].
  destruct (jlo <? n)%nat eqn:Hlt; simpl; [|lia].
  apply Nat.ltb_lt in Hlt. destruct (dgt _ _); lia.
Qed.

Lemma Forall_match_heap_fix (self : match_vector) :
  Forall P self -> Forall P (match_heap_fix self).
Proof.
  intros H. unfold match_heap_fix.
  destruct self as [|m0 self]; [done|].
  pose proof (Forall_heap_fix_loop (length (m0 :: self)) (m0 :: self)
                (length (m0 :: self) - 1) 0 1) as HP.
  pose proof (length_heap_fix_loop (length (m0 :: self)) (m0 :: self)
                (length (m0 :: self) - 1) 0 1) as HL.
  destruct (heap_fix_loop _ _ _ _ _) as [data jhi]. simpl fst in *.
  apply Forall_copy_slot.
  - apply HP; [simpl; lia | done].
  - rewrite HL. simpl. lia.
Qed.

Lemma Forall_match_heap_insert (self : match_vector) m :
  P m -> Forall P self -> Forall P (match_heap_insert self m).
Proof.
  intros Hm H. unfold match_heap_insert. destruct (dgt _ _); [|done].
  destruct (1 <? _)%nat.
  - apply Forall_match_heap_fix. by apply Forall_insert.
  - by apply Forall_insert.
Qed.

End Slots.

(** ** Loops *)

Lemma for_each_inv {A S : Type} (I : S -> Prop) (body : S -> A -> bool * S) l s :
  I s -> (forall s a, a ∈ l -> I s -> I (body s a).2) -> I (for_each body l s).2.
Proof.
  revert s; induction l as [|a l IH]; intros s Hs Hb; simpl; [done|].
  pose proof (Hb s a ltac:(left) Hs) as Ha.
  destruct (body s a) as [[|] s']; simpl in *; [|done].
  apply IH; [done|]. intros s0 a0 Hin. apply Hb. by right.
Qed.

(** ** Updating one buffer *)

Lemma cat_set_matches s i v :
  cat (set_matches s i v)
  = <[i := mkEntry (point (entry_at s i)) (disc_pixels (entry_at s i)) v]> (cat s).
Proof. done. Qed.

Lemma entry_at_lookup s i e : cat s !! i = Some e -> entry_at s i = e.
Proof. intros H. unfold entry_at. by apply nth_lookup_Some with (d := entry0) in H. Qed.

Lemma entry_at_beyond s i : cat s !! i = None -> entry_at s i = entry0.
Proof. intros H. unfold entry_at. apply nth_overflow. by apply lookup_ge_None. Qed.

Lemma frame_set_matches s i v :
  map frame (cat (set_matches s i v)) = map frame (cat s).
Proof.
  rewrite cat_set_matches. apply list_eq. intros j.
  rewrite !list_lookup_fmap.
  destruct (decide (i = j)) as [->|Hne]; [|by rewrite list_lookup_insert_ne].
  destruct (cat s !! j) as [e|] eqn:He.
  - rewrite list_lookup_insert_eq by (by eapply lookup_lt_Some).
    by rewrite (entry_at_lookup _ _ _ He).
  - rewrite list_insert_ge by (by apply lookup_ge_None). by rewrite He.
Qed.

Lemma sizes_set_matches mm s i v :
  Z.of_nat (length v) <= mm -> sizes_at_most mm (cat s) ->
  sizes_at_most mm (cat (set_matches s i v)).
Proof. intros Hv H. rewrite cat_set_matches. by apply Forall_insert. Qed.

Lemma valid_set_matches s i v :
  Forall (fun m => cat_ind m = Z.of_nat i /\ within_cap (entry_at s i) m) v ->
  all_valid (cat s) -> all_valid (cat (set_matches s i v)).
Proof.
  intros Hv H j e. rewrite cat_set_matches.
  destruct (decide (i = j)) as [->|Hne]; [|rewrite list_lookup_insert_ne by done; apply H].
  intros He.
  assert (Hj : (j < length (cat s))%nat).
  { apply lookup_lt_Some in He. by rewrite length_insert in He. }
  rewrite list_lookup_insert_eq in He by done. by injection He as <-.
Qed.

Lemma valid_entry_at s i :
  all_valid (cat s) ->
  Forall (fun m => cat_ind m = Z.of_nat i /\ within_cap (entry_at s i) m)
         (matches (entry_at s i)).
Proof.
  intros H. destruct (cat s !! i) as [e|] eqn:He.
  - rewrite (entry_at_lookup _ _ _ He). by apply H.
  - rewrite (entry_at_beyond _ _ He). constructor.
Qed.

Lemma total_size_insert (c : Catalog) i e e' :
  c !! i = Some e ->
  total_size (<[i := e']> c)
  = total_size c - Z.of_nat (length (matches e)) + Z.of_nat (length (matches e')).
Proof.
  revert i; induction c as [|e0 c IH]; intros [|i] H; simpl in *; try done.
  - injection H as ->. lia.
  - rewrite (IH _ H). lia.
Qed.

Lemma total_size_set_matches s i v :
  (i < length (cat s))%nat ->
  total_size (cat (set_matches s i v))
  = total_size (cat s) - Z.of_nat (length (matches (entry_at s i))) + Z.of_nat (length v).
Proof.
  intros Hi. destruct (lookup_lt_is_Some_2 _ _ Hi) as [e He].
  rewrite cat_set_matches, (total_size_insert _ _ _ _ He).
  by rewrite (entry_at_lookup _ _ _ He).
Qed.

Lemma wrap64_succ n : wrap64 (wrap64 n + 1) = wrap64 (n + 1).
Proof.
  unfold wrap64. f_equal.
  replace (n + 1 + 2 ^ 63) with ((n + 2 ^ 63) + 1) by lia.
  rewrite <- (Zplus_mod_idemp_l (n + 2 ^ 63)). f_equal. lia.
Qed.

Lemma wrap64_small n : - 2 ^ 63 <= n < 2 ^ 63 -> wrap64 n = n.
Proof. intros H. unfold wrap64. rewrite Z.mod_small; lia. Qed.

(** ** The accepted candidate: [domatch1_within] *)

Lemma same_frame_refl s : same_frame s s.
Proof. by repeat split. Qed.

Lemma same_frame_trans s1 s2 s3 :
  same_frame s1 s2 -> same_frame s2 s3 -> same_frame s1 s3.
Proof.
  intros (?&?&?&?&?) (?&?&?&?&?). repeat split; congruence.
Qed.

Lemma same_frame_length s s' : same_frame s s' -> length (cat s') = length (cat s).
Proof.
  intros (_&_&_&_&H). apply (f_equal length) in H. by rewrite !length_map in H.
Qed.

Lemma same_frame_point s s' i :
  same_frame s s' -> point (entry_at s' i) = point (entry_at s i).
Proof.
  intros (_&_&_&_&H). unfold entry_at.
  apply (f_equal (fun l => (nth i l (frame entry0)).1)) in H.
  by rewrite !(map_nth frame) in H.
Qed.

Lemma same_frame_set_matches s i v : same_frame s (set_matches s i v).
Proof. repeat split; try done. apply frame_set_matches. Qed.

Lemma same_frame_set_nmatches s n : same_frame s (set_nmatches s n).
Proof. by repeat split. Qed.

(** The two branches of the block: an append (followed or not by the
    heapification), or an offer to the heap. *)
Lemma domatch1_within_cases s i m :
  let old := matches (entry_at s i) in
  ((maxmatch s <= 0 \/ Z.of_nat (length old) < maxmatch s) /\
   exists v, length v = S (length old) /\
             (forall P : Match -> Prop, P m -> Forall P old -> Forall P v) /\
             domatch1_within s i m
             = set_matches (set_nmatches s (wrap64 (nmatches s + 1))) i v)
  \/
  (0 < maxmatch s <= Z.of_nat (length old) /\
   domatch1_within s i m = set_matches s i (match_heap_insert old m)).
Proof.
  intros old. unfold domatch1_within. fold old.
  destruct ((maxmatch s <=? 0) || (Z.of_nat (length old) <? maxmatch s)) eqn:Hc.
  - left. split.
    { apply orb_true_iff in Hc as [Hc|Hc]; [left|right]; lia. }
    change (entry_at (set_nmatches s (wrap64 (nmatches s + 1))) i) with (entry_at s i).
    change (maxmatch (set_nmatches s (wrap64 (nmatches s + 1)))) with (maxmatch s).
    destruct ((1 <? maxmatch s) && _).
    + exists (match_build_heap (vector_push old m)). split; [|split; [|done]].
      * rewrite length_match_build_heap. unfold vector_push.
        rewrite length_app. simpl. lia.
      * intros P Hm Ho. apply Forall_match_build_heap.
        apply Forall_app; split; [done|]. by constructor.
    + exists (vector_push old m). split; [|split; [|done]].
      * unfold vector_push. rewrite length_app. simpl. lia.
      * intros P Hm Ho. apply Forall_app; split; [done|]. by constructor.
  - right. apply orb_false_iff in Hc as [H1 H2]. split; [lia|done].
Qed.

Lemma domatch1_within_frame s i m : same_frame s (domatch1_within s i m).
Proof.
  destruct (domatch1_within_cases s i m) as [(_ & v & _ & _ & ->)|(_ & ->)].
  - eapply same_frame_trans; [apply (same_frame_set_nmatches s)|].
    apply same_frame_set_matches.
  - apply same_frame_set_matches.
Qed.

Lemma domatch1_within_sizes mm s i m :
  1 <= mm -> maxmatch s = mm -> sizes_at_most mm (cat s) ->
  sizes_at_most mm (cat (domatch1_within s i m)).
Proof.
  intros Hmm <- H.
  assert (Hold : Z.of_nat (length (matches (entry_at s i))) <= maxmatch s).
  { destruct (cat s !! i) as [e|] eqn:He.
    - rewrite (entry_at_lookup _ _ _ He).
      by apply (Forall_lookup_1 _ _ _ _ H He).
    - rewrite (entry_at_beyond _ _ He). simpl. lia. }
  destruct (domatch1_within_cases s i m) as [(Hc & v & Hv & _ & ->)|(Hc & ->)].
  - apply (sizes_set_matches _ (set_nmatches s _)); [|done]. rewrite Hv. lia.
  - apply sizes_set_matches; [|done]. by rewrite length_match_heap_insert.
Qed.

Lemma domatch1_within_valid s i m :
  cat_ind m = Z.of_nat i -> within_cap (entry_at s i) m ->
  all_valid (cat s) -> all_valid (cat (domatch1_within s i m)).
Proof.
  intros Hi Hm H. pose proof (valid_entry_at s i H) as Ho.
  destruct (domatch1_within_cases s i m) as [(_ & v & _ & Hv & ->)|(_ & ->)].
  - apply (valid_set_matches (set_nmatches s _)); [|done]. by apply Hv.
  - apply valid_set_matches; [|done]. by apply Forall_match_heap_insert.
Qed.

Lemma domatch1_within_count s i m :
  (i < length (cat s))%nat ->
  nmatches s = wrap64 (total_size (cat s)) ->
  nmatches (domatch1_within s i m) = wrap64 (total_size (cat (domatch1_within s i m))).
Proof.
  intros Hi H.
  destruct (domatch1_within_cases s i m) as [(_ & v & Hv & _ & ->)|(_ & ->)].
  - rewrite (total_size_set_matches (set_nmatches s _)) by done.
    change (nmatches (set_matches (set_nmatches s (wrap64 (nmatches s + 1))) i v))
      with (wrap64 (nmatches s + 1)).
    change (entry_at (set_nmatches s (wrap64 (nmatches s + 1))) i) with (entry_at s i).
    change (cat (set_nmatches s (wrap64 (nmatches s + 1)))) with (cat s).
    rewrite H, wrap64_succ, Hv. f_equal. lia.
  - rewrite total_size_set_matches by done.
    rewrite length_match_heap_insert.
    change (nmatches (set_matches s i _)) with (nmatches s). rewrite H. f_equal. lia.
Qed.

(** ** From the accepted candidate to the whole call *)

Section Stepwise.

Variable hpix_eq2xyz : float -> float -> option (float * float * float).
Variable hpix_eq2pix : healpix -> float -> float -> option Z.

(** [I] is a property of the engine that every accepted candidate keeps,
    when it is offered to an entry of the catalog and lies in its cap. *)
Variable I : PySMatchCat -> Prop.
Hypothesis I_within : forall s i m,
  (i < length (cat s))%nat -> cat_ind m = Z.of_nat i -> within_cap (entry_at s i) m ->
  I s -> I (domatch1_within s i m).

Let J (s0 s : PySMatchCat) : Prop := same_frame s0 s /\ I s.

Lemma domatch1_index_inv s0 i raObj decObj s input_ind :
  (i < length (cat s0))%nat -> J s0 s ->
  J s0 (domatch1_index hpix_eq2xyz i raObj decObj s input_ind).2.
Proof.
  intros Hi [Hf HI]. unfold domatch1_index.
  destruct (hpix_eq2xyz _ _) as [[[x1 y1] z1]|]; [|done].
  destruct (dgt _ _) eqn:Hgt; [|done]. simpl. split.
  - eapply same_frame_trans; [done|]. apply domatch1_within_frame.
  - apply I_within; [|done|done|done]. by rewrite (same_frame_length _ _ Hf).
Qed.

Lemma domatch1_pixel_inv s0 t i raObj decObj s hpixid :
  (i < length (cat s0))%nat -> J s0 s ->
  J s0 (domatch1_pixel hpix_eq2xyz t i raObj decObj s hpixid).2.
Proof.
  intros Hi HJ. unfold domatch1_pixel.
  destruct (tree_find _ _) as [indices|]; [|done].
  apply for_each_inv; [done|]. intros s1 a _. by apply domatch1_index_inv.
Qed.

Lemma domatch1_inv s0 t i raObj decObj s :
  (i < length (cat s0))%nat -> J s0 s ->
  J s0 (domatch1 hpix_eq2xyz s t i raObj decObj).2.
Proof.
  intros Hi HJ. unfold domatch1.
  apply for_each_inv; [done|]. intros s1 a _. by apply domatch1_pixel_inv.
Qed.

Lemma domatch_loop_inv t raObj decObj s :
  I s ->
  J s (for_each (fun s1 i => domatch1 hpix_eq2xyz s1 t i raObj decObj)
                (seq 0 (length (cat s))) s).2.
Proof.
  intros HI. apply (for_each_inv (J s)); [split; [apply same_frame_refl|done]|].
  intros s1 i Hin HJ. apply domatch1_inv; [|done].
  apply elem_of_seq in Hin. lia.
Qed.

(** [domatch]: once the tree is built the counter is reset, and every
    catalog entry is matched in turn. *)
Lemma domatch_inv s raObj decObj :
  I (set_nmatches s 0) ->
  is_Some (create_hpix_tree hpix_eq2pix (hpix s) raObj decObj) ->
  J s (domatch hpix_eq2xyz hpix_eq2pix s raObj decObj).2.
Proof.
  intros HI [t Ht]. unfold domatch. rewrite Ht.
  destruct (domatch_loop_inv t raObj decObj (set_nmatches s 0) HI) as [Hf H].
  split; [|done].
  eapply same_frame_trans; [apply (same_frame_set_nmatches s 0)|done].
Qed.

End Stepwise.

(** ** [match_prep] *)

Lemma match_prep_prefix s k :
  (k <= length (cat s))%nat ->
  let s' := fold_left
              (fun s i => if maxmatch s <=? 0 then set_matches s i [] else set_matches s i [])
              (seq 0 k) s in
  cat s' = map clear_entry (take k (cat s)) ++ drop k (cat s)
  /\ maxmatch s' = maxmatch s /\ matching_self s' = matching_self s
  /\ hpix s' = hpix s /\ tree s' = tree s /\ nmatches s' = nmatches s.
Proof.
  induction k as [|k IH]; intros Hk; [by rewrite take_0, drop_0|].
  specialize (IH ltac:(lia)). cbv zeta in *.
  rewrite seq_S, fold_left_app. simpl.
  destruct IH as (Hc & Hm & Hs & Hh & Ht & Hn).
  set (s1 := fold_left _ (seq 0 k) s) in *.
  assert (Hstep : (if maxmatch s1 <=? 0 then set_matches s1 k [] else set_matches s1 k [])
                  = set_matches s1 k []) by (by destruct (maxmatch s1 <=? 0)).
  rewrite Hstep. repeat split; try done.
  rewrite cat_set_matches.
  destruct (lookup_lt_is_Some_2 (cat s) k ltac:(lia)) as [e He].
  assert (He1 : cat s1 !! k = Some e).
  { rewrite Hc, lookup_app_r; rewrite length_map, length_take; [|lia].
    replace (k - k `min` length (cat s))%nat with 0%nat by lia.
    by rewrite lookup_drop, Nat.add_0_r. }
  rewrite (entry_at_lookup _ _ _ He1), Hc.
  rewrite (take_S_r _ _ _ He), map_app. simpl.
  rewrite (drop_S _ _ _ He).
  rewrite insert_app_r_alt; rewrite length_map, length_take; [|lia].
  replace (k - k `min` length (cat s))%nat with 0%nat by lia.
  by rewrite <- app_assoc.
Qed.

Lemma match_prep_spec s :
  cat (match_prep s) = map clear_entry (cat s)
  /\ maxmatch (match_prep s) = maxmatch s
  /\ matching_self (match_prep s) = matching_self s
  /\ hpix (match_prep s) = hpix s /\ tree (match_prep s) = tree s
  /\ nmatches (match_prep s) = nmatches s.
Proof.
  destruct (match_prep_prefix s (length (cat s)) ltac:(lia)) as (Hc & H).
  split; [|exact H].
  unfold match_prep. rewrite Hc, firstn_all, drop_all. apply app_nil_r.
Qed.

Lemma total_size_clear (c : Catalog) : total_size (map clear_entry c) = 0.
Proof. induction c as [|e c IH]; simpl; [done|]. by rewrite IH. Qed.

Lemma total_size_nonneg (c : Catalog) : 0 <= total_size c.
Proof. induction c as [|e c IH]; simpl; lia. Qed.

Lemma sizes_at_most_clear mm (c : Catalog) :
  0 <= mm -> sizes_at_most mm (map clear_entry c).
Proof. intros H. apply Forall_fmap, Forall_forall. intros e _. simpl. lia. Qed.

(** ** The in-memory match call *)

(** C5: in a match call with [maxmatch >= 1], [match_prep] leaves every
    buffer empty, every accepted candidate keeps every buffer within
    [maxmatch] slots, and so does the call as a whole, whatever its status. *)
Theorem buffer_size_at_most_maxmatch
        (hpix_eq2xyz : float -> float -> option (float * float * float))
        (hpix_eq2pix : healpix -> float -> float -> option Z)
        (self : PySMatchCat) (mm ms : Z) (raObj decObj : list float) :
  1 <= mm ->
  Forall (fun e => matches e = []) (cat (match_prep (set_args self mm ms)))
  /\ (forall s i m, maxmatch s = mm -> sizes_at_most mm (cat s) ->
                    sizes_at_most mm (cat (domatch1_within s i m)))
  /\ sizes_at_most mm
       (cat (PySMatchCat_match hpix_eq2xyz hpix_eq2pix self mm ms raObj decObj).2).
Proof.
  intros Hmm.
  destruct (match_prep_spec (set_args self mm ms)) as (Hc & Hm & _).
  split; [|split].
  - rewrite Hc. apply Forall_fmap, Forall_forall. by intros e _.
  - intros s i m Hs. by apply domatch1_within_sizes.
  - unfold PySMatchCat_match.
    set (s0 := match_prep (set_args self mm ms)) in *.
    assert (H0 : sizes_at_most mm (cat s0)).
    { rewrite Hc. apply sizes_at_most_clear. lia. }
    destruct (create_hpix_tree hpix_eq2pix (hpix s0) raObj decObj) as [t|] eqn:Ht.
    + refine (proj2 (proj2 (domatch_inv hpix_eq2xyz hpix_eq2pix
               (fun s => maxmatch s = mm /\ sizes_at_most mm (cat s))
               _ s0 raObj decObj _ _))).
      * intros s i m _ _ _ [Hs Hb]. split.
        -- by destruct (domatch1_within_frame s i m) as (-> & _).
        -- by apply domatch1_within_sizes.
      * by split.
      * by rewrite Ht.
    + unfold domatch. by rewrite Ht.
Qed.

(** C6: after a successful match call the counter [nmatches] is the sum of
    the buffer sizes (the sum fits an [int64_t]); every accepted candidate
    either appends, adding one to both, or is offered to the heap, changing
    neither. *)
Theorem nmatches_is_total_size
        (hpix_eq2xyz : float -> float -> option (float * float * float))
        (hpix_eq2pix : healpix -> float -> float -> option Z)
        (self self' : PySMatchCat) (mm ms : Z) (raObj decObj : list float) :
  PySMatchCat_match hpix_eq2xyz hpix_eq2pix self mm ms raObj decObj = (true, self') ->
  total_size (cat self') < 2 ^ 63 ->
  nmatches self' = total_size (cat self')
  /\ (forall s i m, (i < length (cat s))%nat ->
        let s' := domatch1_within s i m in
        (total_size (cat s') = total_size (cat s) + 1
         /\ nmatches s' = wrap64 (nmatches s + 1))
        \/ (total_size (cat s') = total_size (cat s) /\ nmatches s' = nmatches s)).
Proof.
  intros Hrun Hfit. split.
  - unfold PySMatchCat_match in Hrun.
    set (s0 := match_prep (set_args self mm ms)) in *.
    destruct (match_prep_spec (set_args self mm ms)) as (Hc & _).
    destruct (create_hpix_tree hpix_eq2pix (hpix s0) raObj decObj) as [t|] eqn:Ht;
      [|unfold domatch in Hrun; rewrite Ht in Hrun; discriminate].
    pose proof (domatch_inv hpix_eq2xyz hpix_eq2pix
                  (fun s => nmatches s = wrap64 (total_size (cat s)))
                  (fun s i m Hi _ _ => domatch1_within_count s i m Hi)
                  s0 raObj decObj) as H.
    rewrite Hrun in H. destruct H as [_ H].
    + change (cat (set_nmatches s0 0)) with (cat (match_prep (set_args self mm ms))).
      by rewrite Hc, total_size_clear.
    + by rewrite Ht.
    + simpl in H. rewrite H. apply wrap64_small.
      pose proof (total_size_nonneg (cat self')). lia.
  - intros s i m Hi s'. subst s'.
    destruct (domatch1_within_cases s i m) as [(_ & v & Hv & _ & ->)|(_ & ->)].
    + left. rewrite (total_size_set_matches (set_nmatches s _)) by done.
      split; [|done].
      change (entry_at (set_nmatches s (wrap64 (nmatches s + 1))) i) with (entry_at s i).
      change (cat (set_nmatches s (wrap64 (nmatches s + 1)))) with (cat s).
      rewrite Hv. lia.
    + right. rewrite total_size_set_matches by done.
      rewrite length_match_heap_insert. split; [lia|done].
Qed.

(** ** Writing the match file *)

Lemma lines_app a b : lines (a ++ b) = lines a ++ lines b.
Proof. unfold lines. by rewrite map_app, concat_app. Qed.

Lemma lines_cons m ms :
  lines (m :: ms) = match_line (cat_ind m) (input_ind m) (cosdist m) ++ lines ms.
Proof. done. Qed.

Lemma match_line_length c i d : (0 < length (match_line c i d))%nat.
Proof. unfold match_line. rewrite length_app. simpl. rewrite length_app. simpl. lia. Qed.

Lemma fprintf_match_spec fobj c i d :
  fprintf_match fobj c i d
  = (Z.of_nat (length (match_line c i d)), fobj ++ lines [mkMatch c i d])
  /\ (Z.of_nat (length (match_line c i d)) =? 0) = false.
Proof.
  split.
  - unfold fprintf_match, lines. simpl. by rewrite app_nil_r.
  - pose proof (match_line_length c i d). lia.
Qed.

Lemma wrap64_congr a b : wrapu64 a = wrapu64 b -> wrap64 a = wrap64 b.
Proof.
  unfold wrapu64, wrap64. intros H. f_equal.
  rewrite <- (Zplus_mod_idemp_l a), <- (Zplus_mod_idemp_l b). by rewrite H.
Qed.

Lemma wrapu64_idemp a : wrapu64 (wrapu64 a) = wrapu64 a.
Proof. unfold wrapu64. apply Z.mod_mod. lia. Qed.

Lemma wrapu64_wrap64 a : wrapu64 (wrap64 a) = wrapu64 a.
Proof.
  unfold wrapu64, wrap64.
  rewrite <- Zminus_mod_idemp_l, Z.mod_mod by lia.
  rewrite Zminus_mod_idemp_l. f_equal. lia.
Qed.

Lemma wrapu64_add a b c : wrapu64 a = wrapu64 b -> wrapu64 (a + c) = wrapu64 (b + c).
Proof.
  unfold wrapu64. intros H.
  rewrite <- (Zplus_mod_idemp_l a), <- (Zplus_mod_idemp_l b). by rewrite H.
Qed.

Section Streaming.

Variable hpix_eq2xyz : float -> float -> option (float * float * float).
Variable hpix_eq2pix : healpix -> float -> float -> option Z.

Lemma wrap64_range n : int64 (wrap64 n).
Proof.
  unfold int64, wrap64. pose proof (Z.mod_pos_bound (n + 2 ^ 63) (2 ^ 64)). lia.
Qed.

Lemma domatch1_2file_index_spec self j x1 y1 z1 fobj incr ci :
  exists new incr',
    domatch1_2file_index self j x1 y1 z1 (fobj, incr) ci
    = (true, (fobj ++ lines new, incr'))
    /\ wrapu64 incr' = wrapu64 (incr + Z.of_nat (length new))
    /\ Forall (hit self) new.
Proof.
  unfold domatch1_2file_index.
  destruct (negb _ && _).
  { exists [], incr. rewrite app_nil_r, Z.add_0_r. by repeat split. }
  destruct (dgt _ _) eqn:Hgt.
  - destruct (fprintf_match_spec fobj (wrap64 ci) (wrap64 (Z.of_nat j))
                (dot (point (entry_at self (Z.to_nat (wrap64 ci)))) x1 y1 z1)) as [-> ->].
    eexists [_], _. split; [done|]. split.
    + by rewrite wrapu64_idemp.
    + constructor; [|done]. split; [exact Hgt|]. split; apply wrap64_range.
  - exists [], incr. rewrite app_nil_r, Z.add_0_r. by repeat split.
Qed.

Lemma domatch1_2file_indices self j x1 y1 z1 indices fobj incr :
  exists new incr',
    for_each (domatch1_2file_index self j x1 y1 z1) indices (fobj, incr)
    = (true, (fobj ++ lines new, incr'))
    /\ wrapu64 incr' = wrapu64 (incr + Z.of_nat (length new))
    /\ Forall (hit self) new.
Proof.
  revert fobj incr; induction indices as [|ci indices IH]; intros fobj incr.
  { exists [], incr. simpl. rewrite app_nil_r, Z.add_0_r. by repeat split. }
  destruct (domatch1_2file_index_spec self j x1 y1 z1 fobj incr ci)
    as (new1 & incr1 & E1 & W1 & H1).
  destruct (IH (fobj ++ lines new1) incr1) as (new2 & incr2 & E2 & W2 & H2).
  exists (new1 ++ new2), incr2. cbn [for_each]. rewrite E1, E2. split; [|split].
  - by rewrite lines_app, app_assoc.
  - rewrite W2, length_app, Nat2Z.inj_add, Z.add_assoc. by apply wrapu64_add.
  - by apply Forall_app.
Qed.

Lemma domatch1_2file_spec self ra dec j fobj :
  (exists new incr',
      domatch1_2file hpix_eq2xyz hpix_eq2pix self ra dec j fobj
      = (true, (fobj ++ lines new, incr'))
      /\ wrapu64 incr' = wrapu64 (Z.of_nat (length new))
      /\ Forall (hit self) new)
  \/ domatch1_2file hpix_eq2xyz hpix_eq2pix self ra dec j fobj = (false, (fobj, 0)).
Proof.
  unfold domatch1_2file.
  destruct (hpix_eq2pix _ _ _) as [hpixid|]; [|by right].
  destruct (tree_find _ _) as [indices|].
  - destruct (hpix_eq2xyz _ _) as [[[x1 y1] z1]|]; [|by right].
    left. apply (domatch1_2file_indices self j x1 y1 z1 indices fobj 0).
  - left. exists [], 0. rewrite app_nil_r. by repeat split.
Qed.

(** The streaming loop over the secondary points: the engine changes in its
    counter only, and the stream grows by the lines of the matches found. *)
Lemma domatch2file_all_loop raObj decObj l self fobj :
  exists new status n,
    for_each_from false
      (fun (st : PySMatchCat * text) i =>
         let '(self, fobj) := st in
         let '(status, (fobj, match_incr)) :=
           domatch1_2file hpix_eq2xyz hpix_eq2pix self
             (PyArray_GETPTR1 raObj i) (PyArray_GETPTR1 decObj i) i fobj in
         if status
         then (true, (set_nmatches self (wrap64 (nmatches self + match_incr)), fobj))
         else (false, (self, fobj)))
      l (self, fobj)
    = (status, (set_nmatches self n, fobj ++ lines new))
    /\ wrapu64 n = wrapu64 (nmatches self + Z.of_nat (length new))
    /\ (n = nmatches self \/ exists k, n = wrap64 k)
    /\ Forall (hit self) new.
Proof.
  assert (Hnil : forall (st : bool) (self : PySMatchCat) (fobj : text),
            exists new status n,
              (st, (self, fobj)) = (status, (set_nmatches self n, fobj ++ lines new))
              /\ wrapu64 n = wrapu64 (nmatches self + Z.of_nat (length new))
              /\ (n = nmatches self \/ exists k, n = wrap64 k)
              /\ Forall (hit self) new).
  { intros st s f. exists [], st, (nmatches s).
    rewrite app_nil_r, Z.add_0_r. destruct s. repeat split; auto. }
  destruct l as [|i0 l0]; [apply Hnil|].
  unfold for_each_from. generalize (i0 :: l0). clear i0 l0. intros l.
  revert self fobj; induction l as [|i l IH]; intros self fobj; [apply Hnil|].
  cbn [for_each].
  destruct (domatch1_2file_spec self (PyArray_GETPTR1 raObj i)
              (PyArray_GETPTR1 decObj i) i fobj)
    as [(new1 & incr1 & -> & W1 & H1)| ->].
  - set (self1 := set_nmatches self (wrap64 (nmatches self + incr1))).
    destruct (IH self1 (fobj ++ lines new1)) as (new2 & st & n & E2 & W2 & N2 & H2).
    exists (new1 ++ new2), st, n. rewrite E2. split; [|split; [|split]].
    + by rewrite lines_app, app_assoc.
    + rewrite W2. simpl. rewrite length_app, Nat2Z.inj_add, Z.add_assoc.
      apply wrapu64_add. rewrite wrapu64_wrap64.
      rewrite (Z.add_comm _ incr1), (Z.add_comm _ (Z.of_nat _)).
      by apply wrapu64_add.
    + destruct N2 as [->|N2]; [|by right]. right. by eexists.
    + apply Forall_app. split; [done|]. exact H2.
  - exists [], false, (nmatches self). rewrite app_nil_r, Z.add_0_r.
    destruct self. repeat split; auto.
Qed.

End Streaming.

Lemma write_matches_entry (v : match_vector) fobj :
  for_each
    (fun fobj (m : Match) =>
       let '(nret, fobj) := fprintf_match fobj (cat_ind m) (input_ind m) (cosdist m) in
       if nret =? 0 then (false, fobj) else (true, fobj))
    v fobj
  = (true, fobj ++ lines v).
Proof.
  revert fobj; induction v as [|m v IH]; intros fobj; cbn [for_each].
  { by rewrite app_nil_r. }
  destruct (fprintf_match_spec fobj (cat_ind m) (input_ind m) (cosdist m)) as [-> ->].
  rewrite IH, <- app_assoc, <- lines_app. by destruct m.
Qed.

Lemma write_matches_spec self fobj :
  write_matches self fobj = (true, fobj ++ lines (concat (map matches (cat self)))).
Proof.
  unfold write_matches. generalize (cat self). intros c.
  revert fobj; induction c as [|e c IH]; intros fobj; cbn [for_each].
  { by rewrite app_nil_r. }
  rewrite write_matches_entry, IH. simpl.
  by rewrite lines_app, app_assoc.
Qed.

(** ** Strict comparison of doubles *)

Lemma dgt_irrefl a : dgt a a = false.
Proof.
  unfold dgt. rewrite ltb_spec. unfold SFltb, SFcompare.
  destruct (Prim2SF a) as [[|]|[|]| |[|] m e]; try done;
    rewrite Z.compare_refl, Pos.compare_cont_refl; done.
Qed.

Lemma within_cap_strict e m : within_cap e m -> cosdist m <> cos_radius (point e).
Proof.
  unfold within_cap. intros H Heq. rewrite Heq, dgt_irrefl in H. done.
Qed.

Lemma all_valid_clear (c : Catalog) : all_valid (map clear_entry c).
Proof.
  intros i e He. apply list_lookup_fmap_Some in He as (e0 & -> & _). constructor.
Qed.

Lemma frame_clear (c : Catalog) : map frame (map clear_entry c) = map frame c.
Proof. rewrite map_map. by apply map_ext. Qed.

Lemma same_frame_match_prep s mm ms : same_frame (set_args s mm ms) (match_prep (set_args s mm ms)).
Proof.
  destruct (match_prep_spec (set_args s mm ms)) as (Hc & Hm & Hs & Hh & Ht & _).
  repeat split; try done. rewrite Hc. apply frame_clear.
Qed.

Section Calls.

Variable hpix_eq2xyz : float -> float -> option (float * float * float).
Variable hpix_eq2pix : healpix -> float -> float -> option Z.

(** After [match_prep] and [domatch], whatever the status, every buffer
    holds matches of its own entry that lie in its cap, and the frame of the
    engine is as [match_prep] found it. *)
Lemma prep_domatch_valid s raObj decObj :
  let r := domatch hpix_eq2xyz hpix_eq2pix (match_prep s) raObj decObj in
  all_valid (cat r.2) /\ map frame (cat r.2) = map frame (cat s).
Proof.
  destruct (match_prep_spec s) as (Hc & _). cbv zeta.
  destruct (create_hpix_tree hpix_eq2pix (hpix (match_prep s)) raObj decObj)
    as [t|] eqn:Ht.
  - destruct (domatch_inv hpix_eq2xyz hpix_eq2pix (fun s => all_valid (cat s))
                (fun s i m _ Hi Hm => domatch1_within_valid s i m Hi Hm)
                (match_prep s) raObj decObj) as [(_&_&_&_&Hf) Hv].
    + change (cat (set_nmatches (match_prep s) 0)) with (cat (match_prep s)).
      rewrite Hc. apply all_valid_clear.
    + by rewrite Ht.
    + split; [done|]. by rewrite Hf, Hc, frame_clear.
  - unfold domatch. rewrite Ht. simpl. rewrite Hc. split.
    + apply all_valid_clear.
    + apply frame_clear.
Qed.

Lemma valid_buffers_hit s (c : Catalog) :
  all_valid c -> map frame c = map frame (cat s) ->
  Forall (fun m => within_cap (entry_at s (Z.to_nat (cat_ind m))) m)
         (concat (map matches c)).
Proof.
  intros Hv Hf. apply Forall_concat, Forall_fmap, Forall_lookup.
  intros i e He. simpl. eapply Forall_impl; [by apply Hv|].
  intros m [Hi Hm]. simpl in *. rewrite Hi, Nat2Z.id.
  unfold within_cap in *. replace (point (entry_at s i)) with (point e); [done|].
  apply (f_equal (fun l => (nth i l (frame entry0)).1)) in Hf.
  rewrite !(map_nth frame) in Hf. unfold entry_at. cbn [frame fst] in Hf.
  rewrite <- Hf. by rewrite (nth_lookup_Some _ _ entry0 _ He).
Qed.

(** What [domatch2file] leaves in the file: the lines of matches that lie
    in the caps of the entries they name. *)
Lemma domatch2file_written self raObj decObj opened :
  exists written,
    (domatch2file hpix_eq2xyz hpix_eq2pix self raObj decObj (fopen_w opened)).2.2
    = lines written
    /\ Forall (fun m => within_cap (entry_at self (Z.to_nat (cat_ind m))) m) written.
Proof.
  destruct opened; [|by exists []]. cbn [fopen_w domatch2file].
  destruct (maxmatch self <=? 0).
  - unfold domatch2file_all.
    destruct (domatch2file_all_loop hpix_eq2xyz hpix_eq2pix raObj decObj
                (seq 0 (length raObj)) self [])
      as (new & st & n & -> & _ & _ & H).
    exists new. split; [done|]. eapply Forall_impl; [exact H|]. by intros m [? _].
  - destruct (prep_domatch_valid self raObj decObj) as [Hv Hf].
    destruct (domatch hpix_eq2xyz hpix_eq2pix (match_prep self) raObj decObj)
      as [[|] self2]; [|by exists []].
    rewrite write_matches_spec. simpl in *.
    exists (concat (map matches (cat self2))). split; [done|].
    by apply valid_buffers_hit.
Qed.

End Calls.

(** C4: whatever is emitted lies strictly inside the cap of the entry it
    names: the matches of every buffer after a match call, and the matches
    whose lines make up the file after a match2file call (streamed or written
    from the buffers); a cosdist equal to the cos_radius is not inside. *)
Theorem emitted_matches_strictly_within_cap
        (hpix_eq2xyz : float -> float -> option (float * float * float))
        (hpix_eq2pix : healpix -> float -> float -> option Z)
        (self : PySMatchCat) (mm ms : Z) (raObj decObj : list float) (opened : bool) :
  all_valid (cat (PySMatchCat_match hpix_eq2xyz hpix_eq2pix self mm ms raObj decObj).2)
  /\ (exists written,
        (PySMatchCat_match2file hpix_eq2xyz hpix_eq2pix self mm ms raObj decObj
                                (fopen_w opened)).2.2
        = lines written
        /\ Forall (fun m => within_cap (entry_at self (Z.to_nat (cat_ind m))) m) written)
  /\ (forall e m, within_cap e m ->
        dgt (cosdist m) (cos_radius (point e)) = true
        /\ cosdist m <> cos_radius (point e)).
Proof.
  split; [|split].
  - apply (prep_domatch_valid hpix_eq2xyz hpix_eq2pix (set_args self mm ms)).
  - apply (domatch2file_written hpix_eq2xyz hpix_eq2pix (set_args self mm ms)).
  - intros e m H. split; [exact H | by apply within_cap_strict].
Qed.

Lemma buffer_size_at_most_maxmatch_witness :
  sizes_at_most 2
    (cat (PySMatchCat_match flat_eq2xyz flat_eq2pix flat_cat 2 0 flat_ra flat_dec).2).
Proof.
  exact (proj2 (proj2 (buffer_size_at_most_maxmatch flat_eq2xyz flat_eq2pix
                         flat_cat 2 0 flat_ra flat_dec ltac:(lia)))).
Defined.

Lemma nmatches_is_total_size_witness :
  nmatches flat_matched = total_size (cat flat_matched).
Proof.
  apply (nmatches_is_total_size flat_eq2xyz flat_eq2pix flat_cat flat_matched
           2 0 flat_ra flat_dec).
  - vm_compute. reflexivity.
  - vm_compute. reflexivity.
Defined.

(** ** Counting lines *)

Lemma to_char_newline a :
  (to_char (Z.of_nat (nat_of_ascii a)) =? 10) = Ascii.eqb a newline.
Proof. destruct a as [[] [] [] [] [] [] [] []]; reflexivity. Qed.

Lemma count_newlines_cons a file :
  count_newlines (a :: file)
  = ((if Ascii.eqb a newline then 1 else 0) + count_newlines file)%nat.
Proof.
  unfold count_newlines, count_byte. rewrite filter_cons.
  destruct (Ascii.eqb a newline); by case_decide.
Qed.

Lemma count_newlines_app a b :
  count_newlines (a ++ b) = (count_newlines a + count_newlines b)%nat.
Proof. unfold count_newlines, count_byte. by rewrite filter_app, length_app. Qed.

Lemma count_newlines_le file : (count_newlines file <= length file)%nat.
Proof. apply length_filter. Qed.

Lemma fgetc_end pre :
  fgetc (mkFILE pre (length pre) false) = (EOF, mkFILE pre (length pre) true).
Proof.
  unfold fgetc. cbn [bytes pos eof].
  by rewrite (proj2 (nth_error_None pre (length pre))) by lia.
Qed.

Lemma fgetc_byte pre a suf :
  fgetc (mkFILE (pre ++ a :: suf) (length pre) false)
  = (Z.of_nat (nat_of_ascii a), mkFILE (pre ++ a :: suf) (S (length pre)) false).
Proof.
  unfold fgetc. cbn [bytes pos eof].
  by rewrite nth_error_app2, Nat.sub_diag by lia.
Qed.

Lemma count_lines_loop_step fuel fobj nlines :
  eof fobj = false ->
  count_lines_loop (S fuel) fobj nlines
  = count_lines_loop fuel (fgetc fobj).2
      (if to_char (fgetc fobj).1 =? 10 then wrap64 (nlines + 1) else nlines).
Proof.
  intros H. cbn [count_lines_loop]. unfold feof. rewrite H.
  by destruct (fgetc fobj).
Qed.

Lemma count_lines_loop_spec suf : forall pre fuel nlines,
  (length suf + 2 <= fuel)%nat ->
  0 <= nlines -> nlines + Z.of_nat (length suf) < 2 ^ 63 ->
  count_lines_loop fuel (mkFILE (pre ++ suf) (length pre) false) nlines
  = Some (nlines + Z.of_nat (count_newlines suf)).
Proof.
  induction suf as [|a suf IH]; intros pre fuel nlines Hfuel H0 Hfit.
  - destruct fuel as [|[|fuel]]; [simpl in Hfuel; lia..|].
    rewrite count_lines_loop_step, app_nil_r, fgetc_end by done.
    cbn [fst snd]. change (to_char EOF =? 10) with false.
    cbn [count_lines_loop feof eof]. f_equal.
    change (count_newlines []) with 0%nat. lia.
  - destruct fuel as [|fuel]; [simpl in Hfuel; lia|].
    rewrite count_lines_loop_step, fgetc_byte by done. cbn [fst snd].
    rewrite to_char_newline, count_newlines_cons.
    replace (pre ++ a :: suf) with ((pre ++ [a]) ++ suf) by (by rewrite <- app_assoc).
    replace (S (length pre)) with (length (pre ++ [a]))
      by (rewrite length_app; simpl; lia).
    simpl in Hfuel, Hfit.
    destruct (Ascii.eqb a newline).
    + rewrite wrap64_small by lia. rewrite IH by lia. f_equal. lia.
    + rewrite IH by lia. f_equal.
Qed.

(** C8: on a readable file, [count_lines] ends and returns the number of
    newline bytes in it (the file is shorter than 2^63 bytes, so that the
    [int64_t] counter cannot wrap). *)
Theorem count_lines_counts_newlines (file : text) :
  Z.of_nat (length file) < 2 ^ 63 ->
  PySMatchCat_count_lines file = Some (Z.of_nat (count_newlines file)).
Proof.
  intros Hfit. unfold PySMatchCat_count_lines, count_lines, fopen_r.
  cbn [bytes pos].
  rewrite (count_lines_loop_spec file [] _ 0) by (simpl; lia). done.
Qed.

Lemma count_lines_counts_newlines_witness :
  PySMatchCat_count_lines (txt "0 1 0.5" ++ newline :: txt "0 2 0.75" ++ [newline])
  = Some 2.
Proof.
  apply (count_lines_counts_newlines
           (txt "0 1 0.5" ++ newline :: txt "0 2 0.75" ++ [newline])).
  vm_compute. reflexivity.
Defined.

(** ** The text of numbers *)

Lemma digit_char_isdigit d : 0 <= d < 10 -> isdigit (digit_char d) = true.
Proof.
  intros H.
  assert (Hd : d = 0 \/ d = 1 \/ d = 2 \/ d = 3 \/ d = 4 \/ d = 5 \/ d = 6
               \/ d = 7 \/ d = 8 \/ d = 9) by lia.
  by repeat destruct Hd as [->|Hd]; try subst d.
Qed.

Lemma digit_char_value d :
  0 <= d < 10 -> Z.of_nat (nat_of_ascii (digit_char d)) - 48 = d.
Proof.
  intros H.
  assert (Hd : d = 0 \/ d = 1 \/ d = 2 \/ d = 3 \/ d = 4 \/ d = 5 \/ d = 6
               \/ d = 7 \/ d = 8 \/ d = 9) by lia.
  by repeat destruct Hd as [->|Hd]; try subst d.
Qed.

Lemma digits_app a b : digits a -> digits b -> digits (a ++ b).
Proof. intros. by apply Forall_app. Qed.

Lemma digits_fixed w n : digits (fixed_digits w n).
Proof.
  revert n; induction w as [|w IH]; intros n; simpl; [constructor|].
  apply digits_app; [apply IH|].
  constructor; [|constructor]. apply digit_char_isdigit, Z.mod_pos_bound. lia.
Qed.

Lemma length_fixed_digits w n : length (fixed_digits w n) = w.
Proof.
  revert n; induction w as [|w IH]; intros n; simpl; [done|].
  rewrite length_app, IH. simpl. lia.
Qed.

Lemma digits_decimal_fuel f n : digits (decimal_fuel f n).
Proof.
  revert n; induction f as [|f IH]; intros n; simpl; [constructor|].
  apply digits_app.
  - destruct (n <? 10); [constructor | apply IH].
  - constructor; [|constructor]. apply digit_char_isdigit, Z.mod_pos_bound. lia.
Qed.

Lemma digits_decimal n : digits (decimal n).
Proof. apply digits_decimal_fuel. Qed.

Lemma decimal_nonempty n : decimal n <> [].
Proof. unfold decimal. simpl. by destruct (_ ++ _) eqn:E; [apply app_eq_nil in E as [_ ?]|]. Qed.

Lemma digits_value_snoc ds c :
  digits_value (ds ++ [c]) = 10 * digits_value ds + (Z.of_nat (nat_of_ascii c) - 48).
Proof. unfold digits_value. by rewrite fold_left_app. Qed.

Lemma decimal_fuel_value f : forall n,
  0 <= n < 2 ^ Z.of_nat f -> digits_value (decimal_fuel f n) = n.
Proof.
  induction f as [|f IH]; intros n Hn.
  { simpl in *. assert (n = 0) by lia. by subst. }
  cbn [decimal_fuel]. rewrite digits_value_snoc, digit_char_value
    by (apply Z.mod_pos_bound; lia).
  destruct (n <? 10) eqn:Hlt.
  - apply Z.ltb_lt in Hlt. change (digits_value []) with 0. rewrite Z.mod_small; lia.
  - apply Z.ltb_ge in Hlt. rewrite IH.
    + pose proof (Z.div_mod n 10 ltac:(lia)). lia.
    + rewrite Nat2Z.inj_succ, Z.pow_succ_r in Hn by lia.
      split; [apply Z.div_pos; lia|].
      apply Z.div_lt_upper_bound; lia.
Qed.

Lemma decimal_value n : 0 <= n -> digits_value (decimal n) = n.
Proof.
  intros Hn. apply decimal_fuel_value. split; [done|].
  destruct (Z.eq_dec n 0) as [->|Hne]; [done|].
  rewrite Nat2Z.inj_succ, Z2Nat.id by apply Z.log2_nonneg.
  apply Z.log2_spec. lia.
Qed.

Lemma digits_strip0 ds : digits ds -> digits (strip0 ds).
Proof.
  induction ds as [|d ds IH]; intros H; simpl; [constructor|].
  inversion H as [|? ? Hd Hds]; subst. specialize (IH Hds).
  destruct (strip0 ds) as [|d' r].
  - destruct (is_zero_char d); [constructor | by constructor].
  - by constructor.
Qed.

Lemma fraction_shape ds : digits ds -> is_fraction (fraction ds).
Proof.
  intros H. unfold fraction. pose proof (digits_strip0 ds H) as Hs.
  destruct (strip0 ds) as [|d r]; [by left|].
  right. by exists (d :: r).
Qed.

Lemma exponent_shape X : is_exponent ("e"%char :: exponent X).
Proof.
  right. unfold exponent. eexists _, _. split; [done|]. split; [|split].
  - destruct (X <? 0); auto.
  - destruct (Z.abs X <? 10); [done | apply decimal_nonempty].
  - destruct (Z.abs X <? 10); [constructor; [done|] |]; apply digits_decimal.
Qed.

Lemma length_drop_zeros t : (length (drop_zeros t) <= length t)%nat.
Proof.
  induction t as [|c t IH]; simpl; [done|].
  destruct (is_zero_char c); simpl; lia.
Qed.

Lemma length_strip0 ds : (length (strip0 ds) <= length ds)%nat.
Proof.
  induction ds as [|d ds IH]; simpl; [done|].
  destruct (strip0 ds); [destruct (is_zero_char d)|]; simpl in *; lia.
Qed.

Lemma skipn_1_fraction ds : skipn 1 (fraction ds) = strip0 ds.
Proof. unfold fraction. by destruct (strip0 ds). Qed.

(** Zeros in front of the digits do not count. *)
Lemma drop_zeros_padded k ds :
  (length (drop_zeros (strip0 (repeat "0"%char k ++ ds))) <= length ds)%nat.
Proof.
  induction k as [|k IH]; cbn [repeat app].
  - etrans; [apply length_drop_zeros | apply length_strip0].
  - cbn [strip0]. destruct (strip0 (repeat "0"%char k ++ ds)) eqn:E.
    + cbn. lia.
    + cbn [drop_zeros]. by change (is_zero_char "0"%char) with true.
Qed.

Lemma format_g_pos_shape P num den :
  (1 <= P)%nat -> is_decimal_real P (format_g_pos P num den).
Proof.
  intros HP. unfold format_g_pos.
  destruct (round_sig (Z.of_nat P) num den) as [D X].
  pose proof (digits_fixed P D) as Hd.
  pose proof (length_fixed_digits P D) as Hl.
  set (ds := fixed_digits P D) in *. clearbody ds.
  assert (Hcut : forall k, (length (drop_zeros (firstn k ds
                    ++ skipn 1 (fraction (skipn k ds)))) <= P)%nat).
  { intros k. etrans; [apply length_drop_zeros|].
    rewrite skipn_1_fraction, length_app.
    pose proof (length_strip0 (skipn k ds)).
    pose proof (f_equal length (firstn_skipn k ds)) as Hsplit.
    rewrite length_app in Hsplit. lia. }
  destruct ((X <? -4) || (Z.of_nat P <=? X)); [|destruct (X <? 0) eqn:HX].
  - exists (firstn 1 ds), (fraction (skipn 1 ds)), ("e"%char :: exponent X).
    split; [done|]. split; [|split; [|split; [|split]]].
    + destruct ds; [simpl in Hl; lia | done].
    + by apply Forall_take.
    + apply fraction_shape. by apply Forall_drop.
    + apply exponent_shape.
    + apply Hcut.
  - exists ["0"%char], (fraction (repeat "0"%char (Z.to_nat (- X - 1)) ++ ds)), [].
    split; [by rewrite app_nil_r|]. split; [done|]. split; [|split; [|split]].
    + by constructor.
    + apply fraction_shape, digits_app; [|done].
      apply Forall_forall. intros c Hc. apply list_elem_of_In, repeat_spec in Hc.
      by subst.
    + by left.
    + rewrite skipn_1_fraction. cbn [app drop_zeros].
      change (is_zero_char "0"%char) with true. cbv iota.
      rewrite <- Hl. apply drop_zeros_padded.
  - apply Z.ltb_ge in HX.
    exists (firstn (Z.to_nat (X + 1)) ds), (fraction (skipn (Z.to_nat (X + 1)) ds)), [].
    split; [by rewrite app_nil_r|]. split; [|split; [|split; [|split]]].
    + destruct ds; [simpl in Hl; lia|].
      destruct (Z.to_nat (X + 1)) eqn:E; [lia | done].
    + by apply Forall_take.
    + apply fraction_shape. by apply Forall_drop.
    + by left.
    + apply Hcut.
Qed.

(** The text [%.Pg] writes for a double: "nan", or a sign followed by "inf"
    or by a decimal real. *)
Lemma format_g_shape P f :
  (1 <= P)%nat ->
  format_g P f = txt "nan"
  \/ exists sgn body, format_g P f = sign_text sgn ++ body
                      /\ (body = txt "inf" \/ is_decimal_real P body).
Proof.
  intros HP. unfold format_g.
  destruct (Prim2SF f) as [s|s| |s m e]; [| |by left|]; right; exists s.
  - exists (txt "0"). split; [done|]. right.
    exists (txt "0"), [], []. split; [done|].
    split; [done|]. split; [by constructor|]. split; [by left|].
    split; [by left|]. cbn. lia.
  - exists (txt "inf"). auto.
  - eexists. split; [done|]. right.
    destruct (0 <=? e); by apply format_g_pos_shape.
Qed.

(** ** Reading back the text of numbers *)

Lemma isdigit_plain c :
  isdigit c = true ->
  isspace c = false /\ Ascii.eqb c "-"%char = false /\ Ascii.eqb c "+"%char = false
  /\ Ascii.eqb c "."%char = false /\ Ascii.eqb c "e"%char = false
  /\ Ascii.eqb c "E"%char = false /\ Ascii.eqb "i"%char c = false
  /\ Ascii.eqb "n"%char c = false.
Proof. destruct c as [[] [] [] [] [] [] [] []]; vm_compute; intros; done. Qed.

Lemma stops_newline rest : stops (newline :: rest).
Proof. by repeat split. Qed.

Lemma stops_space rest : stops (" "%char :: rest).
Proof. by repeat split. Qed.

Lemma span_digits_app ds rest :
  digits ds ->
  match rest with [] => True | c :: _ => isdigit c = false end ->
  span_digits (ds ++ rest) = (ds, rest).
Proof.
  intros Hd Hr. induction Hd as [|d ds Hd _ IH]; cbn [span_digits app].
  - destruct rest as [|c rest]; [done|]. cbn [span_digits]. by rewrite Hr.
  - by rewrite Hd, IH.
Qed.

Lemma skip_space_solid c r : isspace c = false -> skip_space (c :: r) = c :: r.
Proof. intros H. cbn [skip_space]. by rewrite H. Qed.

Lemma scan_sign_digit c r : isdigit c = true -> scan_sign (c :: r) = (false, c :: r).
Proof.
  intros H. destruct (isdigit_plain c H) as (_ & H1 & H2 & _).
  unfold scan_sign. by rewrite H1, H2.
Qed.

Lemma clamp64_small n : - 2 ^ 63 <= n < 2 ^ 63 -> clamp64 n = n.
Proof. unfold clamp64. lia. Qed.

Lemma scan_unsigned ds rest :
  digits ds -> ds <> [] -> stops rest ->
  isspace (hd " "%char (ds ++ rest)) = false
  /\ scan_sign (ds ++ rest) = (false, ds ++ rest)
  /\ span_digits (ds ++ rest) = (ds, rest).
Proof.
  intros Hd Hne Hr. destruct ds as [|d ds]; [done|].
  inversion Hd as [|? ? Hd1 _]; subst.
  split; [|split].
  - simpl. by destruct (isdigit_plain d Hd1) as (? & _).
  - by apply scan_sign_digit.
  - apply span_digits_app; [done|]. destruct rest; [done|]. by destruct Hr.
Qed.

(** [%ld] reads back what [%ld] wrote. *)
Lemma scan_ld_format_ld n rest :
  - 2 ^ 63 <= n < 2 ^ 63 -> stops rest ->
  scan_ld (format_ld n ++ rest) = Some (n, rest).
Proof.
  intros Hn Hr. unfold scan_ld, format_ld.
  destruct (n <? 0) eqn:Hneg.
  - apply Z.ltb_lt in Hneg.
    destruct (scan_unsigned (decimal (- n)) rest (digits_decimal _)
                (decimal_nonempty _) Hr) as (_ & _ & Hspan).
    rewrite <- app_comm_cons, skip_space_solid by done.
    change (scan_sign ("-"%char :: decimal (- n) ++ rest))
      with (true, decimal (- n) ++ rest).
    cbv beta iota. rewrite Hspan. pose proof (decimal_nonempty (- n)).
    destruct (decimal (- n)) eqn:E; [done|]. rewrite <- E.
    rewrite decimal_value by lia. rewrite Z.opp_involutive, clamp64_small; done.
  - apply Z.ltb_ge in Hneg.
    destruct (scan_unsigned (decimal n) rest (digits_decimal _)
                (decimal_nonempty _) Hr) as (Hsp & Hsign & Hspan).
    pose proof (decimal_nonempty n).
    destruct (decimal n) eqn:E; [done|]. rewrite <- E in *.
    assert (Hskip : skip_space (decimal n ++ rest) = decimal n ++ rest).
    { rewrite E in *. simpl in Hsp. rewrite <- app_comm_cons.
      by apply skip_space_solid. }
    rewrite Hskip, Hsign. cbv beta iota. rewrite Hspan. rewrite E at 1.
    rewrite decimal_value by lia. by rewrite clamp64_small.
Qed.

Lemma scan_mantissa_spec ip fr tail :
  digits ip -> is_fraction fr ->
  match tail with [] => True | c :: _ => isdigit c = false /\ c <> "."%char end ->
  scan_mantissa (ip ++ fr ++ tail) = (ip, skipn 1 fr, tail).
Proof.
  intros Hip [->|(fp & -> & _ & Hfp)] Ht; unfold scan_mantissa.
  - cbn [app]. rewrite span_digits_app; [|done|by destruct tail as [|c r]; [|destruct Ht]].
    destruct tail as [|c r]; [done|]. destruct Ht as [_ Hc].
    by rewrite (proj2 (Ascii.eqb_neq c "."%char) Hc).
  - rewrite <- app_comm_cons, span_digits_app by done.
    change (Ascii.eqb "."%char "."%char) with true. cbv beta iota.
    rewrite span_digits_app; [done|done|by destruct tail as [|c r]; [|destruct Ht]].
Qed.

Lemma scan_exponent_spec ex :
  is_exponent ex ->
  exists v, forall rest, stops rest -> scan_exponent (ex ++ rest) = (v, rest).
Proof.
  intros [->|(sgn & ed & -> & Hs & Hne & Hed)].
  - exists 0. intros [|c r] Hr; [done|]. destruct Hr as (_ & _ & He1 & He2).
    cbn [app scan_exponent].
    by rewrite (proj2 (Ascii.eqb_neq c "e"%char) He1),
               (proj2 (Ascii.eqb_neq c "E"%char) He2).
  - exists (if Ascii.eqb sgn "-"%char then - digits_value ed else digits_value ed).
    intros rest Hr. rewrite <- !app_comm_cons. cbn [scan_exponent].
    change (Ascii.eqb "e"%char "e"%char) with true. cbn [orb].
    assert (Hspan : span_digits (ed ++ rest) = (ed, rest)).
    { apply span_digits_app; [done|]. destruct rest; [done|]. by destruct Hr. }
    destruct ed as [|d ed]; [done|].
    destruct Hs as [-> | ->]; cbn [scan_sign Ascii.eqb Bool.eqb];
      cbv beta iota; rewrite Hspan; done.
Qed.

Lemma scan_lf_real P sgn body :
  is_decimal_real P body ->
  exists v, forall rest, stops rest ->
    scan_lf (sign_text sgn ++ body ++ rest) = Some (v, rest).
Proof.
  intros (ip & fr & ex & -> & Hne & Hip & Hfr & Hex & _).
  destruct (scan_exponent_spec ex Hex) as [ev Hev].
  exists (strtod_value sgn (digits_value (ip ++ skipn 1 fr))
                       (ev - Z.of_nat (length (skipn 1 fr)))).
  intros rest Hr.
  destruct ip as [|d ip]; [done|]. inversion Hip as [|? ? Hd Hip']; subst.
  destruct (isdigit_plain d Hd) as (Hsp & _ & _ & _ & _ & _ & Hi & Hn).
  assert (Hsign : scan_sign (skip_space (sign_text sgn ++ ((d :: ip) ++ fr ++ ex) ++ rest))
                  = (sgn, (d :: ip) ++ fr ++ ex ++ rest)).
  { rewrite <- !app_assoc. destruct sgn; cbn [sign_text app].
    - rewrite skip_space_solid by done. done.
    - rewrite skip_space_solid by done. by apply scan_sign_digit. }
  unfold scan_lf. rewrite Hsign. cbv beta iota.
  rewrite <- app_comm_cons. cbn [starts_with txt list_ascii_of_string].
  rewrite Hi, Hn. cbn [andb]. rewrite app_comm_cons.
  rewrite scan_mantissa_spec; [|done|done|].
  - cbv beta iota. rewrite <- !app_comm_cons. by rewrite (Hev rest Hr).
  - destruct Hex as [->|(sg & ed & -> & _)]; [|done].
    destruct rest as [|c r]; [done|]. by destruct Hr as (? & ? & _).
Qed.

Lemma scan_lf_inf sgn rest :
  scan_lf (sign_text sgn ++ txt "inf" ++ rest) = Some (SF2Prim (S754_infinity sgn), rest).
Proof. by destruct sgn. Qed.

Lemma scan_lf_nan rest : scan_lf (txt "nan" ++ rest) = Some (SF2Prim S754_nan, rest).
Proof. done. Qed.

(** [%lf] takes the whole text that [%.Pg] wrote, and what it yields does not
    depend on what follows. *)
Lemma scan_lf_format_g P f rest :
  (1 <= P)%nat -> stops rest ->
  scan_lf (format_g P f ++ rest) = Some (strtod (format_g P f), rest).
Proof.
  intros HP Hr.
  assert (H : exists v, forall rest, stops rest ->
                scan_lf (format_g P f ++ rest) = Some (v, rest)).
  { destruct (format_g_shape P f HP) as [->|(sgn & body & -> & [->|Hb])].
    - eexists. intros r _. apply scan_lf_nan.
    - eexists. intros r _. rewrite <- app_assoc. apply scan_lf_inf.
    - destruct (scan_lf_real P sgn body Hb) as [v Hv]. exists v.
      intros r Hs. rewrite <- app_assoc. by apply Hv. }
  destruct H as [v Hv]. rewrite (Hv rest Hr). unfold strtod.
  pose proof (Hv [] I) as H0. rewrite app_nil_r in H0. by rewrite H0.
Qed.

(** ** No white space inside a field *)

Lemma solid_app a b : solid a -> solid b -> solid (a ++ b).
Proof. intros. by apply Forall_app. Qed.

Lemma digits_solid t : digits t -> solid t.
Proof.
  intros H. eapply Forall_impl; [exact H|]. intros c Hc.
  by destruct (isdigit_plain c Hc) as (? & _).
Qed.

Lemma solid_format_ld n : solid (format_ld n).
Proof.
  unfold format_ld. destruct (n <? 0); [constructor; [done|]|];
    apply digits_solid, digits_decimal.
Qed.

Lemma solid_decimal_real P t : is_decimal_real P t -> solid t.
Proof.
  intros (ip & fr & ex & -> & _ & Hip & Hfr & Hex & _).
  apply solid_app; [by apply digits_solid|]. apply solid_app.
  - destruct Hfr as [->|(fp & -> & _ & Hfp)]; [constructor|].
    constructor; [done | by apply digits_solid].
  - destruct Hex as [->|(sgn & ed & -> & Hs & _ & Hed)]; [constructor|].
    constructor; [done|]. constructor; [by destruct Hs as [-> | ->]|].
    by apply digits_solid.
Qed.

Lemma solid_format_g P f : (1 <= P)%nat -> solid (format_g P f).
Proof.
  intros HP.
  destruct (format_g_shape P f HP) as [->|(sgn & body & -> & [->|Hb])].
  - by repeat constructor.
  - destruct sgn; by repeat constructor.
  - apply solid_app; [destruct sgn; by repeat constructor|].
    by eapply solid_decimal_real.
Qed.

Lemma solid_head t rest : solid t -> t <> [] -> skip_space (t ++ rest) = t ++ rest.
Proof.
  intros Hs Hne. destruct t as [|c t]; [done|].
  inversion Hs; subst. rewrite <- app_comm_cons. by apply skip_space_solid.
Qed.

Lemma format_ld_nonempty n : format_ld n <> [].
Proof. unfold format_ld. destruct (n <? 0); [done | apply decimal_nonempty]. Qed.

Lemma isspace_not c :
  isspace c = false ->
  Ascii.eqb c " "%char = false /\ Ascii.eqb c newline = false.
Proof. destruct c as [[] [] [] [] [] [] [] []]; vm_compute; intros; done. Qed.

Lemma count_byte_app b t1 t2 :
  count_byte b (t1 ++ t2) = (count_byte b t1 + count_byte b t2)%nat.
Proof. unfold count_byte. by rewrite filter_app, length_app. Qed.

Lemma count_byte_cons b c t :
  count_byte b (c :: t) = ((if Ascii.eqb c b then 1 else 0) + count_byte b t)%nat.
Proof.
  unfold count_byte. rewrite filter_cons. destruct (Ascii.eqb c b); by case_decide.
Qed.

Lemma count_byte_solid t :
  solid t -> count_byte " "%char t = 0%nat /\ count_byte newline t = 0%nat.
Proof.
  induction 1 as [|c t Hc _ [IH1 IH2]]; [done|].
  destruct (isspace_not c Hc) as [H1 H2].
  by rewrite !count_byte_cons, H1, H2, IH1, IH2.
Qed.

(** A line holds two spaces and one newline: its last byte. *)
Lemma match_line_bytes c i d :
  count_byte " "%char (match_line c i d) = 2%nat
  /\ count_byte newline (match_line c i d) = 1%nat.
Proof.
  unfold match_line.
  destruct (count_byte_solid _ (solid_format_ld c)) as [A1 A2].
  destruct (count_byte_solid _ (solid_format_ld i)) as [B1 B2].
  destruct (count_byte_solid _ (solid_format_g 16 d ltac:(lia))) as [C1 C2].
  rewrite !count_byte_app, !count_byte_cons, !count_byte_app, !count_byte_cons,
    !count_byte_app, A1, A2, B1, B2, C1, C2.
  done.
Qed.

Lemma count_newlines_lines ms : count_newlines (lines ms) = length ms.
Proof.
  induction ms as [|m ms IH]; [done|].
  rewrite lines_cons, count_newlines_app, IH.
  unfold count_newlines at 1.
  by rewrite (proj2 (match_line_bytes _ _ _)).
Qed.

(** ** Significant digits of the text of a double *)

Lemma mantissa_app a b :
  Forall (fun c => Ascii.eqb c "e"%char = false) a ->
  mantissa (a ++ b) = a ++ mantissa b.
Proof. induction 1 as [|c a Hc _ IH]; [done|]. cbn. by rewrite Hc, IH. Qed.

Lemma digits_no_e t : digits t -> Forall (fun c => Ascii.eqb c "e"%char = false) t.
Proof.
  intros H. eapply Forall_impl; [exact H|]. intros c Hc.
  by destruct (isdigit_plain c Hc) as (_ & _ & _ & _ & ? & _).
Qed.

Lemma filter_digits t : digits t -> List.filter isdigit t = t.
Proof. induction 1 as [|c t Hc _ IH]; [done|]. cbn. by rewrite Hc, IH. Qed.

Lemma significant_digits_real P sgn t :
  is_decimal_real P t -> (significant_digits (sign_text sgn ++ t) <= P)%nat.
Proof.
  intros (ip & fr & ex & -> & _ & Hip & Hfr & Hex & Hlen).
  unfold significant_digits.
  assert (Hm : mantissa (sign_text sgn ++ ip ++ fr ++ ex) = sign_text sgn ++ ip ++ fr).
  { rewrite !mantissa_app.
    - destruct Hex as [->|(sg & ed & -> & _)]; cbn; by rewrite ?app_nil_r.
    - destruct Hfr as [->|(fp & -> & _ & Hfp)]; [constructor|].
      constructor; [done | by apply digits_no_e].
    - by apply digits_no_e.
    - destruct sgn; by repeat constructor. }
  rewrite Hm, !List.filter_app, (filter_digits ip Hip).
  assert (Hs : List.filter isdigit (sign_text sgn) = []) by (by destruct sgn).
  assert (Hf : List.filter isdigit fr = skipn 1 fr).
  { destruct Hfr as [->|(fp & -> & _ & Hfp)]; [done|]. cbn. by apply filter_digits. }
  by rewrite Hs, Hf.
Qed.

Lemma significant_digits_format_g P f :
  (1 <= P)%nat -> (significant_digits (format_g P f) <= P)%nat.
Proof.
  intros HP.
  destruct (format_g_shape P f HP) as [->|(sgn & body & -> & [->|Hb])].
  - replace (significant_digits (txt "nan")) with 0%nat by (by vm_compute). lia.
  - replace (significant_digits (sign_text sgn ++ txt "inf")) with 0%nat
      by (by destruct sgn; vm_compute).
    lia.
  - by apply significant_digits_real.
Qed.

(** ** Reading a match file back *)

Lemma skip_space_idem s : skip_space (skip_space s) = skip_space s.
Proof.
  induction s as [|c s IH]; [done|]. cbn [skip_space].
  destruct (isspace c) eqn:E; [done|]. cbn [skip_space]. by rewrite E.
Qed.

Lemma scan_ld_skip s : scan_ld (skip_space s) = scan_ld s.
Proof. unfold scan_ld. by rewrite skip_space_idem. Qed.

Lemma scan_lf_skip s : scan_lf (skip_space s) = scan_lf s.
Proof. unfold scan_lf. by rewrite skip_space_idem. Qed.

Lemma scan_ld_space s : scan_ld (" "%char :: s) = scan_ld s.
Proof. done. Qed.

Lemma scan_lf_space s : scan_lf (" "%char :: s) = scan_lf s.
Proof. done. Qed.

Lemma match_line_app c i d rest :
  match_line c i d ++ rest
  = format_ld c ++ " "%char :: format_ld i ++ " "%char
              :: format_g 16 d ++ newline :: rest.
Proof.
  unfold match_line.
  by rewrite <- !app_assoc, <- !app_comm_cons, <- !app_assoc, <- !app_comm_cons,
    <- !app_assoc.
Qed.

(** [fscanf] on a line that [fprintf] wrote: the three fields are assigned,
    the indices as they were, the cosdist as its text reads. *)
Lemma fscanf_match_line c i d rest m0 :
  int64 c -> int64 i ->
  fscanf_match (match_line c i d ++ rest) m0
  = (3, mkMatch c i (strtod (format_g 16 d)), skip_space rest).
Proof.
  intros Hc Hi. rewrite match_line_app. unfold fscanf_match.
  rewrite (scan_ld_format_ld c _ Hc (stops_space _)).
  rewrite scan_ld_skip, scan_ld_space.
  rewrite (scan_ld_format_ld i _ Hi (stops_space _)).
  rewrite scan_lf_skip, scan_lf_space.
  rewrite (scan_lf_format_g 16 d _ ltac:(lia) (stops_newline _)).
  done.
Qed.

Lemma skip_space_lines ms : skip_space (lines ms) = lines ms.
Proof.
  destruct ms as [|m ms]; [done|]. rewrite lines_cons, match_line_app.
  apply solid_head; [apply solid_format_ld | apply format_ld_nonempty].
Qed.

Lemma load_matches_loop_lines ms : forall out,
  length out = length ms ->
  Forall (fun m => int64 (cat_ind m) /\ int64 (input_ind m)) ms ->
  load_matches_loop (lines ms) out = Some (map reread ms).
Proof.
  induction ms as [|m ms IH]; intros [|o out] Hlen Hms; try done.
  inversion Hms as [|? ? [Hc Hi] Hms']; subst.
  cbn [load_matches_loop]. rewrite lines_cons.
  rewrite (fscanf_match_line _ _ _ _ _ Hc Hi), skip_space_lines.
  change (3 =? 3) with true. cbv iota.
  rewrite IH; [done | by injection Hlen | done].
Qed.

Lemma load_matches_lines ms out :
  length out = length ms ->
  Forall (fun m => int64 (cat_ind m) /\ int64 (input_ind m)) ms ->
  PySMatchCat_load_matches (lines ms) out = Some (map reread ms).
Proof.
  intros Hlen Hms. unfold PySMatchCat_load_matches.
  destruct (Z.of_nat (length out) <=? 0) eqn:E.
  - apply Z.leb_le in E. destruct out; [|simpl in E; lia].
    by destruct ms.
  - by apply load_matches_loop_lines.
Qed.

(** ** The streaming call as a whole *)

Lemma domatch2file_all_spec
      (hpix_eq2xyz : float -> float -> option (float * float * float))
      (hpix_eq2pix : healpix -> float -> float -> option Z)
      self raObj decObj :
  exists written status n,
    domatch2file_all hpix_eq2xyz hpix_eq2pix self raObj decObj []
    = (status, (set_nmatches self n, lines written))
    /\ wrapu64 n = wrapu64 (nmatches self + Z.of_nat (length written))
    /\ (n = nmatches self \/ exists k, n = wrap64 k)
    /\ Forall (hit self) written.
Proof.
  destruct (domatch2file_all_loop hpix_eq2xyz hpix_eq2pix raObj decObj
              (seq 0 (length raObj)) self [])
    as (new & st & n & E & H).
  by exists new, st, n.
Qed.

(** X23.  Whatever the tree field holds: the file that match2file streams
    in unbounded mode holds one line per match written; read back by
    [load_matches] into an array of as many slots as the file has newlines,
    it yields the same triples in the same order, except that each cosdist
    is the double read from its 16-digit text. *)
Lemma streamed_file_read_back
        (hpix_eq2xyz : float -> float -> option (float * float * float))
        (hpix_eq2pix : healpix -> float -> float -> option Z)
        (self : PySMatchCat) (ms : Z) (raObj decObj : list float) :
  let file := (PySMatchCat_match2file hpix_eq2xyz hpix_eq2pix self 0 ms
                 raObj decObj (fopen_w true)).2.2 in
  exists written,
    file = lines written
    /\ count_newlines file = length written
    /\ forall out, length out = count_newlines file ->
         PySMatchCat_load_matches file out = Some (map reread written)
         /\ map cat_ind (map reread written) = map cat_ind written
         /\ map input_ind (map reread written) = map input_ind written
         /\ map cosdist (map reread written)
            = map (fun m => strtod (format_g 16 (cosdist m))) written.
Proof.
  cbv zeta. unfold PySMatchCat_match2file. cbn [fopen_w domatch2file].
  change (maxmatch (set_args self 0 ms) <=? 0) with true. cbv iota.
  destruct (domatch2file_all_spec hpix_eq2xyz hpix_eq2pix (set_args self 0 ms)
              raObj decObj) as (written & st & n & -> & _ & _ & Hw).
  exists written. cbn [snd]. split; [done|].
  rewrite count_newlines_lines. split; [done|].
  intros out Hlen. split; [|by rewrite !map_map].
  apply load_matches_lines; [done|].
  eapply Forall_impl; [exact Hw|]. by intros m (_ & ? & ?).
Qed.

(** ** The counter across calls *)

Lemma match_prep_set_nmatches s n :
  match_prep (set_nmatches s n) = set_nmatches (match_prep s) n.
Proof.
  unfold match_prep. change (cat (set_nmatches s n)) with (cat s).
  generalize (seq 0 (length (cat s))). intros l.
  revert s; induction l as [|i l IH]; intros s; [done|].
  cbn [fold_left]. rewrite <- IH. f_equal.
  change (maxmatch (set_nmatches s n)) with (maxmatch s).
  by destruct (maxmatch s <=? 0).
Qed.

Lemma int64_wrapu64_eq n a : int64 n -> wrapu64 n = wrapu64 a -> n = wrap64 a.
Proof.
  intros Hn H. rewrite <- (wrap64_congr _ _ H). symmetry. by apply wrap64_small.
Qed.

(** C10: a match call that builds its tree sets the counter to 0 before it
    counts: whatever the counter held, it ends as the number of matches
    that this call left in the buffers, and the call is the same from any
    earlier value (when the tree cannot be built the call fails and the
    counter is left as it was); match2file in unbounded mode adds the number
    of lines it wrote to what the counter held. *)
Theorem nmatches_reset_by_match_kept_by_match2file
        (hpix_eq2xyz : float -> float -> option (float * float * float))
        (hpix_eq2pix : healpix -> float -> float -> option Z)
        (self : PySMatchCat) (n0 mm ms : Z) (raObj decObj : list float) :
  int64 (nmatches self) ->
  let m := PySMatchCat_match hpix_eq2xyz hpix_eq2pix self mm ms raObj decObj in
  match create_hpix_tree hpix_eq2pix (hpix self) raObj decObj with
  | Some _ =>
      nmatches m.2 = wrap64 (0 + total_size (cat m.2))
      /\ PySMatchCat_match hpix_eq2xyz hpix_eq2pix (set_nmatches self n0) mm ms
           raObj decObj = m
  | None => m.1 = false /\ nmatches m.2 = nmatches self
  end
  /\ (mm <= 0 ->
      let r := PySMatchCat_match2file hpix_eq2xyz hpix_eq2pix self mm ms
                 raObj decObj (fopen_w true) in
      nmatches r.2.1 = wrap64 (nmatches self + Z.of_nat (count_newlines r.2.2))).
Proof.
  intros Hn m. split.
  - subst m. unfold PySMatchCat_match.
    change (set_args (set_nmatches self n0) mm ms)
      with (set_nmatches (set_args self mm ms) n0).
    rewrite match_prep_set_nmatches.
    destruct (match_prep_spec (set_args self mm ms)) as (Hc & _ & _ & Hh & _ & Hnm).
    set (s0 := match_prep (set_args self mm ms)) in *.
    change (hpix (set_args self mm ms)) with (hpix self) in Hh.
    destruct (create_hpix_tree hpix_eq2pix (hpix self) raObj decObj) as [t|] eqn:Ht.
    + split.
      * destruct (domatch_inv hpix_eq2xyz hpix_eq2pix
                    (fun s => nmatches s = wrap64 (total_size (cat s)))
                    (fun s i m Hi _ _ => domatch1_within_count s i m Hi)
                    s0 raObj decObj) as [_ H]; [| |exact H].
        -- change (cat (set_nmatches s0 0)) with (cat s0).
           by rewrite Hc, total_size_clear.
        -- by rewrite Hh, Ht.
      * unfold domatch.
        change (hpix (set_nmatches s0 n0)) with (hpix s0). by rewrite Hh, Ht.
    + unfold domatch. rewrite Hh, Ht. cbn [fst snd]. by rewrite Hnm.
  - intros Hmm. cbv zeta. unfold PySMatchCat_match2file. cbn [fopen_w domatch2file].
    change (maxmatch (set_args self mm ms)) with mm.
    rewrite (proj2 (Z.leb_le mm 0) Hmm).
    destruct (domatch2file_all_spec hpix_eq2xyz hpix_eq2pix (set_args self mm ms)
                raObj decObj) as (written & st & n & -> & Hw & Hr & _).
    cbn [fst snd]. rewrite count_newlines_lines.
    change (nmatches (set_nmatches (set_args self mm ms) n)) with n.
    change (nmatches (set_args self mm ms)) with (nmatches self) in *.
    apply int64_wrapu64_eq; [|done].
    destruct Hr as [->|[k ->]]; [done | apply wrap64_range].
Qed.

(** On the engine that a match with cap 2 left with [nmatches = 2]: a
    second match counts its own two matches, not four, and match2file in
    unbounded mode leaves the 2, having written no line. *)
Lemma nmatches_reset_by_match_kept_by_match2file_witness :
  nmatches (PySMatchCat_match flat_eq2xyz flat_eq2pix flat_matched 2 0
              flat_ra flat_dec).2 = 2
  /\ nmatches (PySMatchCat_match2file flat_eq2xyz flat_eq2pix flat_matched 0 0
                 flat_ra flat_dec (fopen_w true)).2.1 = 2
  /\ nmatches flat_matched = 2.
Proof.
  assert (Hn : int64 (nmatches flat_matched)) by (unfold int64; cbn; lia).
  destruct (nmatches_reset_by_match_kept_by_match2file flat_eq2xyz flat_eq2pix
              flat_matched 0 0 0 flat_ra flat_dec Hn) as [_ H2].
  destruct (nmatches_reset_by_match_kept_by_match2file flat_eq2xyz flat_eq2pix
              flat_matched 0 2 0 flat_ra flat_dec Hn) as [H1 _].
  split; [exact (proj1 H1)|]. split; [|reflexivity].
  apply H2. lia.
Defined.

(** ** The format of a line *)

(** C3, as the code has it: the file match2file leaves, on either path, is
    made of lines ["<cat_ind> <input_ind> <cosdist>\n"]; the three fields
    hold no white space, so that a line has exactly two spaces and one
    newline, its last byte; the cosdist field is written by [%.16g] and
    carries at most 16 significant digits. *)
Theorem match_file_line_format
        (hpix_eq2xyz : float -> float -> option (float * float * float))
        (hpix_eq2pix : healpix -> float -> float -> option Z)
        (self : PySMatchCat) (mm ms : Z) (raObj decObj : list float) (opened : bool) :
  (exists written,
     (PySMatchCat_match2file hpix_eq2xyz hpix_eq2pix self mm ms raObj decObj
                             (fopen_w opened)).2.2
     = lines written)
  /\ forall c i d,
       match_line c i d
       = format_ld c ++ " "%char :: format_ld i ++ " "%char
                   :: format_g 16 d ++ [newline]
       /\ solid (format_ld c) /\ solid (format_ld i) /\ solid (format_g 16 d)
       /\ count_byte " "%char (match_line c i d) = 2%nat
       /\ count_byte newline (match_line c i d) = 1%nat
       /\ (significant_digits (format_g 16 d) <= 16)%nat.
Proof.
  split.
  - destruct (domatch2file_written hpix_eq2xyz hpix_eq2pix (set_args self mm ms)
                raObj decObj opened) as (written & H & _).
    by exists written.
  - intros c i d. split; [done|].
    split; [apply solid_format_ld|]. split; [apply solid_format_ld|].
    split; [apply solid_format_g; lia|].
    split; [apply match_line_bytes|]. split; [apply match_line_bytes|].
    apply significant_digits_format_g. lia.
Qed.

Lemma float_neq (a b : float) : Prim2SF a <> Prim2SF b -> a <> b.
Proof. intros H E. apply H. by rewrite E. Qed.

(** C3 fails on the digits: written from the buffer of a bounded match, the
    cosdist 0.30000000000000004 becomes "0.3", which 17 digits would not
    give and which reads back as another double. *)
Lemma cosdist_field_has_16_digits_only :
  let r := PySMatchCat_match2file flat_eq2xyz flat_eq2pix flat_cat 1 0
             [lossy] [on_circle lossy] (fopen_w true) in
  r.1 = true
  /\ matches (entry_at r.2.1 0) = [mkMatch 0 0 lossy]
  /\ r.2.2 = txt "0 0 0.3" ++ [newline]
  /\ format_g 17 lossy = txt "0.30000000000000004"
  /\ strtod (txt "0.3") <> lossy.
Proof.
  cbv zeta. repeat split; try (vm_compute; reflexivity).
  apply float_neq. vm_compute. discriminate.
Qed.

(** ** The heap as the code builds it *)

(** C1 on the code: with [maxmatch = 2] and candidates at cosdist 0.875 then
    0.5, the buffer reaches capacity with 0.875, its largest cosdist, at
    index 0; with [maxmatch = 3] and candidates at 0.25, 0.5, 0.75 it is
    heapified to 0.5, 0.25, 0.75. *)
Lemma heapified_root_is_not_the_smallest :
  let buf := matches (entry_at
               (PySMatchCat_match flat_eq2xyz flat_eq2pix flat_cat 2 0
                  [0.875; 0.5]%float (map on_circle [0.875; 0.5]%float)).2 0) in
  map cosdist buf = [0.875; 0.5]%float
  /\ dlt (cosdist (vector_get buf 1)) (cosdist (vector_get buf 0)) = true
  /\ map cosdist (matches (entry_at
       (PySMatchCat_match flat_eq2xyz flat_eq2pix flat_cat 3 0
          [0.25; 0.5; 0.75]%float (map on_circle [0.25; 0.5; 0.75]%float)).2 0))
     = [0.5; 0.25; 0.75]%float
  /\ map cosdist (match_build_heap
                    [mkMatch 0 0 0.25; mkMatch 0 1 0.5; mkMatch 0 2 0.75])
     = [0.5; 0.25; 0.75]%float.
Proof. cbv zeta. repeat split; vm_compute; reflexivity. Qed.

(** C2 on the code: with [maxmatch = 2], the candidates 0.5, 0.75, 0.875
    leave the buffer at 0.75, 0.75, and the candidates 0.875, 0.5, 0.75 leave
    it at 0.875, 0.5; the two largest are 0.875 and 0.75. *)
Lemma capped_buffer_is_not_the_top_k :
  map cosdist (matches (entry_at
     (PySMatchCat_match flat_eq2xyz flat_eq2pix flat_cat 2 0 flat_ra flat_dec).2 0))
  = [0.75; 0.75]%float
  /\ map cosdist (matches (entry_at
       (PySMatchCat_match flat_eq2xyz flat_eq2pix flat_cat 2 0
          [0.875; 0.5; 0.75]%float
          (map on_circle [0.875; 0.5; 0.75]%float)).2 0))
     = [0.875; 0.5]%float.
Proof. split; vm_compute; reflexivity. Qed.

(** C9 on the code: the heap repair copies a slot over the root and loses the
    new match, so that the buffer holds the match of secondary 1 twice. *)
Lemma capped_buffer_repeats_a_match :
  map input_ind (matches (entry_at
     (PySMatchCat_match flat_eq2xyz flat_eq2pix flat_cat 2 0 flat_ra flat_dec).2 0))
  = [1; 1]
  /\ match_heap_insert [mkMatch 0 0 0.5; mkMatch 0 1 0.75] (mkMatch 0 2 0.875)
     = [mkMatch 0 1 0.75; mkMatch 0 1 0.75].
Proof. split; vm_compute; reflexivity. Qed.

(** ** The loops of the heap end within the fuel they are given *)

Lemma build_heap_up_fuel f1 : forall f2 data c,
  (1 <= c <= f1)%nat -> (c <= f2)%nat ->
  build_heap_up f1 data c = build_heap_up f2 data c.
Proof.
  induction f1 as [|f1 IH]; intros [|f2] data c H1 H2; try lia.
  cbn [build_heap_up].
  destruct (Nat.eqb ((c - 1) / 2) 0) eqn:E; [done|].
  apply Nat.eqb_neq in E.
  assert (((c - 1) / 2 <= c - 1)%nat)
    by (apply Nat.Div0.div_le_upper_bound; lia).
  apply IH; lia.
Qed.

Lemma heap_fix_loop_fuel f1 : forall f2 data n jhi jlo,
  (1 <= jlo)%nat -> (n + 1 - jlo <= f1)%nat -> (n + 1 - jlo <= f2)%nat ->
  heap_fix_loop f1 data n jhi jlo = heap_fix_loop f2 data n jhi jlo.
Proof.
  induction f1 as [|f1 IH]; intros [|f2] data n jhi jlo H0 H1 H2;
    cbn [heap_fix_loop]; try done.
  - destruct (jlo <=? n)%nat eqn:E; [apply Nat.leb_le in E; lia | done].
  - destruct (jlo <=? n)%nat eqn:E; [apply Nat.leb_le in E; lia | done].
  - destruct (jlo <=? n)%nat eqn:E; [|done]. apply Nat.leb_le in E.
    destruct (dle _ _); [done|].
    destruct ((jlo <? n)%nat && _); apply IH; lia.
Qed.

(** More fuel than [match_build_heap] and [match_heap_fix] give their loops
    changes nothing: the loops have ended. *)
Lemma heap_loops_end (data : match_vector) (i k : nat) :
  (1 <= i)%nat ->
  build_heap_up (i + k) data i = build_heap_up i data i
  /\ heap_fix_loop (length data + k) data (length data - 1) 0 1
     = heap_fix_loop (length data) data (length data - 1) 0 1.
Proof.
  intros Hi. split.
  - apply build_heap_up_fuel; lia.
  - apply heap_fix_loop_fuel; lia.
Qed.

(** ** An engine fresh from [PySMatchCat_init] *)

Lemma domatch1_2file_no_tree
      (hpix_eq2xyz : float -> float -> option (float * float * float))
      (hpix_eq2pix : healpix -> float -> float -> option Z)
      self ra dec j fobj :
  tree self = NULL ->
  (domatch1_2file hpix_eq2xyz hpix_eq2pix self ra dec j fobj).2 = (fobj, 0).
Proof.
  intros Ht. unfold domatch1_2file. rewrite Ht.
  by destruct (hpix_eq2pix _ _ _).
Qed.

Lemma domatch2file_all_no_tree
      (hpix_eq2xyz : float -> float -> option (float * float * float))
      (hpix_eq2pix : healpix -> float -> float -> option Z)
      self raObj decObj fobj :
  tree self = NULL -> int64 (nmatches self) ->
  (domatch2file_all hpix_eq2xyz hpix_eq2pix self raObj decObj fobj).2 = (self, fobj).
Proof.
  intros Ht Hn. unfold domatch2file_all.
  destruct (seq 0 (length raObj)) as [|i0 l0]; [done|].
  unfold for_each_from. generalize (i0 :: l0). clear i0 l0. intros l.
  induction l as [|i l IH]; [done|]. cbn [for_each].
  pose proof (domatch1_2file_no_tree hpix_eq2xyz hpix_eq2pix self
                (PyArray_GETPTR1 raObj i) (PyArray_GETPTR1 decObj i) i fobj Ht) as H.
  destruct (domatch1_2file _ _ _ _ _ _ _) as [[|] [f incr]];
    injection H as -> ->; [|done].
  rewrite Z.add_0_r, wrap64_small by exact Hn.
  replace (set_nmatches self (nmatches self)) with self by (by destruct self).
  exact IH.
Qed.

(** [PySMatchCat_init] leaves the tree of the engine empty and nothing in
    this file fills it: on an engine fresh from it, match2file in unbounded
    mode writes an empty file and leaves the counter at 0. *)
Theorem fresh_engine_streams_nothing
        (hpix_eq2xyz : float -> float -> option (float * float * float))
        (hpix_eq2pix : healpix -> float -> float -> option Z)
        (hp : healpix) (c : Catalog) (ms : Z) (raObj decObj : list float) :
  let r := PySMatchCat_match2file hpix_eq2xyz hpix_eq2pix (PySMatchCat_init hp c)
             0 ms raObj decObj (fopen_w true) in
  r.2.2 = [] /\ nmatches r.2.1 = 0 /\ cat r.2.1 = c.
Proof.
  cbv zeta. unfold PySMatchCat_match2file. cbn [fopen_w domatch2file].
  change (maxmatch (set_args (PySMatchCat_init hp c) 0 ms) <=? 0) with true.
  cbv iota.
  rewrite domatch2file_all_no_tree; [done|done|].
  unfold int64. simpl. lia.
Qed.

(** [domatch] enters [create_hpix_tree] with status 0, and only a secondary
    point sets it: a match call on empty arrays fails, after [match_prep]
    emptied the buffers, and leaves the counter as it was. *)
Theorem match_of_nothing_fails
        (hpix_eq2xyz : float -> float -> option (float * float * float))
        (hpix_eq2pix : healpix -> float -> float -> option Z)
        (self : PySMatchCat) (mm ms : Z) :
  let r := PySMatchCat_match hpix_eq2xyz hpix_eq2pix self mm ms [] [] in
  r.1 = false /\ nmatches r.2 = nmatches self
  /\ Forall (fun e => matches e = []) (cat r.2).
Proof.
  cbv zeta. unfold PySMatchCat_match, domatch, create_hpix_tree.
  cbn [length seq for_each_from fst snd].
  destruct (match_prep_spec (set_args self mm ms)) as (Hc & _ & _ & _ & _ & Hn).
  split; [done|]. split; [done|].
  rewrite Hc. apply Forall_fmap, Forall_forall. by intros e _.
Qed.

(** ** Each secondary point is visited once *)

Lemma tree_find_insert t k i k' :
  tree_find (tree_insert t k i) k'
  = if Z.eq_dec k' k then Some (default [] (tree_find t k) ++ [i])
    else tree_find t k'.
Proof.
  induction t as [|k0 ix l IHl r IHr]; cbn [tree_insert tree_find].
  - destruct (Z.eq_dec k' k) as [->|Hne].
    + by rewrite Z.ltb_irrefl.
    + destruct (Z.ltb_spec k' k); [done|].
      destruct (Z.ltb_spec k k'); [done | lia].
  - destruct (Z.ltb_spec k k0) as [H1|H1]; [|destruct (Z.ltb_spec k0 k) as [H2|H2]];
      cbn [tree_find].
    + destruct (Z.ltb_spec k' k0) as [H3|H3].
      * rewrite IHl. by destruct (Z.eq_dec k' k).
      * destruct (Z.eq_dec k' k); [lia | done].
    + destruct (Z.ltb_spec k' k0) as [H3|H3].
      * destruct (Z.eq_dec k' k); [lia | done].
      * destruct (Z.ltb_spec k0 k') as [H4|H4].
        -- rewrite IHr. by destruct (Z.eq_dec k' k).
        -- destruct (Z.eq_dec k' k); [lia | done].
    + assert (k = k0) by lia. subst k0.
      destruct (Z.eq_dec k' k) as [->|Hne].
      * by rewrite Z.ltb_irrefl.
      * destruct (Z.ltb_spec k' k); [done|].
        destruct (Z.ltb_spec k k'); [done | lia].
Qed.

Lemma for_each_app {A S : Type} (body : S -> A -> bool * S) l1 l2 s :
  for_each body (l1 ++ l2) s
  = let '(status, s') := for_each body l1 s in
    if status then for_each body l2 s' else (false, s').
Proof.
  revert s; induction l1 as [|a l1 IH]; intros s; cbn [for_each app]; [done|].
  destruct (body s a) as [[|] s']; [apply IH | done].
Qed.

Section Visits.

Variable hpix_eq2xyz : float -> float -> option (float * float * float).
Variable hpix_eq2pix : healpix -> float -> float -> option Z.
Variable hp : healpix.
Variables raObj decObj : list float.

(** Every index in the node of key [k] is a secondary point below [j] whose
    pixel has that key, and a node holds no index twice. *)
Let filed (j : nat) (t : tree_node) : Prop :=
  forall k ix, tree_find t k = Some ix ->
    NoDup ix /\
    forall i, i ∈ ix ->
      exists n, i = Z.of_nat n /\ (n < j)%nat
                /\ hpix_eq2pix hp (PyArray_GETPTR1 raObj n) (PyArray_GETPTR1 decObj n)
                   = Some (k + npix hp ÷ 2).

Lemma filed_insert j t hpixid :
  filed j t ->
  hpix_eq2pix hp (PyArray_GETPTR1 raObj j) (PyArray_GETPTR1 decObj j) = Some hpixid ->
  filed (S j) (tree_insert t (hpixid - npix hp ÷ 2) (Z.of_nat j)).
Proof.
  intros Ht Hj k ix. rewrite tree_find_insert.
  destruct (Z.eq_dec k (hpixid - npix hp ÷ 2)) as [->|Hne].
  - intros [= <-].
    assert (Hold : NoDup (default [] (tree_find t (hpixid - npix hp ÷ 2)))
                   /\ forall i, i ∈ default [] (tree_find t (hpixid - npix hp ÷ 2)) ->
                        exists n, i = Z.of_nat n /\ (n < j)%nat
                          /\ hpix_eq2pix hp (PyArray_GETPTR1 raObj n)
                               (PyArray_GETPTR1 decObj n)
                             = Some (hpixid - npix hp ÷ 2 + npix hp ÷ 2)).
    { destruct (tree_find t (hpixid - npix hp ÷ 2)) as [ix|] eqn:E.
      - by apply Ht.
      - split; [constructor|]. intros i Hi. by apply elem_of_nil in Hi. }
    destruct Hold as [Hnd Hin]. split.
    + apply NoDup_app. split; [done|]. split; [|apply NoDup_singleton].
      intros i Hi Hi'. apply list_elem_of_singleton in Hi'. subst i.
      destruct (Hin _ Hi) as (n & Hn & Hlt & _). lia.
    + intros i Hi. apply elem_of_app in Hi as [Hi|Hi].
      * destruct (Hin _ Hi) as (n & Hn & Hlt & He). exists n. repeat split; [done|lia|done].
      * apply list_elem_of_singleton in Hi. subst i. exists j.
        repeat split; [lia|]. rewrite Hj. f_equal. lia.
  - intros Hf. destruct (Ht _ _ Hf) as [Hnd Hin]. split; [done|].
    intros i Hi. destruct (Hin _ Hi) as (n & Hn & Hlt & He).
    exists n. repeat split; [done|lia|done].
Qed.

Lemma filed_loop len : forall j t status tree,
  filed j t ->
  for_each
    (fun tree i =>
       match hpix_eq2pix hp (PyArray_GETPTR1 raObj i) (PyArray_GETPTR1 decObj i) with
       | None => (false, tree)
       | Some hpixid => (true, tree_insert tree (hpixid - npix hp ÷ 2) (Z.of_nat i))
       end)
    (seq j len) t = (status, tree) ->
  status = true -> filed (j + len) tree.
Proof.
  induction len as [|len IH]; intros j t status tree Ht E Hs; cbn [seq for_each] in E.
  - injection E as _ <-. by rewrite Nat.add_0_r.
  - destruct (hpix_eq2pix hp _ _) as [hpixid|] eqn:Hj; [|by injection E as <-; subst].
    rewrite <- Nat.add_succ_comm. eapply IH; [|exact E|done].
    by apply filed_insert.
Qed.

Lemma create_hpix_tree_filed tree :
  create_hpix_tree hpix_eq2pix hp raObj decObj = Some tree ->
  filed (length raObj) tree.
Proof.
  unfold create_hpix_tree, for_each_from.
  destruct (seq 0 (length raObj)) as [|i0 l0] eqn:El; [done|]. rewrite <- El.
  destruct (for_each _ _ _) as [status t] eqn:E.
  destruct status; [|done]. intros [= <-].
  apply (filed_loop (length raObj) 0 NULL true t); [|done|done].
  intros k ix Hf. done.
Qed.

Lemma visited_NoDup j tree pixels :
  filed j tree -> NoDup pixels -> NoDup (visited tree (npix hp ÷ 2) pixels).
Proof.
  intros Ht. induction 1 as [|pix pixels Hnotin Hnd IH]; [constructor|].
  unfold visited. cbn [map concat]. fold (visited tree (npix hp ÷ 2) pixels).
  apply NoDup_app. split; [|split; [|done]].
  - destruct (tree_find tree (pix - npix hp ÷ 2)) as [ix|] eqn:E; [|constructor].
    by apply (Ht _ _ E).
  - intros i Hi Hi'.
    destruct (tree_find tree (pix - npix hp ÷ 2)) as [ix|] eqn:E;
      [|by apply elem_of_nil in Hi].
    destruct (proj2 (Ht _ _ E) _ Hi) as (n & -> & _ & He).
    unfold visited in Hi'. apply list_elem_of_In, in_concat in Hi' as (ix' & Hix' & Hin').
    apply list_elem_of_In in Hin'.
    apply in_map_iff in Hix' as (pix' & <- & Hpix'). apply list_elem_of_In in Hpix'.
    destruct (tree_find tree (pix' - npix hp ÷ 2)) as [ix''|] eqn:E';
      [|by apply elem_of_nil in Hin'].
    destruct (proj2 (Ht _ _ E') _ Hin') as (n' & Hn' & _ & He').
    apply Nat2Z.inj in Hn'. subst n'. rewrite He in He'.
    assert (pix = pix') by (injection He'; lia). by subst.
Qed.

(** [domatch1] offers to the entry the secondary points [visited], each
    through one turn of its inner loop. *)
Lemma domatch1_visits tree cat_ind pixels : forall self,
  hpix self = hp ->
  for_each (domatch1_pixel hpix_eq2xyz tree cat_ind raObj decObj) pixels self
  = for_each (domatch1_index hpix_eq2xyz cat_ind raObj decObj)
             (visited tree (npix hp ÷ 2) pixels) self.
Proof.
  induction pixels as [|pix pixels IH]; intros self Hh; [done|].
  unfold visited. cbn [map concat for_each].
  fold (visited tree (npix hp ÷ 2) pixels). rewrite for_each_app.
  unfold domatch1_pixel at 1. rewrite Hh.
  destruct (tree_find tree (pix - npix hp ÷ 2)) as [ix|];
    cbn [default from_option id for_each].
  - pose proof (for_each_inv (fun s => hpix s = hp)
                  (domatch1_index hpix_eq2xyz cat_ind raObj decObj) ix self Hh) as Hinv.
    destruct (for_each _ ix self) as [[|] s']; [|done].
    apply IH, Hinv. intros s a _ Hs. unfold domatch1_index.
    destruct (hpix_eq2xyz _ _) as [[[x1 y1] z1]|]; [|done].
    destruct (dgt _ _); [|done]. cbn [snd].
    by destruct (domatch1_within_frame s cat_ind
                   (mkMatch (Z.of_nat cat_ind) a
                      (dot (point (entry_at s cat_ind)) x1 y1 z1))) as (_ & _ & -> & _).
  - by apply IH.
Qed.

End Visits.

(** The part of C9 that the code keeps: when the disc pixels of an entry
    are distinct, the secondary indices that [domatch1] visits for it hold no
    index twice, so that no pair is tested twice in a match call. *)
Theorem each_pair_is_tested_once
        (hpix_eq2xyz : float -> float -> option (float * float * float))
        (hpix_eq2pix : healpix -> float -> float -> option Z)
        (self : PySMatchCat) (raObj decObj : list float) (tree : tree_node)
        (cat_ind : nat) :
  create_hpix_tree hpix_eq2pix (hpix self) raObj decObj = Some tree ->
  NoDup (disc_pixels (entry_at self cat_ind)) ->
  let tested := visited tree (npix (hpix self) ÷ 2)
                        (disc_pixels (entry_at self cat_ind)) in
  NoDup tested
  /\ domatch1 hpix_eq2xyz self tree cat_ind raObj decObj
     = for_each (domatch1_index hpix_eq2xyz cat_ind raObj decObj) tested self.
Proof.
  intros Ht Hnd. split.
  - eapply visited_NoDup; [|done]. by eapply create_hpix_tree_filed.
  - by apply domatch1_visits.
Qed.

Lemma each_pair_is_tested_once_witness :
  NoDup (visited flat_tree (npix (hpix flat_cat) ÷ 2)
                 (disc_pixels (entry_at flat_cat 0))).
Proof.
  refine (proj1 (each_pair_is_tested_once flat_eq2xyz flat_eq2pix flat_cat
                   flat_ra flat_dec flat_tree 0 _ _)).
  - vm_compute. reflexivity.
  - apply NoDup_singleton.
Defined.

(** ** The heap routines on a buffer *)

Lemma vector_get_lookup (data : match_vector) i :
  (i < length data)%nat -> data !! i = Some (vector_get data i).
Proof.
  intros Hi. destruct (lookup_lt_is_Some_2 data i Hi) as [m Hm].
  rewrite Hm. f_equal. symmetry. by apply nth_lookup_Some.
Qed.

Lemma insert_Permutation_cons {A : Type} (l : list A) : forall j (a b : A),
  l !! j = Some b -> b :: <[j := a]> l ≡ₚ a :: l.
Proof.
  induction l as [|c l IH]; intros [|j] a b Hj; try done.
  - injection Hj as ->. apply perm_swap.
  - cbn in Hj. change (<[S j := a]> (c :: l)) with (c :: <[j := a]> l).
    rewrite perm_swap, (IH j a b Hj). apply perm_swap.
Qed.

Lemma swap_Permutation {A : Type} (l : list A) : forall i j (a b : A),
  l !! i = Some a -> l !! j = Some b -> <[j := a]> (<[i := b]> l) ≡ₚ l.
Proof.
  induction l as [|c l IH]; intros [|i] [|j] a b Hi Hj; try done.
  - injection Hi as ->. by injection Hj as ->.
  - injection Hi as ->. cbn in Hj.
    change (<[S j := a]> (<[0%nat := b]> (a :: l))) with (b :: <[j := a]> l).
    by apply insert_Permutation_cons.
  - injection Hj as ->. cbn in Hi.
    change (<[0%nat := a]> (<[S i := b]> (b :: l))) with (a :: <[i := b]> l).
    by apply insert_Permutation_cons.
  - cbn in Hi, Hj.
    change (<[S j := a]> (<[S i := b]> (c :: l))) with (c :: <[j := a]> (<[i := b]> l)).
    by rewrite (IH i j a b Hi Hj).
Qed.

Lemma build_heap_up_Permutation fuel : forall (data : match_vector) c,
  (c < length data)%nat -> build_heap_up fuel data c ≡ₚ data.
Proof.
  induction fuel as [|fuel IH]; intros data c Hc; cbn [build_heap_up]; [done|].
  pose proof (Nat.Div0.mul_div_le (c - 1) 2) as Hp.
  set (parent := ((c - 1) / 2)%nat) in *.
  assert (Hswap : <[c := vector_get data parent]> (<[parent := vector_get data c]> data)
                  ≡ₚ data).
  { apply swap_Permutation; apply vector_get_lookup; lia. }
  destruct (dlt _ _).
  - destruct (Nat.eqb parent 0); [done|].
    rewrite IH; [done|]. rewrite !length_insert. lia.
  - destruct (Nat.eqb parent 0); [done|]. apply IH. lia.
Qed.

Lemma dgt_trans a b c : dgt a b = true -> dgt b c = true -> dgt a c = true.
Proof.
  unfold dgt. rewrite !ltb_spec. unfold SFltb, SFcompare.
  destruct (Prim2SF a) as [[|]|[|]| |[|] ma ea],
           (Prim2SF b) as [[|]|[|]| |[|] mb eb],
           (Prim2SF c) as [[|]|[|]| |[|] mc ec]; try done;
    destruct (Z.compare_spec eb ea), (Z.compare_spec ec eb), (Z.compare_spec ec ea);
    cbn [CompOpp]; try done; try lia; subst;
    rewrite ?Pos.compare_cont_spec; cbn [Pos.switch_Eq CompOpp];
    destruct (Pos.compare_spec mb ma), (Pos.compare_spec mc mb), (Pos.compare_spec mc ma);
    cbn [CompOpp]; try done; lia.
Qed.

Lemma match_build_heap_Permutation (self : match_vector) :
  match_build_heap self ≡ₚ self.
Proof.
  unfold match_build_heap. destruct (length self <=? 1)%nat; [done|].
  assert (H : forall l (data : match_vector),
             data ≡ₚ self -> Forall (fun i => i < length self)%nat l ->
             fold_left (fun data i => build_heap_up i data i) l data ≡ₚ self).
  { induction l as [|i l IH]; intros data Hd Hl; [done|]. cbn [fold_left].
    apply Forall_cons in Hl as [Hi Hl]. apply IH; [|done].
    rewrite build_heap_up_Permutation; [done|].
    by rewrite (Permutation_length Hd). }
  apply H; [done|]. apply Forall_forall. intros i Hi.
  apply elem_of_seq in Hi. lia.
Qed.

(** X4.  [match_build_heap] only exchanges slots: the buffer it leaves holds
    the matches it was given, each as often as before, whatever their order
    and their cosdist values (NaN included). *)
Theorem match_build_heap_permutes (self : match_vector) (m : Match) :
  match_build_heap self ≡ₚ self
  /\ (m ∈ match_build_heap self <-> m ∈ self).
Proof.
  pose proof (match_build_heap_Permutation self) as Hp.
  split; [done|]. by rewrite Hp.
Qed.

(** ** What a candidate does to a buffer *)

Lemma domatch1_within_accumulate s i m :
  let old := matches (entry_at s i) in
  domatch1_within s i m
  = set_matches
      (set_nmatches s
         (if (maxmatch s <=? 0) || (Z.of_nat (length old) <? maxmatch s)
          then wrap64 (nmatches s + 1) else nmatches s))
      i (accumulate (maxmatch s) old m).
Proof.
  intros old. unfold domatch1_within, accumulate. fold old.
  destruct ((maxmatch s <=? 0) || (Z.of_nat (length old) <? maxmatch s)).
  - change (maxmatch (set_nmatches s (wrap64 (nmatches s + 1)))) with (maxmatch s).
    by destruct ((1 <? maxmatch s) && _).
  - by destruct s.
Qed.

Lemma accumulate_unbounded mm (ms v : match_vector) :
  mm <= 0 -> fold_left (accumulate mm) ms v = v ++ ms.
Proof.
  intros Hmm. revert v. induction ms as [|m ms IH]; intros v; cbn [fold_left].
  - by rewrite app_nil_r.
  - rewrite IH. unfold accumulate.
    destruct (Z.leb_spec mm 0); [|lia]. cbn [orb].
    destruct (Z.ltb_spec 1 mm); [lia|]. cbn [andb].
    unfold vector_push. by rewrite <- app_assoc.
Qed.

Lemma accumulate_below mm (ms v : match_vector) :
  Z.of_nat (length v + length ms) < mm -> fold_left (accumulate mm) ms v = v ++ ms.
Proof.
  revert v. induction ms as [|m ms IH]; intros v Hl; cbn [fold_left].
  - by rewrite app_nil_r.
  - cbn [length] in Hl. unfold accumulate at 2.
    destruct (Z.ltb_spec (Z.of_nat (length v)) mm); [|lia]. rewrite orb_true_r.
    unfold vector_push. rewrite length_app. cbn [length].
    destruct (Z.eqb_spec (Z.of_nat (length v + 1)) mm); [lia|]. rewrite andb_false_r.
    rewrite IH; [by rewrite <- app_assoc|]. rewrite length_app. cbn [length]. lia.
Qed.

Lemma accumulate_fits mm (ms v : match_vector) :
  Z.of_nat (length v + length ms) <= mm -> fold_left (accumulate mm) ms v ≡ₚ v ++ ms.
Proof.
  revert v. induction ms as [|m ms IH]; intros v Hl; cbn [fold_left].
  - by rewrite app_nil_r.
  - cbn [length] in Hl.
    assert (Hstep : accumulate mm v m ≡ₚ v ++ [m]
                    /\ length (accumulate mm v m) = S (length v)).
    { unfold accumulate.
      destruct (Z.ltb_spec (Z.of_nat (length v)) mm); [|lia]. rewrite orb_true_r.
      unfold vector_push. destruct (_ && _).
      - split; [apply match_build_heap_Permutation|].
        rewrite length_match_build_heap, length_app. cbn [length]. lia.
      - split; [done|]. rewrite length_app. cbn [length]. lia. }
    destruct Hstep as [Hp Hlen]. rewrite IH; [|lia].
    rewrite Hp. by rewrite <- app_assoc.
Qed.

Lemma accumulate_closest (ms : match_vector) : forall m0 seen,
  m0 ∈ seen ->
  Forall (fun m' => dgt (cosdist m') (cosdist m0) = false) seen ->
  exists m, fold_left (accumulate 1) ms [m0] = [m] /\ m ∈ seen ++ ms
            /\ Forall (fun m' => dgt (cosdist m') (cosdist m) = false) (seen ++ ms).
Proof.
  induction ms as [|n ms IH]; intros m0 seen Hin Hall; cbn [fold_left].
  - exists m0. rewrite app_nil_r. done.
  - assert (Hstep : accumulate 1 [m0] n
                    = if dgt (cosdist n) (cosdist m0) then [n] else [m0]).
    { unfold accumulate, match_heap_insert. cbn [length vector_get nth].
      change ((1 <=? 0) || (Z.of_nat 1 <? 1)) with false. cbv iota.
      by destruct (dgt _ _). }
    rewrite Hstep. destruct (dgt (cosdist n) (cosdist m0)) eqn:Hn.
    + destruct (IH n (seen ++ [n])) as (m & Hm & Hmin & Hmall).
      * apply elem_of_app. right. by apply list_elem_of_singleton.
      * apply Forall_app. split; [|constructor; [apply dgt_irrefl|constructor]].
        eapply Forall_impl; [exact Hall|]. intros p Hp. cbv beta in Hp |- *.
        destruct (dgt (cosdist p) (cosdist n)) eqn:Hpn; [|done].
        by rewrite (dgt_trans _ _ _ Hpn Hn) in Hp.
      * exists m. by rewrite <- app_assoc in Hmin, Hmall.
    + destruct (IH m0 (seen ++ [n])) as (m & Hm & Hmin & Hmall).
      * apply elem_of_app. by left.
      * apply Forall_app. split; [done|]. by constructor.
      * exists m. by rewrite <- app_assoc in Hmin, Hmall.
Qed.

Lemma accumulate_one (ms : match_vector) :
  match fold_left (accumulate 1) ms [] with
  | [] => ms = []
  | [m] => m ∈ ms /\ Forall (fun m' => dgt (cosdist m') (cosdist m) = false) ms
  | _ => False
  end.
Proof.
  destruct ms as [|m0 ms]; [done|]. cbn [fold_left].
  change (accumulate 1 [] m0) with [m0].
  destruct (accumulate_closest ms m0 [m0]) as (m & -> & Hin & Hall).
  - by apply list_elem_of_singleton.
  - constructor; [apply dgt_irrefl | constructor].
  - done.
Qed.

(** ** A match call, buffer by buffer *)

Lemma for_each_seq_inv {St : Type} (P : nat -> St -> Prop) (body : St -> nat -> bool * St)
      len : forall j s s',
  P j s ->
  (forall i s s1, (j <= i < j + len)%nat -> P i s -> body s i = (true, s1) -> P (S i) s1) ->
  for_each body (seq j len) s = (true, s') -> P (j + len)%nat s'.
Proof.
  induction len as [|len IH]; intros j s s' Hs Hstep E; cbn [seq for_each] in E.
  - injection E as <-. by rewrite Nat.add_0_r.
  - destruct (body s j) as [[|] s1] eqn:Hb; [|done].
    rewrite <- Nat.add_succ_comm. apply (IH (S j) s1 s'); [|..|done].
    + apply (Hstep j s s1); [lia|done|done].
    + intros i t t1 Hi. apply Hstep. lia.
Qed.

Lemma entry_eta (e : CatalogEntry) : mkEntry (point e) (disc_pixels e) (matches e) = e.
Proof. by destruct e. Qed.

Lemma entry_at_Some s i : (i < length (cat s))%nat -> cat s !! i = Some (entry_at s i).
Proof.
  intros Hi. destruct (lookup_lt_is_Some_2 (cat s) i Hi) as [e He].
  by rewrite (entry_at_lookup s i e He).
Qed.

Lemma entry_at_set_matches s i v :
  (i < length (cat s))%nat ->
  entry_at (set_matches s i v) i
  = mkEntry (point (entry_at s i)) (disc_pixels (entry_at s i)) v.
Proof.
  intros Hi. apply entry_at_lookup. rewrite cat_set_matches.
  by apply list_lookup_insert_eq.
Qed.

Section Buffers.

Variable hpix_eq2xyz : float -> float -> option (float * float * float).
Variable hpix_eq2pix : healpix -> float -> float -> option Z.
Variables raObj decObj : list float.

(** The loop over the indices of a node offers its candidates to the buffer
    and touches nothing else of the catalog. *)
Lemma domatch1_index_loop i js : forall s s',
  (i < length (cat s))%nat ->
  for_each (domatch1_index hpix_eq2xyz i raObj decObj) js s = (true, s') ->
  cat s' = <[i := mkEntry (point (entry_at s i)) (disc_pixels (entry_at s i))
                   (fold_left (accumulate (maxmatch s))
                      (offered hpix_eq2xyz (point (entry_at s i)) i raObj decObj js)
                      (matches (entry_at s i)))]> (cat s)
  /\ maxmatch s' = maxmatch s /\ hpix s' = hpix s.
Proof.
  induction js as [|j js IH]; intros s s' Hi E; cbn [for_each] in E.
  - injection E as <-. cbn [offered flat_map fold_left]. rewrite entry_eta.
    split; [|done]. symmetry. by apply list_insert_id, entry_at_Some.
  - unfold domatch1_index at 1 in E. cbn [offered flat_map].
    destruct (hpix_eq2xyz _ _) as [[[x1 y1] z1]|]; [|done].
    destruct (dgt _ _).
    + rewrite domatch1_within_accumulate in E.
      set (n := if _ : bool then _ else nmatches s) in E.
      set (v := accumulate _ _ _) in E.
      apply IH in E; [|by rewrite cat_set_matches, length_insert].
      rewrite entry_at_set_matches in E by done. cbn [point disc_pixels matches] in E.
      rewrite cat_set_matches in E. cbn [set_nmatches cat] in E.
      change (entry_at (set_nmatches s n) i) with (entry_at s i) in E.
      rewrite list_insert_insert_eq in E.
      change (maxmatch (set_matches (set_nmatches s n) i v)) with (maxmatch s) in E.
      change (hpix (set_matches (set_nmatches s n) i v)) with (hpix s) in E.
      cbn [app fold_left]. exact E.
    + cbn [app]. by apply IH.
Qed.

Lemma domatch1_buffer tree i s s' :
  (i < length (cat s))%nat ->
  domatch1 hpix_eq2xyz s tree i raObj decObj = (true, s') ->
  cat s' = <[i := mkEntry (point (entry_at s i)) (disc_pixels (entry_at s i))
                   (fold_left (accumulate (maxmatch s))
                      (offered hpix_eq2xyz (point (entry_at s i)) i raObj decObj
                         (visited tree (npix (hpix s) ÷ 2) (disc_pixels (entry_at s i))))
                      (matches (entry_at s i)))]> (cat s)
  /\ maxmatch s' = maxmatch s /\ hpix s' = hpix s.
Proof.
  intros Hi E. unfold domatch1 in E.
  rewrite (domatch1_visits hpix_eq2xyz (hpix s) raObj decObj) in E by done.
  by apply domatch1_index_loop.
Qed.

(** The loop of [domatch] over the catalog, entered with empty buffers. *)
Lemma domatch_loop_buffers tree (c0 : Catalog) mm hp s s' :
  cat s = map clear_entry c0 -> maxmatch s = mm -> hpix s = hp ->
  for_each (fun s i => domatch1 hpix_eq2xyz s tree i raObj decObj)
           (seq 0 (length c0)) s = (true, s') ->
  length (cat s') = length c0
  /\ forall i e, c0 !! i = Some e ->
       cat s' !! i = Some (matched hpix_eq2xyz mm tree (npix hp ÷ 2) raObj decObj i e).
Proof.
  intros Hc Hmm Hhp E.
  pose (P := fun (j : nat) (t : PySMatchCat) =>
     length (cat t) = length c0 /\ maxmatch t = mm /\ hpix t = hp
     /\ forall i e, c0 !! i = Some e ->
          cat t !! i
          = Some (if (i <? j)%nat
                  then matched hpix_eq2xyz mm tree (npix hp ÷ 2) raObj decObj i e
                  else clear_entry e)).
  assert (HP : P (0 + length c0)%nat s').
  { apply (for_each_seq_inv P (fun s i => domatch1 hpix_eq2xyz s tree i raObj decObj)
             (length c0) 0 s s'); [| |exact E].
    - split; [by rewrite Hc, length_map|]. split; [done|]. split; [done|].
      intros i e He. rewrite Hc, list_lookup_fmap, He. done.
    - intros i t t1 Hi (Hlen & Hm & Hh & Hall) Ht.
      apply domatch1_buffer in Ht as (Hcat & Hm1 & Hh1); [|lia].
      destruct (lookup_lt_is_Some_2 c0 i) as [e He]; [lia|].
      pose proof (Hall i e He) as Hie. rewrite Nat.ltb_irrefl in Hie.
      rewrite (entry_at_lookup t i _ Hie) in Hcat.
      cbn [clear_entry point disc_pixels matches] in Hcat.
      rewrite Hm, Hh in Hcat.
      split; [by rewrite Hcat, length_insert|]. split; [congruence|].
      split; [congruence|]. intros k e' Hk. rewrite Hcat.
      destruct (decide (i = k)) as [<-|Hne].
      + rewrite list_lookup_insert_eq by lia.
        assert (e' = e) by congruence. subst e'.
        destruct (Nat.ltb_spec i (S i)); [done|lia].
      + rewrite list_lookup_insert_ne by done. rewrite (Hall k e' Hk).
        destruct (Nat.ltb_spec k i), (Nat.ltb_spec k (S i)); try done; lia. }
  destruct HP as (Hlen & _ & _ & Hall). split; [done|].
  intros i e He. rewrite (Hall i e He).
  apply lookup_lt_Some in He. destruct (Nat.ltb_spec i (0 + length c0)); [done|lia].
Qed.

(** A successful match call leaves in every entry the buffer [matched]. *)
Lemma match_buffers self mm ms tree s' :
  create_hpix_tree hpix_eq2pix (hpix self) raObj decObj = Some tree ->
  PySMatchCat_match hpix_eq2xyz hpix_eq2pix self mm ms raObj decObj = (true, s') ->
  length (cat s') = length (cat self)
  /\ forall i e, cat self !! i = Some e ->
       cat s' !! i
       = Some (matched hpix_eq2xyz mm tree (npix (hpix self) ÷ 2) raObj decObj i e).
Proof.
  intros Ht E. unfold PySMatchCat_match, domatch in E.
  destruct (match_prep_spec (set_args self mm ms)) as (Hc & Hm & _ & Hh & _ & _).
  cbn [set_args cat maxmatch hpix] in Hc, Hm, Hh.
  rewrite Hh, Ht in E. cbn [set_nmatches cat] in E.
  rewrite Hc, length_map in E.
  by apply (domatch_loop_buffers tree (cat self) mm (hpix self)) in E.
Qed.

End Buffers.

(** X5.  A successful match call with no cap ([maxmatch <= 0]) leaves in the
    buffer of every entry exactly its candidates: the secondary points filed
    under its disc pixels that lie strictly inside its cap, each with its
    cosdist, in the order of the disc pixels and of the indices in their
    nodes.  Point and disc pixels of the entry are kept. *)
Theorem unbounded_match_collects_the_candidates
        (hpix_eq2xyz : float -> float -> option (float * float * float))
        (hpix_eq2pix : healpix -> float -> float -> option Z)
        (self self' : PySMatchCat) (mm ms : Z) (raObj decObj : list float)
        (tree : tree_node) (i : nat) (e : CatalogEntry) :
  mm <= 0 ->
  create_hpix_tree hpix_eq2pix (hpix self) raObj decObj = Some tree ->
  PySMatchCat_match hpix_eq2xyz hpix_eq2pix self mm ms raObj decObj = (true, self') ->
  cat self !! i = Some e ->
  matches (entry_at self' i)
  = offered hpix_eq2xyz (point e) i raObj decObj
      (visited tree (npix (hpix self) ÷ 2) (disc_pixels e))
  /\ frame (entry_at self' i) = frame e.
Proof.
  intros Hmm Ht E He.
  destruct (match_buffers hpix_eq2xyz hpix_eq2pix raObj decObj self mm ms tree self' Ht E)
    as [_ Hall].
  rewrite (entry_at_lookup self' i _ (Hall i e He)).
  unfold matched. cbn [matches frame point disc_pixels].
  by rewrite accumulate_unbounded.
Qed.

Lemma unbounded_match_collects_the_candidates_witness :
  matches (entry_at (PySMatchCat_match flat_eq2xyz flat_eq2pix flat_cat 0 0
                       flat_ra flat_dec).2 0)
  = offered flat_eq2xyz (point flat_entry) 0 flat_ra flat_dec
      (visited flat_tree (npix (hpix flat_cat) ÷ 2) (disc_pixels flat_entry)).
Proof.
  refine (proj1 (unbounded_match_collects_the_candidates flat_eq2xyz flat_eq2pix
                   flat_cat _ 0 0 flat_ra flat_dec flat_tree 0 flat_entry _ _ _ _)).
  - lia.
  - vm_compute. reflexivity.
  - vm_compute. reflexivity.
  - reflexivity.
Defined.

(** X6.  With [maxmatch = 1] a successful match call keeps, for every entry,
    a closest candidate: the buffer is empty when the entry has no candidate,
    and otherwise holds one candidate than which no candidate of the entry
    has a greater cosdist. *)
Theorem cap_of_one_keeps_a_closest_match
        (hpix_eq2xyz : float -> float -> option (float * float * float))
        (hpix_eq2pix : healpix -> float -> float -> option Z)
        (self self' : PySMatchCat) (ms : Z) (raObj decObj : list float)
        (tree : tree_node) (i : nat) (e : CatalogEntry) :
  create_hpix_tree hpix_eq2pix (hpix self) raObj decObj = Some tree ->
  PySMatchCat_match hpix_eq2xyz hpix_eq2pix self 1 ms raObj decObj = (true, self') ->
  cat self !! i = Some e ->
  let candidates := offered hpix_eq2xyz (point e) i raObj decObj
                      (visited tree (npix (hpix self) ÷ 2) (disc_pixels e)) in
  match matches (entry_at self' i) with
  | [] => candidates = []
  | [m] => m ∈ candidates
           /\ Forall (fun m' => dgt (cosdist m') (cosdist m) = false) candidates
  | _ => False
  end.
Proof.
  intros Ht E He candidates.
  destruct (match_buffers hpix_eq2xyz hpix_eq2pix raObj decObj self 1 ms tree self' Ht E)
    as [_ Hall].
  rewrite (entry_at_lookup self' i _ (Hall i e He)).
  unfold matched. cbn [matches]. apply accumulate_one.
Qed.

Lemma cap_of_one_keeps_a_closest_match_witness :
  let self' := (PySMatchCat_match flat_eq2xyz flat_eq2pix flat_cat 1 0
                  flat_ra flat_dec).2 in
  let candidates := offered flat_eq2xyz (point flat_entry) 0 flat_ra flat_dec
                      (visited flat_tree (npix (hpix flat_cat) ÷ 2)
                         (disc_pixels flat_entry)) in
  match matches (entry_at self' 0) with
  | [] => candidates = []
  | [m] => m ∈ candidates
           /\ Forall (fun m' => dgt (cosdist m') (cosdist m) = false) candidates
  | _ => False
  end.
Proof.
  intros self'.
  refine (cap_of_one_keeps_a_closest_match flat_eq2xyz flat_eq2pix
            flat_cat self' 0 flat_ra flat_dec flat_tree 0 flat_entry _ _ _).
  - vm_compute. reflexivity.
  - vm_compute. reflexivity.
  - reflexivity.
Defined.

(** X7.  A cap that the candidates of an entry do not exceed loses none of
    them: with at most [maxmatch] candidates the buffer after a successful
    match call is a rearrangement of the candidates, and with fewer it is the
    candidates in the order they were met. *)
Theorem cap_not_exceeded_keeps_every_candidate
        (hpix_eq2xyz : float -> float -> option (float * float * float))
        (hpix_eq2pix : healpix -> float -> float -> option Z)
        (self self' : PySMatchCat) (mm ms : Z) (raObj decObj : list float)
        (tree : tree_node) (i : nat) (e : CatalogEntry) :
  create_hpix_tree hpix_eq2pix (hpix self) raObj decObj = Some tree ->
  PySMatchCat_match hpix_eq2xyz hpix_eq2pix self mm ms raObj decObj = (true, self') ->
  cat self !! i = Some e ->
  let candidates := offered hpix_eq2xyz (point e) i raObj decObj
                      (visited tree (npix (hpix self) ÷ 2) (disc_pixels e)) in
  Z.of_nat (length candidates) <= mm ->
  matches (entry_at self' i) ≡ₚ candidates
  /\ (Z.of_nat (length candidates) < mm -> matches (entry_at self' i) = candidates).
Proof.
  intros Ht E He candidates Hlen.
  destruct (match_buffers hpix_eq2xyz hpix_eq2pix raObj decObj self mm ms tree self' Ht E)
    as [_ Hall].
  rewrite (entry_at_lookup self' i _ (Hall i e He)).
  unfold matched. cbn [matches]. fold candidates. split.
  - by rewrite accumulate_fits.
  - intros Hlt. by rewrite accumulate_below.
Qed.

Lemma cap_not_exceeded_keeps_every_candidate_witness :
  matches (entry_at (PySMatchCat_match flat_eq2xyz flat_eq2pix flat_cat 3 0
                       flat_ra flat_dec).2 0)
  ≡ₚ offered flat_eq2xyz (point flat_entry) 0 flat_ra flat_dec
       (visited flat_tree (npix (hpix flat_cat) ÷ 2) (disc_pixels flat_entry)).
Proof.
  refine (proj1 (cap_not_exceeded_keeps_every_candidate flat_eq2xyz flat_eq2pix
                   flat_cat _ 3 0 flat_ra flat_dec flat_tree 0 flat_entry _ _ _ _)).
  - vm_compute. reflexivity.
  - vm_compute. reflexivity.
  - reflexivity.
  - vm_compute. discriminate.
Defined.

(** ** What an in-memory match does not read *)

Lemma for_each_alike {A S1 S2 : Type} (R : S1 -> S2 -> Prop)
      (body1 : S1 -> A -> bool * S1) (body2 : S2 -> A -> bool * S2) l :
  (forall a s1 s2, R s1 s2 ->
     (body1 s1 a).1 = (body2 s2 a).1 /\ R (body1 s1 a).2 (body2 s2 a).2) ->
  forall s1 s2, R s1 s2 ->
    (for_each body1 l s1).1 = (for_each body2 l s2).1
    /\ R (for_each body1 l s1).2 (for_each body2 l s2).2.
Proof.
  intros Hb. induction l as [|a l IH]; intros s1 s2 HR; cbn [for_each]; [done|].
  destruct (Hb a s1 s2 HR) as [Hst HR'].
  destruct (body1 s1 a) as [st1 t1], (body2 s2 a) as [st2 t2].
  cbn [fst snd] in Hst, HR'. subst st2.
  destruct st1; [by apply IH | done].
Qed.

Lemma domatch1_within_alike s1 s2 i m :
  alike s1 s2 -> alike (domatch1_within s1 i m) (domatch1_within s2 i m).
Proof.
  intros (Hm & Hc & Hh & Hn). rewrite !domatch1_within_accumulate.
  unfold alike, entry_at, set_matches, set_nmatches, entry_at.
  cbn [maxmatch cat hpix nmatches]. rewrite Hm, Hc, Hh, Hn. done.
Qed.

Section Unread.

Variable hpix_eq2xyz : float -> float -> option (float * float * float).
Variable hpix_eq2pix : healpix -> float -> float -> option Z.
Variables raObj decObj : list float.

Lemma domatch1_alike tree i s1 s2 :
  alike s1 s2 ->
  (domatch1 hpix_eq2xyz s1 tree i raObj decObj).1
  = (domatch1 hpix_eq2xyz s2 tree i raObj decObj).1
  /\ alike (domatch1 hpix_eq2xyz s1 tree i raObj decObj).2
           (domatch1 hpix_eq2xyz s2 tree i raObj decObj).2.
Proof.
  intros HR. unfold domatch1.
  replace (disc_pixels (entry_at s2 i)) with (disc_pixels (entry_at s1 i))
    by (unfold entry_at; by rewrite (proj1 (proj2 HR))).
  apply for_each_alike; [|done]. clear s1 s2 HR. intros pix s1 s2 HR.
  unfold domatch1_pixel. rewrite (proj1 (proj2 (proj2 HR))).
  destruct (tree_find tree _) as [ix|]; [|done].
  apply for_each_alike; [|done]. clear s1 s2 HR. intros j s1 s2 HR.
  unfold domatch1_index.
  destruct (hpix_eq2xyz _ _) as [[[x1 y1] z1]|]; [|done].
  replace (entry_at s2 i) with (entry_at s1 i)
    by (unfold entry_at; by rewrite (proj1 (proj2 HR))).
  destruct (dgt _ _); [|done]. split; [done|]. cbn [snd].
  by apply domatch1_within_alike.
Qed.

End Unread.

Lemma clear_entry_frame (c1 c2 : Catalog) :
  map frame c1 = map frame c2 -> map clear_entry c1 = map clear_entry c2.
Proof.
  intros H.
  assert (E : forall c : Catalog,
             map clear_entry c = map (fun f => mkEntry f.1 f.2 []) (map frame c)).
  { intros c. rewrite map_map. by apply map_ext. }
  by rewrite !E, H.
Qed.

(** X8.  An in-memory match call starts afresh and never reads
    [matching_self]: on two engines with the same points, disc pixels and
    grid, whatever their buffers, counters, trees and flags, and whatever
    [matching_self] is passed, the call has the same status and leaves the
    same catalog, and when it succeeds the same [nmatches]. *)
Theorem match_reads_only_the_frame
        (hpix_eq2xyz : float -> float -> option (float * float * float))
        (hpix_eq2pix : healpix -> float -> float -> option Z)
        (s1 s2 : PySMatchCat) (mm ms1 ms2 : Z) (raObj decObj : list float) :
  map frame (cat s1) = map frame (cat s2) -> hpix s1 = hpix s2 ->
  let r1 := PySMatchCat_match hpix_eq2xyz hpix_eq2pix s1 mm ms1 raObj decObj in
  let r2 := PySMatchCat_match hpix_eq2xyz hpix_eq2pix s2 mm ms2 raObj decObj in
  r1.1 = r2.1 /\ cat r1.2 = cat r2.2
  /\ (r1.1 = true -> nmatches r1.2 = nmatches r2.2).
Proof.
  intros Hf Hh r1 r2. subst r1 r2. unfold PySMatchCat_match.
  destruct (match_prep_spec (set_args s1 mm ms1)) as (Hc1 & Hm1 & _ & Hh1 & _ & _).
  destruct (match_prep_spec (set_args s2 mm ms2)) as (Hc2 & Hm2 & _ & Hh2 & _ & _).
  cbn [set_args cat maxmatch hpix] in Hc1, Hm1, Hh1, Hc2, Hm2, Hh2.
  set (p1 := match_prep (set_args s1 mm ms1)) in *.
  set (p2 := match_prep (set_args s2 mm ms2)) in *.
  assert (Hc : cat p1 = cat p2) by (rewrite Hc1, Hc2; by apply clear_entry_frame).
  unfold domatch. rewrite Hh1, Hh2, <- Hh.
  destruct (create_hpix_tree _ _ _ _) as [tree|]; [|done].
  cbn [set_nmatches cat]. rewrite <- Hc.
  destruct (for_each_alike alike
              (fun s i => domatch1 hpix_eq2xyz s tree i raObj decObj)
              (fun s i => domatch1 hpix_eq2xyz s tree i raObj decObj)
              (seq 0 (length (cat p1)))
              (fun i t1 t2 H => domatch1_alike hpix_eq2xyz raObj decObj tree i t1 t2 H)
              (set_nmatches p1 0) (set_nmatches p2 0))
    as (Hst & _ & Hcat & _ & Hn).
  { unfold alike. cbn [set_nmatches maxmatch cat hpix nmatches].
    repeat split; congruence. }
  done.
Qed.

Lemma match_reads_only_the_frame_witness :
  cat (PySMatchCat_match flat_eq2xyz flat_eq2pix flat_matched 2 1 flat_ra flat_dec).2
  = cat (PySMatchCat_match flat_eq2xyz flat_eq2pix flat_cat 2 0 flat_ra flat_dec).2.
Proof.
  refine (proj1 (proj2 (match_reads_only_the_frame flat_eq2xyz flat_eq2pix
                          flat_matched flat_cat 2 1 0 flat_ra flat_dec _ _))).
  - reflexivity.
  - reflexivity.
Defined.

(** ** The bounded path of match2file *)

Lemma Forall_accumulate (P : Match -> Prop) mm (v : match_vector) m :
  P m -> Forall P v -> Forall P (accumulate mm v m).
Proof.
  intros Hm Hv. unfold accumulate. destruct (_ || _).
  - assert (Hp : Forall P (vector_push v m)).
    { apply Forall_app. split; [done|]. by constructor. }
    destruct (_ && _); [by apply Forall_match_build_heap | done].
  - by apply Forall_match_heap_insert.
Qed.

Lemma Forall_fold_accumulate (P : Match -> Prop) mm (ms : match_vector) : forall v,
  Forall P ms -> Forall P v -> Forall P (fold_left (accumulate mm) ms v).
Proof.
  induction ms as [|m ms IH]; intros v Hms Hv; cbn [fold_left]; [done|].
  apply Forall_cons in Hms as [Hm Hms]. apply IH; [done|]. by apply Forall_accumulate.
Qed.

Lemma offered_sound hpix_eq2xyz pt i raObj decObj js :
  Forall (fun m => cat_ind m = Z.of_nat i /\ input_ind m ∈ js
                   /\ dgt (cosdist m) (cos_radius pt) = true)
         (offered hpix_eq2xyz pt i raObj decObj js).
Proof.
  induction js as [|j js IH]; cbn [offered flat_map]; [constructor|].
  apply Forall_app. split.
  - destruct (hpix_eq2xyz _ _) as [[[x1 y1] z1]|]; [|constructor].
    destruct (dgt _ _) eqn:Hd; [|constructor].
    constructor; [|constructor]. cbn [cat_ind input_ind cosdist].
    split; [done|]. split; [apply elem_of_cons; by left | done].
  - eapply Forall_impl; [exact IH|]. intros m (H1 & H2 & H3).
    split; [done|]. split; [apply elem_of_cons; by right | done].
Qed.

Lemma visited_below hpix_eq2pix hp raObj decObj tree pixels j :
  create_hpix_tree hpix_eq2pix hp raObj decObj = Some tree ->
  j ∈ visited tree (npix hp ÷ 2) pixels ->
  exists n, j = Z.of_nat n /\ (n < length raObj)%nat.
Proof.
  intros Ht Hj. unfold visited in Hj.
  apply list_elem_of_In, in_concat in Hj as (ix & Hix & Hin).
  apply list_elem_of_In in Hin.
  apply in_map_iff in Hix as (pix & <- & _).
  destruct (tree_find tree (pix - npix hp ÷ 2)) as [ix|] eqn:E;
    [|by apply elem_of_nil in Hin].
  destruct (create_hpix_tree_filed hpix_eq2pix hp raObj decObj tree Ht _ _ E)
    as [_ Hall].
  destruct (Hall j Hin) as (n & Hn & Hlt & _). by exists n.
Qed.

Lemma total_size_concat (c : Catalog) :
  total_size c = Z.of_nat (length (concat (map matches c))).
Proof.
  induction c as [|e c IH]; [done|].
  cbn [total_size fold_right map concat]. fold (total_size c).
  rewrite length_app, IH. lia.
Qed.

Section Bounded.

Variable hpix_eq2xyz : float -> float -> option (float * float * float).
Variable hpix_eq2pix : healpix -> float -> float -> option Z.
Variables raObj decObj : list float.

Lemma match_count self mm ms s' :
  PySMatchCat_match hpix_eq2xyz hpix_eq2pix self mm ms raObj decObj = (true, s') ->
  nmatches s' = wrap64 (total_size (cat s')).
Proof.
  intros Hrun. unfold PySMatchCat_match in Hrun.
  set (s0 := match_prep (set_args self mm ms)) in *.
  destruct (match_prep_spec (set_args self mm ms)) as (Hc & _).
  destruct (create_hpix_tree hpix_eq2pix (hpix s0) raObj decObj) as [t|] eqn:Ht;
    [|unfold domatch in Hrun; rewrite Ht in Hrun; discriminate].
  pose proof (domatch_inv hpix_eq2xyz hpix_eq2pix
                (fun s => nmatches s = wrap64 (total_size (cat s)))
                (fun s i m Hi _ _ => domatch1_within_count s i m Hi)
                s0 raObj decObj) as H.
  rewrite Hrun in H. destruct H as [_ H]; [|by rewrite Ht|done].
  change (cat (set_nmatches s0 0)) with (cat (match_prep (set_args self mm ms))).
  by rewrite Hc, total_size_clear.
Qed.

Lemma match_indices self mm ms s' :
  PySMatchCat_match hpix_eq2xyz hpix_eq2pix self mm ms raObj decObj = (true, s') ->
  Forall (fun m => 0 <= cat_ind m < Z.of_nat (length (cat self))
                   /\ 0 <= input_ind m < Z.of_nat (length raObj))
         (concat (map matches (cat s'))).
Proof.
  intros Hrun.
  destruct (create_hpix_tree hpix_eq2pix (hpix self) raObj decObj) as [tree|] eqn:Ht.
  2:{ unfold PySMatchCat_match, domatch in Hrun.
      destruct (match_prep_spec (set_args self mm ms)) as (_ & _ & _ & Hh & _).
      cbn [set_args hpix] in Hh. by rewrite Hh, Ht in Hrun. }
  destruct (match_buffers hpix_eq2xyz hpix_eq2pix raObj decObj self mm ms tree s' Ht Hrun)
    as [Hlen Hall].
  apply Forall_concat, Forall_fmap, Forall_lookup. intros i e' He'. cbn.
  destruct (lookup_lt_is_Some_2 (cat self) i) as [e He].
  { rewrite <- Hlen. by apply lookup_lt_Some in He'. }
  rewrite (Hall i e He) in He'. injection He' as <-.
  unfold matched. cbn [matches].
  apply Forall_fold_accumulate; [|constructor].
  eapply Forall_impl; [apply offered_sound|]. intros m (Hc & Hi & _).
  apply lookup_lt_Some in He.
  destruct (visited_below _ _ _ _ _ _ _ Ht Hi) as (n & -> & Hn).
  cbv beta. lia.
Qed.

End Bounded.

Lemma count_lines_total (file : text) :
  Z.of_nat (length file) < 2 ^ 63 ->
  PySMatchCat_count_lines file = Some (Z.of_nat (count_newlines file)).
Proof.
  intros Hfit. unfold PySMatchCat_count_lines, count_lines, fopen_r.
  cbn [bytes pos].
  rewrite (count_lines_loop_spec file [] _ 0) by (simpl; lia). done.
Qed.

(** X9.  With a cap ([maxmatch >= 1]) match2file is the in-memory match
    followed by the writing of the buffers: same status, same engine, and the
    file holds one line per buffered match, entry by entry in buffer order,
    or nothing when the match failed. *)
Theorem bounded_match2file_is_match_then_write
        (hpix_eq2xyz : float -> float -> option (float * float * float))
        (hpix_eq2pix : healpix -> float -> float -> option Z)
        (self : PySMatchCat) (mm ms : Z) (raObj decObj : list float) :
  1 <= mm ->
  let r := PySMatchCat_match2file hpix_eq2xyz hpix_eq2pix self mm ms
             raObj decObj (fopen_w true) in
  let m := PySMatchCat_match hpix_eq2xyz hpix_eq2pix self mm ms raObj decObj in
  r.1 = m.1 /\ r.2.1 = m.2
  /\ r.2.2 = if m.1 then lines (concat (map matches (cat m.2))) else [].
Proof.
  intros Hmm r m. subst r m.
  unfold PySMatchCat_match2file, PySMatchCat_match, domatch2file, fopen_w.
  change (maxmatch (set_args self mm ms)) with mm.
  destruct (Z.leb_spec mm 0); [lia|].
  destruct (domatch _ _ _ _ _) as [[|] s']; [|done].
  by rewrite write_matches_spec.
Qed.

Lemma bounded_match2file_is_match_then_write_witness :
  (PySMatchCat_match2file flat_eq2xyz flat_eq2pix flat_cat 2 0
     flat_ra flat_dec (fopen_w true)).2.1
  = (PySMatchCat_match flat_eq2xyz flat_eq2pix flat_cat 2 0 flat_ra flat_dec).2.
Proof.
  refine (proj1 (proj2 (bounded_match2file_is_match_then_write flat_eq2xyz flat_eq2pix
                          flat_cat 2 0 flat_ra flat_dec _))).
  lia.
Defined.

(** X10.  The file of a successful match2file call with a cap can be counted
    and read back: [count_lines] yields the [nmatches] of the engine, and
    [load_matches] into an array of that many slots yields the buffered
    matches in catalog order, the indices as they are and each cosdist as its
    16 digits read. *)
Theorem bounded_match_file_is_counted_and_read_back
        (hpix_eq2xyz : float -> float -> option (float * float * float))
        (hpix_eq2pix : healpix -> float -> float -> option Z)
        (self self' : PySMatchCat) (mm ms : Z) (raObj decObj : list float)
        (file : text) :
  1 <= mm ->
  Z.of_nat (length (cat self)) < 2 ^ 63 -> Z.of_nat (length raObj) < 2 ^ 63 ->
  PySMatchCat_match2file hpix_eq2xyz hpix_eq2pix self mm ms raObj decObj (fopen_w true)
  = (true, (self', file)) ->
  Z.of_nat (length file) < 2 ^ 63 ->
  let written := concat (map matches (cat self')) in
  file = lines written
  /\ PySMatchCat_count_lines file = Some (nmatches self')
  /\ forall out, Z.of_nat (length out) = nmatches self' ->
       PySMatchCat_load_matches file out = Some (map reread written).
Proof.
  intros Hmm Hcat Hra Hrun Hfile written.
  unfold PySMatchCat_match2file, domatch2file, fopen_w in Hrun.
  change (maxmatch (set_args self mm ms)) with mm in Hrun.
  destruct (Z.leb_spec mm 0); [lia|].
  destruct (domatch _ _ _ _ _) as [[|] s'] eqn:Hm; [|done].
  rewrite write_matches_spec in Hrun. injection Hrun as -> <-.
  cbn [app] in Hfile |- *. fold written in Hfile |- *.
  change (PySMatchCat_match hpix_eq2xyz hpix_eq2pix self mm ms raObj decObj
          = (true, self')) in Hm.
  assert (Hn : nmatches self' = Z.of_nat (length written)).
  { rewrite (match_count _ _ _ _ _ _ _ _ Hm), total_size_concat. fold written.
    apply wrap64_small.
    pose proof (count_newlines_le (lines written)) as Hle.
    rewrite count_newlines_lines in Hle. lia. }
  split; [done|]. split.
  - rewrite count_lines_total by done.
    by rewrite count_newlines_lines, Hn.
  - intros out Hout. apply load_matches_lines; [lia|].
    eapply Forall_impl; [apply (match_indices _ _ _ _ _ _ _ _ Hm)|].
    intros m' [Hc Hi]. unfold int64. cbv beta. lia.
Qed.

Lemma bounded_match_file_is_counted_and_read_back_witness :
  let r := PySMatchCat_match2file flat_eq2xyz flat_eq2pix flat_cat 2 0
             flat_ra flat_dec (fopen_w true) in
  PySMatchCat_count_lines r.2.2 = Some (nmatches r.2.1).
Proof.
  intros r.
  refine (proj1 (proj2 (bounded_match_file_is_counted_and_read_back
                          flat_eq2xyz flat_eq2pix flat_cat r.2.1 2 0 flat_ra flat_dec
                          r.2.2 _ _ _ _ _))).
  - lia.
  - vm_compute. reflexivity.
  - vm_compute. reflexivity.
  - vm_compute. reflexivity.
  - vm_compute. reflexivity.
Defined.

(** X11.  Without a cap ([maxmatch <= 0]) match2file only streams: whether
    the file could be opened or not, and whatever the status, the catalog is
    left as it was, buffers of an earlier match included; of the engine only
    the two arguments and [nmatches] change. *)
Theorem unbounded_match2file_keeps_the_buffers
        (hpix_eq2xyz : float -> float -> option (float * float * float))
        (hpix_eq2pix : healpix -> float -> float -> option Z)
        (self : PySMatchCat) (mm ms : Z) (raObj decObj : list float)
        (fobj : option text) :
  mm <= 0 ->
  let r := PySMatchCat_match2file hpix_eq2xyz hpix_eq2pix self mm ms
             raObj decObj fobj in
  cat r.2.1 = cat self /\ tree r.2.1 = tree self /\ hpix r.2.1 = hpix self
  /\ maxmatch r.2.1 = mm /\ matching_self r.2.1 = ms.
Proof.
  intros Hmm r. subst r. unfold PySMatchCat_match2file, domatch2file.
  destruct fobj as [fobj|]; [|done].
  change (maxmatch (set_args self mm ms)) with mm.
  destruct (Z.leb_spec mm 0); [|lia]. unfold domatch2file_all.
  destruct (domatch2file_all_loop hpix_eq2xyz hpix_eq2pix raObj decObj
              (seq 0 (length raObj)) (set_args self mm ms) fobj)
    as (new & status & n & -> & _).
  done.
Qed.

Lemma unbounded_match2file_keeps_the_buffers_witness :
  cat (PySMatchCat_match2file flat_eq2xyz flat_eq2pix flat_matched 0 0
         flat_ra flat_dec (fopen_w true)).2.1
  = cat flat_matched.
Proof.
  refine (proj1 (unbounded_match2file_keeps_the_buffers flat_eq2xyz flat_eq2pix
                   flat_matched 0 0 flat_ra flat_dec (fopen_w true) _)).
  lia.
Defined.

(** ** Copying the buffers out *)

Lemma memmove_matches_spec (src : match_vector) : forall (dst : list Match) k,
  (k + length src <= length dst)%nat ->
  memmove_matches dst k src = take k dst ++ src ++ drop (k + length src) dst.
Proof.
  induction src as [|m src IH]; intros dst k Hk; cbn [memmove_matches length] in *.
  - rewrite Nat.add_0_r. cbn [app]. by rewrite take_drop.
  - rewrite IH by (rewrite length_insert; lia).
    rewrite (take_S_r _ k m) by (apply list_lookup_insert_eq; lia).
    rewrite take_insert_ge by lia. rewrite drop_insert_lt by lia.
    rewrite <- app_assoc. cbn [app].
    by replace (S k + length src)%nat with (k + S (length src))%nat by lia.
Qed.

Lemma fold_left_seq_inv {St : Type} (P : nat -> St -> Prop) (body : St -> nat -> St)
      len : forall j s,
  P j s ->
  (forall i s, (j <= i < j + len)%nat -> P i s -> P (S i) (body s i)) ->
  P (j + len)%nat (fold_left body (seq j len) s).
Proof.
  induction len as [|len IH]; intros j s Hs Hstep; cbn [seq fold_left].
  - by rewrite Nat.add_0_r.
  - rewrite <- Nat.add_succ_comm. apply IH.
    + apply Hstep; [lia|done].
    + intros i t Hi. apply Hstep. lia.
Qed.

Lemma length_concat_take (c : Catalog) k :
  (length (concat (map matches (take k c))) <= length (concat (map matches c)))%nat.
Proof.
  rewrite <- (take_drop k c) at 2. rewrite map_app, concat_app, length_app. lia.
Qed.

(** The loop of [PySMatchCat_copy_matches], on an array with room for all
    the buffers. *)
Lemma copy_matches_loop (self : PySMatchCat) (out : list Match) :
  let all := concat (map matches (cat self)) in
  (length all <= length out)%nat ->
  fold_left copy_matches_entry (seq 0 (length (cat self))) (self, out, 0%nat)
  = (mkCat (maxmatch self) (matching_self self) (map clear_entry (cat self))
           (hpix self) (tree self) (nmatches self),
     all ++ drop (length all) out, length all).
Proof.
  intros all Hroom. set (c0 := cat self) in *.
  pose (filled := fun j => concat (map matches (take j c0))).
  pose (P := fun (j : nat) (st : PySMatchCat * list Match * nat) =>
     st = (mkCat (maxmatch self) (matching_self self)
                 (map clear_entry (take j c0) ++ drop j c0)
                 (hpix self) (tree self) (nmatches self),
           filled j ++ drop (length (filled j)) out, length (filled j))).
  pose proof (fold_left_seq_inv P copy_matches_entry (length c0) 0 (self, out, 0%nat))
    as H.
  unfold P at 3 in H. cbn [Nat.add] in H. rewrite H.
  - unfold filled. rewrite take_ge, drop_ge by done. by rewrite app_nil_r.
  - unfold P, filled. rewrite take_0, drop_0. cbn [map concat app length].
    rewrite drop_0. by destruct self.
  - intros i st Hi ->. unfold P, copy_matches_entry.
    destruct (lookup_lt_is_Some_2 c0 i) as [e He]; [lia|].
    assert (Hat : (map clear_entry (take i c0) ++ drop i c0) !! i = Some e).
    { rewrite lookup_app_r by (rewrite length_map, length_take; lia).
      rewrite length_map, length_take_le by lia.
      by rewrite Nat.sub_diag, lookup_drop, Nat.add_0_r. }
    set (s := mkCat _ _ (map clear_entry (take i c0) ++ drop i c0) _ _ _).
    rewrite (entry_at_lookup s i e Hat).
    assert (Hfill : filled (S i) = filled i ++ matches e).
    { unfold filled. rewrite (take_S_r _ _ _ He), map_app, concat_app.
      cbn [map concat]. by rewrite app_nil_r. }
    assert (Hle : (length (filled (S i)) <= length out)%nat).
    { etransitivity; [apply length_concat_take | exact Hroom]. }
    rewrite Hfill, length_app in *.
    assert (Hout : (if (0 <? length (matches e))%nat
                    then (memmove_matches (filled i ++ drop (length (filled i)) out)
                            (length (filled i)) (matches e),
                          (length (filled i) + length (matches e))%nat)
                    else (filled i ++ drop (length (filled i)) out, length (filled i)))
                   = ((filled i ++ matches e)
                        ++ drop (length (filled i) + length (matches e)) out,
                      (length (filled i) + length (matches e))%nat)).
    { destruct (matches e) as [|m v] eqn:Hv.
      - cbn [length Nat.ltb Nat.leb]. by rewrite Nat.add_0_r, app_nil_r.
      - change (0 <? length (m :: v))%nat with true. cbv iota.
        rewrite memmove_matches_spec
          by (rewrite length_app, length_drop; cbn [length] in *; lia).
        rewrite take_app_length, drop_app, (drop_ge (filled i)), drop_drop by lia.
        cbn [app].
        replace (length (filled i)
                 + (length (filled i) + length (m :: v) - length (filled i)))%nat
          with (length (filled i) + length (m :: v))%nat by lia.
        by rewrite <- app_assoc. }
    rewrite Hout.
    assert (Hs : set_matches s i []
                 = mkCat (maxmatch self) (matching_self self)
                         (map clear_entry (take (S i) c0) ++ drop (S i) c0)
                         (hpix self) (tree self) (nmatches self)).
    { unfold set_matches. rewrite (entry_at_lookup s i e Hat).
      subst s. cbn [maxmatch matching_self cat hpix tree nmatches]. f_equal.
      rewrite (take_S_r _ _ _ He), map_app, <- app_assoc. cbn [map app].
      rewrite insert_app_r_alt by (rewrite length_map, length_take; lia).
      rewrite length_map, length_take_le, Nat.sub_diag by lia.
      rewrite (drop_S _ _ _ He). done. }
    by rewrite Hs.
Qed.

Lemma concat_clear (c : Catalog) : concat (map matches (map clear_entry c)) = [].
Proof. induction c as [|e c IH]; [done|]. cbn [map concat clear_entry matches app]. done. Qed.

Lemma clear_entry_idemp (c : Catalog) :
  map clear_entry (map clear_entry c) = map clear_entry c.
Proof. rewrite map_map. by apply map_ext. Qed.

Lemma copy_matches_spec (self : PySMatchCat) (out : list Match) :
  let all := concat (map matches (cat self)) in
  (length all <= length out)%nat ->
  PySMatchCat_copy_matches self out
  = (mkCat (maxmatch self) (matching_self self) (map clear_entry (cat self))
           (hpix self) (tree self) (nmatches self),
     all ++ drop (length all) out).
Proof.
  intros all Hroom. unfold PySMatchCat_copy_matches.
  by rewrite (copy_matches_loop self out Hroom).
Qed.

(** X12.  [copy_matches] into an array with room for all the buffers writes
    them at its start, in catalog order and in buffer order, leaves the slots
    beyond them as they were, empties every buffer and keeps [nmatches]; a
    second copy then changes neither the array nor the engine: the results
    of a match can be copied out once. *)
Theorem copy_matches_moves_the_buffers_out (self : PySMatchCat) (out : list Match) :
  let all := concat (map matches (cat self)) in
  (length all <= length out)%nat ->
  let r := PySMatchCat_copy_matches self out in
  r.2 = all ++ drop (length all) out
  /\ cat r.1 = map clear_entry (cat self)
  /\ nmatches r.1 = nmatches self
  /\ PySMatchCat_copy_matches r.1 r.2 = r.
Proof.
  intros all Hroom r. subst r.
  rewrite (copy_matches_spec self out Hroom). fold all. cbn [fst snd cat nmatches].
  split; [done|]. split; [done|]. split; [done|].
  set (s1 := mkCat _ _ (map clear_entry (cat self)) _ _ _).
  rewrite (copy_matches_spec s1).
  - subst s1. cbn [cat maxmatch matching_self hpix tree nmatches].
    rewrite concat_clear, clear_entry_idemp. cbn [length app]. by rewrite drop_0.
  - subst s1. cbn [cat]. rewrite concat_clear. cbn [length]. lia.
Qed.

Lemma copy_matches_moves_the_buffers_out_witness :
  (PySMatchCat_copy_matches flat_matched [match0; match0; match0]).2
  = concat (map matches (cat flat_matched)) ++ [match0].
Proof.
  refine (proj1 (copy_matches_moves_the_buffers_out flat_matched
                   [match0; match0; match0] _)).
  vm_compute. lia.
Defined.

(** X13.  After a successful match call, an array of [nmatches] slots
    receives from [copy_matches] exactly the buffered matches: no slot keeps
    its old content, and every match copied names an entry of the catalog and
    a point of the secondary arrays. *)
Theorem copy_after_match_fills_the_array
        (hpix_eq2xyz : float -> float -> option (float * float * float))
        (hpix_eq2pix : healpix -> float -> float -> option Z)
        (self self' : PySMatchCat) (mm ms : Z) (raObj decObj : list float)
        (out : list Match) :
  PySMatchCat_match hpix_eq2xyz hpix_eq2pix self mm ms raObj decObj = (true, self') ->
  total_size (cat self') < 2 ^ 63 ->
  Z.of_nat (length out) = nmatches self' ->
  let r := PySMatchCat_copy_matches self' out in
  r.2 = concat (map matches (cat self'))
  /\ Forall (fun m => 0 <= cat_ind m < Z.of_nat (length (cat self))
                      /\ 0 <= input_ind m < Z.of_nat (length raObj)) r.2
  /\ Forall (fun e => matches e = []) (cat r.1).
Proof.
  intros Hrun Hfit Hout r.
  assert (Hn : nmatches self' = Z.of_nat (length (concat (map matches (cat self'))))).
  { rewrite (match_count _ _ _ _ _ _ _ _ Hrun), <- total_size_concat.
    apply wrap64_small. pose proof (total_size_nonneg (cat self')). lia. }
  subst r. rewrite (copy_matches_spec self' out) by lia. cbn [fst snd cat].
  rewrite drop_ge, app_nil_r by lia.
  split; [done|]. split; [by apply (match_indices _ _ _ _ _ _ _ _ Hrun)|].
  apply Forall_fmap, Forall_forall. by intros e _.
Qed.

Lemma copy_after_match_fills_the_array_witness :
  (PySMatchCat_copy_matches flat_matched [match0; match0]).2
  = concat (map matches (cat flat_matched)).
Proof.
  refine (proj1 (copy_after_match_fills_the_array flat_eq2xyz flat_eq2pix
                   flat_cat flat_matched 2 0 flat_ra flat_dec [match0; match0] _ _ _)).
  - vm_compute. reflexivity.
  - vm_compute. reflexivity.
  - vm_compute. reflexivity.
Defined.

(** ** Reading fewer or more matches than the file holds *)

Lemma load_matches_loop_prefix (out : list Match) : forall ms,
  (length out <= length ms)%nat ->
  Forall (fun m => int64 (cat_ind m) /\ int64 (input_ind m)) ms ->
  load_matches_loop (lines ms) out = Some (map reread (take (length out) ms)).
Proof.
  induction out as [|o out IH]; intros ms Hlen Hms; [done|].
  destruct ms as [|m ms]; [cbn [length] in Hlen; lia|].
  inversion Hms as [|? ? [Hc Hi] Hms']; subst.
  cbn [load_matches_loop length take map]. rewrite lines_cons.
  rewrite (fscanf_match_line _ _ _ _ _ Hc Hi), skip_space_lines.
  change (3 =? 3) with true. cbv iota.
  rewrite IH; [done | cbn [length] in Hlen; lia | done].
Qed.

Lemma load_matches_loop_short (ms : list Match) : forall out,
  (length ms < length out)%nat ->
  Forall (fun m => int64 (cat_ind m) /\ int64 (input_ind m)) ms ->
  load_matches_loop (lines ms) out = None.
Proof.
  induction ms as [|m ms IH]; intros [|o out] Hlen Hms;
    try (cbn [length] in Hlen; lia).
  - done.
  - inversion Hms as [|? ? [Hc Hi] Hms']; subst.
    cbn [load_matches_loop]. rewrite lines_cons.
    rewrite (fscanf_match_line _ _ _ _ _ Hc Hi), skip_space_lines.
    change (3 =? 3) with true. cbv iota.
    rewrite IH; [done | cbn [length] in Hlen; lia | done].
Qed.

(** X14.  [load_matches] reads one line per slot of the array and never
    looks at the rest of the file: on a match file with at least as many
    lines as the array has slots it fills the array with the first lines
    (all further lines are ignored, and an empty array is left alone), and
    on a file with fewer lines it fails. *)
Theorem load_matches_reads_one_line_per_slot (ms out : list Match) :
  Forall (fun m => int64 (cat_ind m) /\ int64 (input_ind m)) ms ->
  PySMatchCat_load_matches (lines ms) out
  = if (length out <=? length ms)%nat
    then Some (map reread (take (length out) ms))
    else None.
Proof.
  intros Hms. unfold PySMatchCat_load_matches.
  destruct (Z.leb_spec (Z.of_nat (length out)) 0) as [E|E].
  - destruct out; [|cbn [length] in E; lia]. done.
  - destruct (Nat.leb_spec (length out) (length ms)).
    + by apply load_matches_loop_prefix.
    + by apply load_matches_loop_short.
Qed.

Lemma load_matches_reads_one_line_per_slot_witness :
  PySMatchCat_load_matches
    (lines [mkMatch 0 1 0.5; mkMatch 0 2 0.75]) [match0]
  = Some [reread (mkMatch 0 1 0.5)].
Proof.
  refine (load_matches_reads_one_line_per_slot
            [mkMatch 0 1 0.5; mkMatch 0 2 0.75] [match0] _).
  repeat constructor; unfold int64; cbn [cat_ind input_ind]; lia.
Defined.

(** ** The tree of the secondary points *)

Section Filing.

Variable hpix_eq2pix : healpix -> float -> float -> option Z.
Variable hp : healpix.
Variables raObj decObj : list float.

Local Abbreviation pixel n :=
  (hpix_eq2pix hp (PyArray_GETPTR1 raObj n) (PyArray_GETPTR1 decObj n)).

Local Abbreviation has_key k :=
  (fun n => match pixel n with
            | Some hpixid => hpixid - npix hp ÷ 2 =? k
            | None => false
            end).

Lemma create_hpix_tree_loop len : forall j t,
  match for_each
          (fun tree i =>
             match pixel i with
             | None => (false, tree)
             | Some hpixid => (true, tree_insert tree (hpixid - npix hp ÷ 2) (Z.of_nat i))
             end)
          (seq j len) t with
  | (true, tree) =>
      (forall n, (j <= n < j + len)%nat -> is_Some (pixel n))
      /\ forall k, default [] (tree_find tree k)
                   = default [] (tree_find t k)
                       ++ map Z.of_nat (List.filter (has_key k) (seq j len))
  | (false, _) => exists n, (j <= n < j + len)%nat /\ pixel n = None
  end.
Proof.
  induction len as [|len IH]; intros j t; cbn [seq for_each].
  - split; [lia|]. intros k. cbn [List.filter map]. by rewrite app_nil_r.
  - destruct (pixel j) as [hpixid|] eqn:Hj.
    2:{ exists j. split; [lia|done]. }
    specialize (IH (S j) (tree_insert t (hpixid - npix hp ÷ 2) (Z.of_nat j))).
    destruct (for_each _ _ _) as [[|] tree].
    + destruct IH as [Hall Hfind]. split.
      * intros n Hn. destruct (decide (n = j)) as [->|Hne]; [by rewrite Hj|].
        apply Hall. lia.
      * intros k. rewrite Hfind, tree_find_insert. cbn [List.filter].
        rewrite Hj.
        destruct (Z.eq_dec k (hpixid - npix hp ÷ 2)) as [->|Hne].
        -- rewrite Z.eqb_refl. cbn [default from_option id map].
           by rewrite <- app_assoc.
        -- destruct (Z.eqb_spec (hpixid - npix hp ÷ 2) k); [by subst|done].
    + destruct IH as (n & Hn & Hnone). exists n. split; [lia|done].
Qed.

Lemma create_hpix_tree_spec :
  match create_hpix_tree hpix_eq2pix hp raObj decObj with
  | Some tree =>
      raObj <> []
      /\ (forall n, (n < length raObj)%nat -> is_Some (pixel n))
      /\ forall k, default [] (tree_find tree k) = in_pixel hpix_eq2pix hp raObj decObj k
  | None => raObj = [] \/ exists n, (n < length raObj)%nat /\ pixel n = None
  end.
Proof.
  unfold create_hpix_tree, for_each_from.
  destruct (seq 0 (length raObj)) as [|i0 l0] eqn:El.
  { left. by destruct raObj. }
  rewrite <- El.
  assert (Hne : raObj <> []) by (intros ->; done).
  pose proof (create_hpix_tree_loop (length raObj) 0 NULL) as H.
  destruct (for_each _ _ _) as [[|] tree].
  - destruct H as [Hall Hfind]. split; [done|]. split.
    + intros n Hn. apply Hall. lia.
    + intros k. by rewrite Hfind.
  - right. destruct H as (n & Hn & Hnone). exists n. split; [lia|done].
Qed.

End Filing.

(** X15.  [create_hpix_tree] files every secondary point under the key of
    its pixel: when it succeeds the arrays are not empty, every point has a
    pixel, and the node of a key holds the indices of the points of that
    pixel, in increasing order (no node, or none of them, when no point has
    it); it fails exactly on empty arrays or on a point without pixel. *)
Theorem hpix_tree_files_every_point
        (hpix_eq2pix : healpix -> float -> float -> option Z)
        (hp : healpix) (raObj decObj : list float) :
  match create_hpix_tree hpix_eq2pix hp raObj decObj with
  | Some tree =>
      raObj <> []
      /\ (forall n, (n < length raObj)%nat ->
            is_Some (hpix_eq2pix hp (PyArray_GETPTR1 raObj n) (PyArray_GETPTR1 decObj n)))
      /\ forall k, default [] (tree_find tree k) = in_pixel hpix_eq2pix hp raObj decObj k
  | None =>
      raObj = []
      \/ exists n, (n < length raObj)%nat
                   /\ hpix_eq2pix hp (PyArray_GETPTR1 raObj n) (PyArray_GETPTR1 decObj n)
                      = None
  end.
Proof. apply create_hpix_tree_spec. Qed.

Lemma elem_of_offered hpix_eq2xyz pt i raObj decObj js m :
  m ∈ offered hpix_eq2xyz pt i raObj decObj js
  <-> exists j x1 y1 z1,
        j ∈ js
        /\ hpix_eq2xyz (PyArray_GETPTR1 raObj (Z.to_nat j))
                       (PyArray_GETPTR1 decObj (Z.to_nat j)) = Some (x1, y1, z1)
        /\ dgt (dot pt x1 y1 z1) (cos_radius pt) = true
        /\ m = mkMatch (Z.of_nat i) j (dot pt x1 y1 z1).
Proof.
  unfold offered. rewrite list_elem_of_In, in_flat_map. split.
  - intros (j & Hj & Hm). apply list_elem_of_In in Hj.
    destruct (hpix_eq2xyz _ _) as [[[x1 y1] z1]|] eqn:Hx; [|done].
    destruct (dgt _ _) eqn:Hd; [|done].
    destruct Hm as [<-|[]]. by exists j, x1, y1, z1.
  - intros (j & x1 & y1 & z1 & Hj & Hx & Hd & ->). exists j.
    split; [by apply list_elem_of_In|]. rewrite Hx, Hd. by left.
Qed.

Lemma elem_of_visited tree half pixels j :
  j ∈ visited tree half pixels
  <-> exists pix, pix ∈ pixels /\ j ∈ default [] (tree_find tree (pix - half)).
Proof.
  unfold visited. rewrite list_elem_of_In, in_concat. split.
  - intros (ix & Hix & Hj). apply in_map_iff in Hix as (pix & <- & Hpix).
    exists pix. split; by apply list_elem_of_In.
  - intros (pix & Hpix & Hj). exists (default [] (tree_find tree (pix - half))).
    split; [|by apply list_elem_of_In].
    apply in_map_iff. exists pix. split; [done|]. by apply list_elem_of_In.
Qed.

Lemma elem_of_in_pixel hpix_eq2pix hp raObj decObj k j :
  j ∈ in_pixel hpix_eq2pix hp raObj decObj k
  <-> exists n, j = Z.of_nat n /\ (n < length raObj)%nat
                /\ hpix_eq2pix hp (PyArray_GETPTR1 raObj n) (PyArray_GETPTR1 decObj n)
                   = Some (k + npix hp ÷ 2).
Proof.
  unfold in_pixel. rewrite list_elem_of_In, in_map_iff. split.
  - intros (n & <- & Hn). apply List.filter_In in Hn as [Hn Hk].
    apply list_elem_of_In, elem_of_seq in Hn. exists n. split; [done|]. split; [lia|].
    destruct (hpix_eq2pix _ _ _) as [h|]; [|done].
    apply Z.eqb_eq in Hk. f_equal. lia.
  - intros (n & -> & Hn & Hp). exists n. split; [done|].
    apply List.filter_In. split.
    + apply list_elem_of_In, elem_of_seq. lia.
    + rewrite Hp. apply Z.eqb_eq. lia.
Qed.

(** X16.  What an unbounded match finds: after a successful call with
    [maxmatch <= 0], a match is in the buffer of an entry exactly when it
    pairs the entry with a secondary point whose pixel is among the disc
    pixels of the entry and whose direction lies strictly inside the cap,
    and carries the cosine between the two. *)
Theorem unbounded_match_finds_the_pairs_in_the_disc
        (hpix_eq2xyz : float -> float -> option (float * float * float))
        (hpix_eq2pix : healpix -> float -> float -> option Z)
        (self self' : PySMatchCat) (mm ms : Z) (raObj decObj : list float)
        (i : nat) (e : CatalogEntry) (m : Match) :
  mm <= 0 ->
  PySMatchCat_match hpix_eq2xyz hpix_eq2pix self mm ms raObj decObj = (true, self') ->
  cat self !! i = Some e ->
  m ∈ matches (entry_at self' i)
  <-> exists n hpixid x1 y1 z1,
        (n < length raObj)%nat
        /\ hpix_eq2pix (hpix self) (PyArray_GETPTR1 raObj n) (PyArray_GETPTR1 decObj n)
           = Some hpixid
        /\ hpixid ∈ disc_pixels e
        /\ hpix_eq2xyz (PyArray_GETPTR1 raObj n) (PyArray_GETPTR1 decObj n)
           = Some (x1, y1, z1)
        /\ dgt (dot (point e) x1 y1 z1) (cos_radius (point e)) = true
        /\ m = mkMatch (Z.of_nat i) (Z.of_nat n) (dot (point e) x1 y1 z1).
Proof.
  intros Hmm Hrun He.
  pose proof (create_hpix_tree_spec hpix_eq2pix (hpix self) raObj decObj) as Hspec.
  destruct (create_hpix_tree hpix_eq2pix (hpix self) raObj decObj) as [tree|] eqn:Ht.
  2:{ unfold PySMatchCat_match, domatch in Hrun.
      destruct (match_prep_spec (set_args self mm ms)) as (_ & _ & _ & Hh & _).
      cbn [set_args hpix] in Hh. by rewrite Hh, Ht in Hrun. }
  destruct Hspec as (_ & _ & Hfind).
  destruct (match_buffers hpix_eq2xyz hpix_eq2pix raObj decObj self mm ms tree self' Ht Hrun)
    as [_ Hall].
  rewrite (entry_at_lookup self' i _ (Hall i e He)).
  unfold matched. cbn [matches]. rewrite accumulate_unbounded by done. cbn [app].
  rewrite elem_of_offered. split.
  - intros (j & x1 & y1 & z1 & Hj & Hx & Hd & ->).
    apply elem_of_visited in Hj as (pix & Hpix & Hj).
    rewrite Hfind in Hj. apply elem_of_in_pixel in Hj as (n & -> & Hn & Hp).
    rewrite Nat2Z.id in Hx.
    exists n, pix, x1, y1, z1. repeat split; try done.
    rewrite Hp. f_equal. lia.
  - intros (n & hpixid & x1 & y1 & z1 & Hn & Hp & Hpix & Hx & Hd & ->).
    exists (Z.of_nat n), x1, y1, z1. rewrite Nat2Z.id. repeat split; try done.
    apply elem_of_visited. exists hpixid. split; [done|].
    rewrite Hfind. apply elem_of_in_pixel. exists n. repeat split; try done.
    rewrite Hp. f_equal. lia.
Qed.

Lemma unbounded_match_finds_the_pairs_in_the_disc_witness :
  mkMatch 0 1 0.75 ∈ matches (entry_at (PySMatchCat_match flat_eq2xyz flat_eq2pix
                                          flat_cat 0 0 flat_ra flat_dec).2 0).
Proof.
  refine (proj2 (unbounded_match_finds_the_pairs_in_the_disc flat_eq2xyz flat_eq2pix
                   flat_cat _ 0 0 flat_ra flat_dec 0 flat_entry (mkMatch 0 1 0.75)
                   _ _ _) _).
  - lia.
  - vm_compute. reflexivity.
  - reflexivity.
  - exists 1%nat, 0, 0.75%float, (on_circle 0.75), 0%float.
    repeat split; try (vm_compute; reflexivity).
    + cbn [flat_ra length]. lia.
    + apply elem_of_cons. by left.
Defined.

(** ** Building the catalog *)

Section Built.

Variable hpix_eq2xyz : float -> float -> option (float * float * float).
Variable hpix_disc_intersect : healpix -> float -> float -> float -> float -> list Z.
Variable D2R : float.
Variable cos : float -> float.
Variables raObj decObj radObj : list float.
Variable hp : healpix.

Local Abbreviation xyz i :=
  (hpix_eq2xyz (PyArray_GETPTR1 raObj i) (PyArray_GETPTR1 decObj i)).

Local Abbreviation built i x1 y1 z1 v :=
  (mkEntry (mkPoint x1 y1 z1 (PyArray_GETPTR1 radObj i * D2R)%float
                    (cos (PyArray_GETPTR1 radObj i * D2R)%float))
           (hpix_disc_intersect hp x1 y1 z1 (PyArray_GETPTR1 radObj i * D2R)%float)
           v).

Lemma catalog_init_loop len : forall j (c : Catalog),
  match for_each (catalog_init_entry hpix_eq2xyz hpix_disc_intersect D2R cos
                    raObj decObj radObj hp) (seq j len) c with
  | (true, c') =>
      length c' = length c
      /\ (forall i, (j <= i < j + len)%nat -> (i < length c)%nat ->
            exists x1 y1 z1, xyz i = Some (x1, y1, z1)
              /\ c' !! i = Some (built i x1 y1 z1 (matches (nth i c entry0))))
      /\ (forall i, ~ (j <= i < j + len)%nat -> c' !! i = c !! i)
  | (false, _) => exists i, (j <= i < j + len)%nat /\ xyz i = None
  end.
Proof.
  induction len as [|len IH]; intros j c; cbn [seq for_each].
  - split; [done|]. split; [lia|done].
  - unfold catalog_init_entry at 1.
    destruct (xyz j) as [[[x1 y1] z1]|] eqn:Hj.
    2:{ exists j. split; [lia|done]. }
    set (c1 := <[j := _]> c).
    specialize (IH (S j) c1).
    destruct (for_each _ _ c1) as [[|] c'].
    + destruct IH as (Hlen & Hin & Hout).
      assert (Hl1 : length c1 = length c) by apply length_insert.
      split; [congruence|]. split.
      * intros i Hi Hic. destruct (decide (i = j)) as [->|Hne].
        -- exists x1, y1, z1. split; [done|].
           rewrite Hout by lia. by apply list_lookup_insert_eq.
        -- destruct (Hin i) as (x & y & z0 & Hx & Hc'); [lia|lia|].
           exists x, y, z0. split; [done|]. rewrite Hc'.
           do 3 f_equal. rewrite !nth_lookup.
           unfold c1. by rewrite list_lookup_insert_ne.
      * intros i Hi. rewrite Hout by lia. apply list_lookup_insert_ne. lia.
    + destruct IH as (i & Hi & Hnone). exists i. split; [lia|done].
Qed.

Lemma catalog_init_spec :
  match catalog_init hpix_eq2xyz hpix_disc_intersect D2R cos raObj decObj radObj hp with
  | Some c =>
      raObj <> [] /\ length radObj = length raObj /\ length c = length raObj
      /\ forall i, (i < length raObj)%nat ->
           exists x1 y1 z1, xyz i = Some (x1, y1, z1)
                            /\ c !! i = Some (built i x1 y1 z1 [])
  | None =>
      raObj = [] \/ length radObj <> length raObj
      \/ exists i, (i < length raObj)%nat /\ xyz i = None
  end.
Proof.
  unfold catalog_init.
  destruct (Z.leb_spec (Z.of_nat (length raObj)) 0) as [H0|H0].
  { left. destruct raObj; [done | cbn [length] in H0; lia]. }
  destruct (Z.eqb_spec (Z.of_nat (length radObj)) (Z.of_nat (length raObj)))
    as [Hr|Hr]; cbn [negb].
  2:{ right. left. lia. }
  pose proof (catalog_init_loop (length raObj) 0 (cat_new (length raObj))) as H.
  destruct (for_each _ _ _) as [[|] c].
  - destruct H as (Hlen & Hin & _). unfold cat_new in Hlen, Hin.
    rewrite repeat_length in Hlen, Hin.
    split; [by intros ->|]. split; [lia|]. split; [done|].
    intros i Hi. destruct (Hin i) as (x1 & y1 & z1 & Hx & Hc); [lia|done|].
    exists x1, y1, z1. split; [done|]. rewrite Hc. do 2 f_equal.
    rewrite nth_repeat. done.
  - right. right. destruct H as (i & Hi & Hnone). exists i. split; [lia|done].
Qed.

End Built.

(** X17.  [catalog_init] builds one entry per primary point, or nothing:
    it succeeds exactly when the arrays are not empty, the radii are as many
    as the points and every point has a direction; the entry of a point then
    holds that direction, the radius in radians with its cosine, the pixels
    of the disc of that radius around it, and an empty buffer. *)
Theorem catalog_init_builds_an_entry_per_point
        (hpix_eq2xyz : float -> float -> option (float * float * float))
        (hpix_disc_intersect : healpix -> float -> float -> float -> float -> list Z)
        (D2R : float) (cos : float -> float)
        (raObj decObj radObj : list float) (hp : healpix) :
  match catalog_init hpix_eq2xyz hpix_disc_intersect D2R cos raObj decObj radObj hp with
  | Some c =>
      raObj <> [] /\ length radObj = length raObj /\ length c = length raObj
      /\ forall i, (i < length raObj)%nat ->
           exists x1 y1 z1,
             hpix_eq2xyz (PyArray_GETPTR1 raObj i) (PyArray_GETPTR1 decObj i)
             = Some (x1, y1, z1)
             /\ c !! i
                = Some (mkEntry
                          (mkPoint x1 y1 z1 (PyArray_GETPTR1 radObj i * D2R)%float
                                   (cos (PyArray_GETPTR1 radObj i * D2R)%float))
                          (hpix_disc_intersect hp x1 y1 z1
                             (PyArray_GETPTR1 radObj i * D2R)%float)
                          [])
  | None =>
      raObj = [] \/ length radObj <> length raObj
      \/ exists i, (i < length raObj)%nat
                   /\ hpix_eq2xyz (PyArray_GETPTR1 raObj i) (PyArray_GETPTR1 decObj i)
                      = None
  end.
Proof. apply catalog_init_spec. Qed.

Lemma empty_buffers (c : Catalog) :
  Forall (fun e => matches e = []) c ->
  concat (map matches c) = [] /\ map clear_entry c = c.
Proof.
  induction 1 as [|e c He Hc [IH1 IH2]]; [done|].
  cbn [map concat]. rewrite He, IH1, IH2. split; [done|].
  f_equal. destruct e as [p d v]. cbn in He. by subst v.
Qed.

(** X18.  An engine that [PySMatchCat_init] has just built holds no result:
    [nmatches] is 0, there is no tree, the catalog has one entry per primary
    point, and [copy_matches] leaves any array, and the engine, as they
    are. *)
Theorem new_engine_has_nothing_to_copy
        (hpix_eq2xyz : float -> float -> option (float * float * float))
        (hpix_disc_intersect : healpix -> float -> float -> float -> float -> list Z)
        (hpix_new : Z -> option healpix)
        (D2R : float) (cos : float -> float)
        (nside : Z) (raObj decObj radObj : list float) (self : PySMatchCat) :
  PySMatchCat_tp_init hpix_eq2xyz hpix_disc_intersect hpix_new D2R cos
    nside raObj decObj radObj = Some self ->
  nmatches self = 0 /\ tree self = NULL /\ hpix_new nside = Some (hpix self)
  /\ length (cat self) = length raObj
  /\ forall out, PySMatchCat_copy_matches self out = (self, out).
Proof.
  unfold PySMatchCat_tp_init. destruct (hpix_new nside) as [hp|]; [|done].
  pose proof (catalog_init_spec hpix_eq2xyz hpix_disc_intersect D2R cos
                raObj decObj radObj hp) as H.
  destruct (catalog_init _ _ _ _ _ _ _ _) as [c|]; [|done].
  intros [= <-]. destruct H as (_ & _ & Hlen & Hin).
  unfold PySMatchCat_init. cbn [nmatches tree hpix cat].
  split; [done|]. split; [done|]. split; [done|]. split; [done|].
  assert (He : Forall (fun e => matches e = []) c).
  { apply Forall_lookup. intros i e Hi.
    destruct (Hin i) as (x1 & y1 & z1 & _ & Hc).
    - rewrite <- Hlen. by apply lookup_lt_Some in Hi.
    - rewrite Hc in Hi. by injection Hi as <-. }
  destruct (empty_buffers c He) as [Hcc Hcl].
  intros out. rewrite copy_matches_spec; cbn [cat]; rewrite Hcc.
  - cbn [maxmatch matching_self hpix tree nmatches length app].
    by rewrite Hcl, drop_0.
  - cbn [length]. lia.
Qed.

Lemma new_engine_has_nothing_to_copy_witness :
  PySMatchCat_copy_matches flat_cat [match0] = (flat_cat, [match0]).
Proof.
  refine (proj2 (proj2 (proj2 (proj2
            (new_engine_has_nothing_to_copy
               flat_eq2xyz (fun _ _ _ _ _ => [0])
               (fun nside => Some (mkHealpix nside (12 * nside * nside)))
               0x1.1df46a2529d39p-6%float (fun _ => 0%float)
               1 [1%float] [0%float] [90%float] flat_cat _)))) [match0]).
  vm_compute. reflexivity.
Defined.

(** ** When a match call succeeds *)

Lemma for_each_true {A St : Type} (body : St -> A -> bool * St) l :
  (forall s a, a ∈ l -> (body s a).1 = true) ->
  forall s, (for_each body l s).1 = true.
Proof.
  induction l as [|a l IH]; intros Hb s; cbn [for_each]; [done|].
  pose proof (Hb s a (proj2 (elem_of_cons _ _ _) (or_introl eq_refl))) as Ha.
  destruct (body s a) as [st s1]. cbn [fst] in Ha. subst st.
  apply IH. intros s' a' Ha'. apply Hb, elem_of_cons. by right.
Qed.

(** X19.  A match call succeeds whenever the secondary arrays are not empty
    and every secondary point has a pixel and a direction, whatever the cap,
    the catalog and the state of the engine. *)
Theorem match_succeeds_on_convertible_points
        (hpix_eq2xyz : float -> float -> option (float * float * float))
        (hpix_eq2pix : healpix -> float -> float -> option Z)
        (self : PySMatchCat) (mm ms : Z) (raObj decObj : list float) :
  raObj <> [] ->
  (forall n, (n < length raObj)%nat ->
     is_Some (hpix_eq2pix (hpix self) (PyArray_GETPTR1 raObj n) (PyArray_GETPTR1 decObj n))
     /\ is_Some (hpix_eq2xyz (PyArray_GETPTR1 raObj n) (PyArray_GETPTR1 decObj n))) ->
  (PySMatchCat_match hpix_eq2xyz hpix_eq2pix self mm ms raObj decObj).1 = true.
Proof.
  intros Hne Hall. unfold PySMatchCat_match, domatch.
  destruct (match_prep_spec (set_args self mm ms)) as (_ & _ & _ & Hh & _).
  cbn [set_args hpix] in Hh. rewrite Hh.
  pose proof (create_hpix_tree_spec hpix_eq2pix (hpix self) raObj decObj) as Hspec.
  destruct (create_hpix_tree hpix_eq2pix (hpix self) raObj decObj) as [tree|] eqn:Ht.
  2:{ destruct Hspec as [->|(n & Hn & Hnone)]; [done|].
      destruct (Hall n Hn) as [[h Hp] _]. congruence. }
  apply for_each_true. intros s i _. unfold domatch1.
  apply for_each_true. intros s1 pix _. unfold domatch1_pixel.
  destruct (tree_find tree _) as [ix|] eqn:Hf; [|done].
  apply for_each_true. intros s2 j Hj. unfold domatch1_index.
  destruct (create_hpix_tree_filed hpix_eq2pix (hpix self) raObj decObj tree Ht _ _ Hf)
    as [_ Hix].
  destruct (Hix j Hj) as (n & -> & Hn & _). rewrite Nat2Z.id.
  destruct (Hall n Hn) as [_ [[[x1 y1] z1] ->]].
  by destruct (dgt _ _).
Qed.

Lemma match_succeeds_on_convertible_points_witness :
  (PySMatchCat_match flat_eq2xyz flat_eq2pix flat_cat 2 0 flat_ra flat_dec).1 = true.
Proof.
  refine (match_succeeds_on_convertible_points flat_eq2xyz flat_eq2pix
            flat_cat 2 0 flat_ra flat_dec _ _).
  - discriminate.
  - intros n _. split; eexists; reflexivity.
Defined.

(** ** The streaming path and [matching_self] *)

Section Streamed.

Variable hpix_eq2xyz : float -> float -> option (float * float * float).
Variable hpix_eq2pix : healpix -> float -> float -> option Z.
Variable msf : Z.

Local Abbreviation apart :=
  (fun m : Match => msf <> 0 -> cat_ind m <> input_ind m).

Lemma domatch1_2file_index_apart self j x1 y1 z1 fobj incr ci :
  matching_self self = msf ->
  exists new st incr',
    domatch1_2file_index self j x1 y1 z1 (fobj, incr) ci
    = (st, (fobj ++ lines new, incr'))
    /\ Forall apart new.
Proof.
  intros Hms. unfold domatch1_2file_index. rewrite Hms.
  destruct (negb (msf =? 0) && _) eqn:Hs.
  { exists [], true, incr. by rewrite app_nil_r. }
  destruct (dgt _ _).
  - destruct (fprintf_match_spec fobj (wrap64 ci) (wrap64 (Z.of_nat j))
                (dot (point (entry_at self (Z.to_nat (wrap64 ci)))) x1 y1 z1)) as [-> ->].
    eexists [_], _, _. split; [done|].
    constructor; [|done]. cbn [cat_ind input_ind]. intros Hne.
    apply andb_false_iff in Hs as [Hs|Hs].
    + apply negb_false_iff, Z.eqb_eq in Hs. done.
    + by apply Z.eqb_neq in Hs.
  - exists [], true, incr. by rewrite app_nil_r.
Qed.

Lemma domatch1_2file_indices_apart self j x1 y1 z1 indices : forall fobj incr,
  matching_self self = msf ->
  exists new st incr',
    for_each (domatch1_2file_index self j x1 y1 z1) indices (fobj, incr)
    = (st, (fobj ++ lines new, incr'))
    /\ Forall apart new.
Proof.
  induction indices as [|ci indices IH]; intros fobj incr Hms.
  { exists [], true, incr. cbn [for_each]. by rewrite app_nil_r. }
  destruct (domatch1_2file_index_apart self j x1 y1 z1 fobj incr ci Hms)
    as (new1 & st1 & incr1 & E1 & H1).
  cbn [for_each]. rewrite E1. destruct st1.
  - destruct (IH (fobj ++ lines new1) incr1 Hms) as (new2 & st & incr2 & E2 & H2).
    exists (new1 ++ new2), st, incr2. rewrite E2. split.
    + by rewrite lines_app, app_assoc.
    + by apply Forall_app.
  - by exists new1, false, incr1.
Qed.

Lemma domatch1_2file_apart self ra dec j fobj :
  matching_self self = msf ->
  exists new st incr',
    domatch1_2file hpix_eq2xyz hpix_eq2pix self ra dec j fobj
    = (st, (fobj ++ lines new, incr'))
    /\ Forall apart new.
Proof.
  intros Hms. unfold domatch1_2file.
  assert (Hnil : forall st : bool, exists new st' incr',
            (st, (fobj, 0)) = (st', (fobj ++ lines new, incr')) /\ Forall apart new).
  { intros st. exists [], st, 0. by rewrite app_nil_r. }
  destruct (hpix_eq2pix _ _ _) as [hpixid|]; [|apply Hnil].
  destruct (tree_find _ _) as [indices|]; [|apply Hnil].
  destruct (hpix_eq2xyz _ _) as [[[x1 y1] z1]|]; [|apply Hnil].
  by apply domatch1_2file_indices_apart.
Qed.

Lemma domatch2file_all_apart raObj decObj l : forall self fobj,
  matching_self self = msf ->
  exists new st self',
    for_each
      (fun (st : PySMatchCat * text) i =>
         let '(self, fobj) := st in
         let '(status, (fobj, match_incr)) :=
           domatch1_2file hpix_eq2xyz hpix_eq2pix self
             (PyArray_GETPTR1 raObj i) (PyArray_GETPTR1 decObj i) i fobj in
         if status
         then (true, (set_nmatches self (wrap64 (nmatches self + match_incr)), fobj))
         else (false, (self, fobj)))
      l (self, fobj)
    = (st, (self', fobj ++ lines new))
    /\ Forall apart new.
Proof.
  induction l as [|i l IH]; intros self fobj Hms; cbn [for_each].
  { exists [], true, self. by rewrite app_nil_r. }
  destruct (domatch1_2file_apart self (PyArray_GETPTR1 raObj i)
              (PyArray_GETPTR1 decObj i) i fobj Hms)
    as (new1 & st1 & incr1 & -> & H1).
  destruct st1.
  - destruct (IH (set_nmatches self (wrap64 (nmatches self + incr1)))
                (fobj ++ lines new1) Hms) as (new2 & st & self' & E2 & H2).
    exists (new1 ++ new2), st, self'. rewrite E2. split.
    + by rewrite lines_app, app_assoc.
    + by apply Forall_app.
  - by exists new1, false, self.
Qed.

End Streamed.

(** X20.  The streaming path honours [matching_self]: the file that a
    match2file call without cap leaves, called with [matching_self] not 0,
    holds no line that pairs an index with itself. *)
Theorem streamed_file_holds_no_self_pair
        (hpix_eq2xyz : float -> float -> option (float * float * float))
        (hpix_eq2pix : healpix -> float -> float -> option Z)
        (self : PySMatchCat) (mm ms : Z) (raObj decObj : list float) :
  mm <= 0 -> ms <> 0 ->
  exists written,
    (PySMatchCat_match2file hpix_eq2xyz hpix_eq2pix self mm ms
       raObj decObj (fopen_w true)).2.2 = lines written
    /\ Forall (fun m => cat_ind m <> input_ind m) written.
Proof.
  intros Hmm Hms. unfold PySMatchCat_match2file, domatch2file, fopen_w.
  change (maxmatch (set_args self mm ms)) with mm.
  destruct (Z.leb_spec mm 0); [|lia].
  unfold domatch2file_all, for_each_from.
  destruct (seq 0 (length raObj)) as [|i0 l0] eqn:El.
  { exists []. split; [done|constructor]. }
  destruct (domatch2file_all_apart hpix_eq2xyz hpix_eq2pix ms raObj decObj (i0 :: l0)
              (set_args self mm ms) [] eq_refl) as (new & st & self' & -> & Hnew).
  exists new. split; [done|].
  eapply Forall_impl; [exact Hnew|]. intros m Hm. by apply Hm.
Qed.

Lemma streamed_file_holds_no_self_pair_witness :
  exists written,
    (PySMatchCat_match2file flat_eq2xyz flat_eq2pix flat_cat 0 1
       flat_ra flat_dec (fopen_w true)).2.2 = lines written
    /\ Forall (fun m => cat_ind m <> input_ind m) written.
Proof.
  refine (streamed_file_holds_no_self_pair flat_eq2xyz flat_eq2pix flat_cat 0 1
            flat_ra flat_dec _ _).
  - lia.
  - lia.
Defined.

(** ** The counter under a cap *)

Lemma total_size_at_most mm (c : Catalog) :
  sizes_at_most mm c -> total_size c <= mm * Z.of_nat (length c).
Proof.
  induction 1 as [|e c He Hc IH]; [cbn; lia|].
  cbn [total_size fold_right length]. fold (total_size c). lia.
Qed.

Lemma match_sizes
      (hpix_eq2xyz : float -> float -> option (float * float * float))
      (hpix_eq2pix : healpix -> float -> float -> option Z)
      self mm ms raObj decObj :
  1 <= mm ->
  sizes_at_most mm
    (cat (PySMatchCat_match hpix_eq2xyz hpix_eq2pix self mm ms raObj decObj).2).
Proof.
  intros Hmm. destruct (match_prep_spec (set_args self mm ms)) as (Hc & Hm & _).
  unfold PySMatchCat_match.
  set (s0 := match_prep (set_args self mm ms)) in *.
  assert (H0 : sizes_at_most mm (cat s0)).
  { rewrite Hc. apply sizes_at_most_clear. lia. }
  destruct (create_hpix_tree hpix_eq2pix (hpix s0) raObj decObj) as [t|] eqn:Ht.
  - refine (proj2 (proj2 (domatch_inv hpix_eq2xyz hpix_eq2pix
             (fun s => maxmatch s = mm /\ sizes_at_most mm (cat s))
             _ s0 raObj decObj _ _))).
    + intros s i m _ _ _ [Hs Hb]. split.
      * by destruct (domatch1_within_frame s i m) as (-> & _).
      * by apply domatch1_within_sizes.
    + by split.
    + by rewrite Ht.
  - unfold domatch. by rewrite Ht.
Qed.

(** X21.  Under a cap the counter is bounded by the catalog: after a
    successful match call with [maxmatch >= 1], [nmatches] is at least 0 and
    at most [maxmatch] times the number of entries (when that product fits an
    [int64_t]), so that an array of that many slots has room for every
    result. *)
Theorem capped_match_counts_at_most_cap_per_entry
        (hpix_eq2xyz : float -> float -> option (float * float * float))
        (hpix_eq2pix : healpix -> float -> float -> option Z)
        (self self' : PySMatchCat) (mm ms : Z) (raObj decObj : list float) :
  1 <= mm ->
  mm * Z.of_nat (length (cat self)) < 2 ^ 63 ->
  PySMatchCat_match hpix_eq2xyz hpix_eq2pix self mm ms raObj decObj = (true, self') ->
  0 <= nmatches self' <= mm * Z.of_nat (length (cat self))
  /\ nmatches self' = Z.of_nat (length (concat (map matches (cat self')))).
Proof.
  intros Hmm Hfit Hrun.
  pose proof (match_sizes hpix_eq2xyz hpix_eq2pix self mm ms raObj decObj Hmm) as Hs.
  rewrite Hrun in Hs. cbn [snd] in Hs. apply total_size_at_most in Hs.
  assert (Hlen : length (cat self') = length (cat self)).
  { destruct (prep_domatch_valid hpix_eq2xyz hpix_eq2pix (set_args self mm ms)
                raObj decObj) as [_ Hf].
    change (domatch hpix_eq2xyz hpix_eq2pix (match_prep (set_args self mm ms))
              raObj decObj)
      with (PySMatchCat_match hpix_eq2xyz hpix_eq2pix self mm ms raObj decObj) in Hf.
    rewrite Hrun in Hf. cbn [snd set_args cat] in Hf.
    by rewrite <- (length_map frame (cat self')), Hf, length_map. }
  rewrite Hlen in Hs. pose proof (total_size_nonneg (cat self')) as H0.
  rewrite (match_count _ _ _ _ _ _ _ _ Hrun), wrap64_small by lia.
  split; [lia|]. apply total_size_concat.
Qed.

Lemma capped_match_counts_at_most_cap_per_entry_witness :
  0 <= nmatches flat_matched <= 2 * Z.of_nat (length (cat flat_cat)).
Proof.
  refine (proj1 (capped_match_counts_at_most_cap_per_entry flat_eq2xyz flat_eq2pix
                   flat_cat flat_matched 2 0 flat_ra flat_dec _ _ _)).
  - lia.
  - vm_compute. reflexivity.
  - vm_compute. reflexivity.
Defined.

(** ** The repr *)

Lemma length_decimal_fuel f : forall n k,
  0 <= n < 10 ^ Z.of_nat k -> (1 <= k)%nat -> (length (decimal_fuel f n) <= k)%nat.
Proof.
  induction f as [|f IH]; intros n k Hn Hk; cbn [decimal_fuel]; [cbn; lia|].
  rewrite length_app. cbn [length]. destruct (Z.ltb_spec n 10) as [H10|H10].
  - cbn [length]. lia.
  - destruct k as [|[|k]]; [lia| |].
    + change (10 ^ Z.of_nat 1) with 10 in Hn. lia.
    + assert (Hdiv : 0 <= n / 10 < 10 ^ Z.of_nat (S k)).
      { split; [apply Z.div_pos; lia|].
        apply Z.div_lt_upper_bound; [lia|].
        replace (Z.of_nat (S (S k))) with (Z.succ (Z.of_nat (S k))) in Hn by lia.
        rewrite Z.pow_succ_r in Hn by lia. lia. }
      pose proof (IH (n / 10) (S k) Hdiv ltac:(lia)). lia.
Qed.

Lemma length_format_ld n : int64 n -> (1 <= length (format_ld n) <= 20)%nat.
Proof.
  intros [Hlo Hhi]. unfold format_ld, decimal.
  destruct (Z.ltb_spec n 0).
  - cbn [length].
    pose proof (length_decimal_fuel (S (Z.to_nat (Z.log2 (- n)))) (- n) 19) as H19.
    change (10 ^ Z.of_nat 19) with 10000000000000000000 in H19.
    change (2 ^ 63) with 9223372036854775808 in Hlo. lia.
  - pose proof (length_decimal_fuel (S (Z.to_nat (Z.log2 n))) n 19) as H19.
    change (10 ^ Z.of_nat 19) with 10000000000000000000 in H19.
    change (2 ^ 63) with 9223372036854775808 in Hhi.
    pose proof (decimal_nonempty n) as Hne. unfold decimal in Hne.
    destruct (decimal_fuel _ n); [done|]. cbn [length] in *. lia.
Qed.

(** X22.  The repr fits its buffer: for an [nside] that an [int64_t] holds,
    the text that [PySMatchCat_repr] prints, "Catalog", a line break and
    "    hpix nside: " followed by the decimal [nside], has at most 44 bytes,
    so that with its closing NUL it stays within the 256 bytes of [repr]; and
    the number printed reads back as [nside]. *)
Theorem repr_fits_its_buffer (self : PySMatchCat) :
  int64 (nside (hpix self)) ->
  (length (PySMatchCat_repr self) + 1 <= 45)%nat
  /\ scan_ld (skipn 24 (PySMatchCat_repr self)) = Some (nside (hpix self), []).
Proof.
  intros Hn. unfold PySMatchCat_repr. split.
  - rewrite length_app. cbn [length app txt list_ascii_of_string].
    pose proof (length_format_ld _ Hn). lia.
  - cbn [txt list_ascii_of_string app skipn].
    rewrite <- (app_nil_r (format_ld _)). by apply scan_ld_format_ld.
Qed.

Lemma repr_fits_its_buffer_witness :
  (length (PySMatchCat_repr flat_cat) + 1 <= 45)%nat.
Proof.
  refine (proj1 (repr_fits_its_buffer flat_cat _)).
  unfold int64. cbn [flat_cat PySMatchCat_init hpix flat_hpix nside]. lia.
Defined.

(** ** The tree field and the streamed file *)

Lemma copy_matches_entry_tree l : forall st,
  tree (fold_left copy_matches_entry l st).1.1 = tree st.1.1.
Proof.
  induction l as [|i l IH]; intros [[s out] k]; cbn [fold_left]; [done|].
  rewrite IH. unfold copy_matches_entry. by destruct (0 <? _)%nat.
Qed.

Lemma domatch_tree
      (hpix_eq2xyz : float -> float -> option (float * float * float))
      (hpix_eq2pix : healpix -> float -> float -> option Z)
      s raObj decObj :
  tree (domatch hpix_eq2xyz hpix_eq2pix s raObj decObj).2 = tree s.
Proof.
  destruct (create_hpix_tree hpix_eq2pix (hpix s) raObj decObj) as [t|] eqn:Ht.
  - destruct (domatch_inv hpix_eq2xyz hpix_eq2pix (fun _ => True)
                (fun _ _ _ _ _ _ _ => Logic.I) s raObj decObj)
      as [(_ & _ & _ & Htree & _) _]; [done|by rewrite Ht|done].
  - unfold domatch. by rewrite Ht.
Qed.


(** X24.  No call assigns the tree field: match, match2file in either mode
    and with any outcome, and copy_matches leave [self->tree] as they found
    it.  With [PySMatchCat_init], which sets it to NULL, every engine that
    the module builds has a NULL tree. *)
Theorem tree_is_never_assigned
        (hpix_eq2xyz : float -> float -> option (float * float * float))
        (hpix_eq2pix : healpix -> float -> float -> option Z)
        (self : PySMatchCat) (mm ms : Z) (raObj decObj : list float)
        (fobj : option text) (out : list Match) :
  tree (PySMatchCat_match hpix_eq2xyz hpix_eq2pix self mm ms raObj decObj).2
  = tree self
  /\ tree (PySMatchCat_match2file hpix_eq2xyz hpix_eq2pix self mm ms
             raObj decObj fobj).2.1 = tree self
  /\ tree (PySMatchCat_copy_matches self out).1 = tree self.
Proof.
  destruct (match_prep_spec (set_args self mm ms)) as (_ & _ & _ & _ & Ht & _).
  change (tree (set_args self mm ms)) with (tree self) in Ht.
  split; [|split].
  - unfold PySMatchCat_match. by rewrite domatch_tree.
  - unfold PySMatchCat_match2file, domatch2file. destruct fobj as [f|]; [|done].
    change (maxmatch (set_args self mm ms)) with mm.
    destruct (mm <=? 0).
    + unfold domatch2file_all.
      destruct (domatch2file_all_loop hpix_eq2xyz hpix_eq2pix raObj decObj
                  (seq 0 (length raObj)) (set_args self mm ms) f)
        as (new & status & n & -> & _).
      done.
    + pose proof (domatch_tree hpix_eq2xyz hpix_eq2pix
                    (match_prep (set_args self mm ms)) raObj decObj) as Hd.
      destruct (domatch _ _ _ _ _) as [[|] s']; cbn [snd] in Hd |- *.
      * destruct (write_matches s' f). cbn [fst snd]. by rewrite Hd.
      * cbn [fst snd]. by rewrite Hd.
  - unfold PySMatchCat_copy_matches.
    pose proof (copy_matches_entry_tree (seq 0 (length (cat self)))
                  (self, out, 0%nat)) as Hc.
    by destruct (fold_left _ _ _) as [[s o] k].
Qed.


